(** * PITimer: the Teensy 3.0 periodic-interrupt-timer driver (PITimer.cpp)

    A shallow embedding of [PITimer.cpp].  The driver keeps, per timer
    object, a reload value counted in bus clock cycles, a callback and a
    running flag, and talks to the PIT peripheral through memory-mapped
    registers.  Period and frequency are views of the reload value,
    computed in C++ [float] and [double] arithmetic.

    - integers: [uint32_t] and [uint8_t] are [Z] with the wrap-around
      written out;
    - [float] and [double]: IEEE 754 binary32 and binary64 as specified by
      the Standard Library's [SpecFloat] (round to nearest, ties to even),
      every operation evaluated in the format of its C++ type;
    - registers: a register file together with the sequence of bus
      accesses, threaded explicitly through every method;
    - callbacks: function pointers are addresses, resolved through the
      table of the program's functions. *)

From Stdlib Require Import ZArith Bool List Lia Lqa QArith Qabs Qpower.
From Stdlib Require Import Floats.SpecFloat.
Import ListNotations.
Local Open Scope Z_scope.

(** ** Machine integers *)

Definition UINT32_MAX : Z := 4294967295.

Definition to_uint32 (z : Z) : Z := z mod 2 ^ 32.
Definition to_uint8 (z : Z) : Z := z mod 2 ^ 8.

(** ** [float] and [double] *)

Definition float : Type := spec_float.
Definition double : Type := spec_float.

Definition fmul : float -> float -> float := SFmul 24 128.
Definition fdiv : float -> float -> float := SFdiv 24 128.
Definition fsub : float -> float -> float := SFsub 24 128.
Definition dadd : double -> double -> double := SFadd 53 1024.

(** Integer to [float] conversion ([int] and [uint32_t] alike): the
    nearest binary32 value. *)
Definition int_to_float (z : Z) : float := binary_normalize 24 128 z 0 false.

(** [float] to [double] (exact) and [double] to [float] (rounded). *)
Definition float_to_double (x : float) : double :=
  match x with
  | S754_finite s m e => binary_normalize 53 1024 (cond_Zopp s (Zpos m)) e s
  | _ => x
  end.

Definition double_to_float (x : double) : float :=
  match x with
  | S754_finite s m e => binary_normalize 24 128 (cond_Zopp s (Zpos m)) e s
  | _ => x
  end.

(** The [double] literal [0.5]. *)
Definition half : double := S754_finite false 4503599627370496 (-53).

(** [floor] of <math.h>, on [double]. *)
Definition floor (x : double) : double :=
  match x with
  | S754_finite s m e =>
      if 0 <=? e then x
      else binary_normalize 53 1024 (Z.shiftr (cond_Zopp s (Zpos m)) (- e)) 0 s
  | _ => x
  end.

(** The integer part of a floating-point number, fraction discarded
    (towards zero); infinities and NaN have none. *)
Definition truncate (x : spec_float) : option Z :=
  match x with
  | S754_zero _ => Some 0
  | S754_finite s m e =>
      Some (if 0 <=? e then cond_Zopp s (Zpos m) * 2 ^ e
            else Z.quot (cond_Zopp s (Zpos m)) (2 ^ (- e)))
  | _ => None
  end.

(** [float] to [uint32_t] as C++ defines it: the truncated value when
    [uint32_t] can hold it, and no defined result otherwise. *)
Definition fptoui (x : float) : option Z :=
  match truncate x with
  | Some z => if (0 <=? z) && (z <=? UINT32_MAX) then Some z else None
  | None => None
  end.

(** Powers of two, as rational numbers. *)
Definition bpow (e : Z) : Q := (2 ^ e)%Q.

(** The rational number a floating-point datum stands for (0 for
    infinities and NaN, which the theorems below exclude). *)
Definition SF2Q (x : spec_float) : Q :=
  match x with
  | S754_finite s m e => (inject_Z (cond_Zopp s (Zpos m)) * bpow e)%Q
  | _ => 0%Q
  end.

Definition is_finite (x : spec_float) : bool :=
  match x with
  | S754_finite _ _ _ | S754_zero _ => true
  | _ => false
  end.

Definition is_zero (x : spec_float) : bool :=
  match x with
  | S754_zero _ => true
  | _ => false
  end.

(** *** Notions used to reason about rounding *)

(** [rec_loc mrs y]: the mantissa, round bit and sticky bit of [mrs]
    locate the rational [y]: they tell its integer part and whether the
    rest is zero, below one half, one half, or above. *)
Definition rec_loc (mrs : shr_record) (y : Q) : Prop :=
  match shr_r mrs, shr_s mrs with
  | false, false => (y == inject_Z (shr_m mrs))%Q
  | false, true => (inject_Z (shr_m mrs) < y < inject_Z (shr_m mrs) + (1 # 2))%Q
  | true, false => (y == inject_Z (shr_m mrs) + (1 # 2))%Q
  | true, true => (inject_Z (shr_m mrs) + (1 # 2) < y < inject_Z (shr_m mrs) + 1)%Q
  end.

(** The datum [binary_round_aux] builds from a sign, a mantissa and an
    exponent. *)
Definition finish (prec emax : Z) (s : bool) (m e : Z) : spec_float :=
  match m with
  | Z0 => S754_zero s
  | Zpos p => if e <=? emax - prec then S754_finite s p e else S754_infinity s
  | Zneg _ => S754_nan
  end.

(** ** The target *)

(** What the source takes from the headers it includes ([PITimer.h],
    [mk20dx128.h]) and from the compiler's run-time library:
    - [F_BUS], the bus clock in Hz, an integer macro;
    - [valueMin], the class constant [PITimer::valueMin];
    - [SIM_SCGC6_PIT], the clock-gate bit of the PIT module;
    - [IRQ_PIT_CH n], the interrupt number of channel [n];
    - [fptoui_undefined x], the word the [float] to [uint32_t] conversion
      leaves behind for an [x] whose truncation [uint32_t] cannot hold,
      where C++ defines no result. *)
Record Target : Type := {
  F_BUS : Z;
  valueMin : Z;
  SIM_SCGC6_PIT : Z;
  IRQ_PIT_CH : Z -> Z;
  fptoui_undefined : float -> Z
}.

Definition float_to_uint32 (T : Target) (x : float) : Z :=
  match fptoui x with
  | Some z => z
  | None => to_uint32 (fptoui_undefined T x)
  end.

(** The conversion routine of the ARM run-time ABI ([__aeabi_f2uiz]),
    which the compiler calls on this target: it truncates and
    saturates, giving 0 for negative numbers and NaN and [UINT32_MAX]
    for numbers too large. *)
Definition aeabi_f2uiz (x : float) : Z :=
  match x with
  | S754_finite false _ _ =>
      match truncate x with
      | Some z => Z.min z UINT32_MAX
      | None => UINT32_MAX
      end
  | S754_infinity false => UINT32_MAX
  | _ => 0
  end.

(** A conversion that reduces the truncated value modulo 2^32. *)
Definition wrapping_fptoui (x : float) : Z :=
  match truncate x with
  | Some z => z
  | None => 0
  end.

(** A 48 MHz Teensy 3.0 with a given [valueMin]. *)
Definition teensy (vmin : Z) : Target :=
  {| F_BUS := 48000000;
     valueMin := vmin;
     SIM_SCGC6_PIT := 8388608;
     IRQ_PIT_CH := fun n => 30 + n;
     fptoui_undefined := aeabi_f2uiz |}.

(** ** Registers *)

Inductive reg : Type :=
| SIM_SCGC6
| PIT_MCR
| PIT_LDVAL (n : Z)
| PIT_CVAL (n : Z)
| PIT_TCTRL (n : Z)
| PIT_TFLG (n : Z).

Definition reg_eqb (a b : reg) : bool :=
  match a, b with
  | SIM_SCGC6, SIM_SCGC6 => true
  | PIT_MCR, PIT_MCR => true
  | PIT_LDVAL n, PIT_LDVAL k => n =? k
  | PIT_CVAL n, PIT_CVAL k => n =? k
  | PIT_TCTRL n, PIT_TCTRL k => n =? k
  | PIT_TFLG n, PIT_TFLG k => n =? k
  | _, _ => false
  end.

(** One access of the driver to the hardware. *)
Inductive access : Type :=
| Store (r : reg) (v : Z)
| NVIC_ENABLE_IRQ (irq : Z)
| NVIC_DISABLE_IRQ (irq : Z).

(** The hardware as the driver sees it: the register contents, the
    enabled interrupt vectors, and every access so far, oldest first. *)
Record Hw : Type := {
  reg_val : reg -> Z;
  irq_on : Z -> bool;
  bus : list access
}.

(** A store.  The flag registers are write-one-to-clear: the bits
    written as 1 are cleared, which acknowledges the interrupt. *)
Definition store (r : reg) (v : Z) (h : Hw) : Hw :=
  let v' := match r with
            | PIT_TFLG _ => Z.ldiff (reg_val h r) v
            | _ => v
            end in
  {| reg_val := fun r' => if reg_eqb r' r then v' else reg_val h r';
     irq_on := irq_on h;
     bus := bus h ++ [Store r v] |}.

Definition nvic_enable (irq : Z) (h : Hw) : Hw :=
  {| reg_val := reg_val h;
     irq_on := fun i => if i =? irq then true else irq_on h i;
     bus := bus h ++ [NVIC_ENABLE_IRQ irq] |}.

Definition nvic_disable (irq : Z) (h : Hw) : Hw :=
  {| reg_val := reg_val h;
     irq_on := fun i => if i =? irq then false else irq_on h i;
     bus := bus h ++ [NVIC_DISABLE_IRQ irq] |}.

(** The interrupt of channel [n] is pending while bit 0 (TIF) of its
    flag register is set. *)
Definition pending (n : Z) (h : Hw) : bool := Z.testbit (reg_val h (PIT_TFLG n)) 0.

(** ** The timer object *)

(** A pointer to a function without arguments or result: the address
    of the function; 0 is the null pointer. *)
Definition fnptr : Type := Z.

Record PITimer : Type := {
  myID : Z;
  myValue : Z;
  myISR : fnptr;
  isRunning : bool
}.

Definition with_myValue (v : Z) (t : PITimer) : PITimer :=
  {| myID := myID t; myValue := v; myISR := myISR t; isRunning := isRunning t |}.

Definition with_myISR (f : fnptr) (t : PITimer) : PITimer :=
  {| myID := myID t; myValue := myValue t; myISR := f; isRunning := isRunning t |}.

Definition with_isRunning (b : bool) (t : PITimer) : PITimer :=
  {| myID := myID t; myValue := myValue t; myISR := myISR t; isRunning := b |}.

(** A method returns the object and the hardware it leaves behind. *)
Definition Method : Type := PITimer -> Hw -> PITimer * Hw.

(** [PITimer::writeValue] *)
Definition writeValue (t : PITimer) (h : Hw) : Hw :=
  if myID t =? 0 then store (PIT_LDVAL 0) (myValue t) h
  else if myID t =? 1 then store (PIT_LDVAL 1) (myValue t) h
  else if myID t =? 2 then store (PIT_LDVAL 2) (myValue t) h
  else if myID t =? 3 then store (PIT_LDVAL 3) (myValue t) h
  else h.

(** [PITimer::round]: [floor(value + 0.5)], the sum and the floor in
    [double], the result returned as [float]. *)
Definition round (value : float) : float :=
  double_to_float (floor (dadd (float_to_double value) half)).

Section Driver.

Variable T : Target.

(** [PITimer::value(uint32_t)] *)
Definition set_value (newValue : Z) : Method := fun t h =>
  let newValue :=
    if newValue =? UINT32_MAX then UINT32_MAX - 1
    else if newValue <? valueMin T then valueMin T
    else newValue in
  let t := with_myValue newValue t in
  (t, writeValue t h).

(** [PITimer::PITimer], for an object of static storage duration (its
    members are zero before the constructor runs). *)
Definition PITimer_new (timerID : Z) (h : Hw) : PITimer * Hw :=
  let t := {| myID := to_uint8 timerID; myValue := 0; myISR := 0;
              isRunning := false |} in
  let h := store SIM_SCGC6 (Z.lor (reg_val h SIM_SCGC6) (SIM_SCGC6_PIT T)) h in
  let h := store PIT_MCR 0 h in
  set_value (to_uint32 (F_BUS T)) t h.

(** The cycle counts [period(float)] and [frequency(float)] compute,
    still in [float]: the subtraction is a [float] subtraction. *)
Definition period_cycles (newPeriod : float) : float :=
  fsub (round (fmul (int_to_float (F_BUS T)) newPeriod)) (int_to_float 1).

Definition frequency_cycles (newFrequency : float) : float :=
  fsub (round (fdiv (int_to_float (F_BUS T)) newFrequency)) (int_to_float 1).

(** [PITimer::period(float)] *)
Definition set_period (newPeriod : float) : Method := fun t h =>
  let newValue := float_to_uint32 T (period_cycles newPeriod) in
  set_value newValue t h.

(** [PITimer::frequency(float)] *)
Definition set_frequency (newFrequency : float) : Method := fun t h =>
  let newValue := float_to_uint32 T (frequency_cycles newFrequency) in
  set_value newValue t h.

(** [PITimer::value()] *)
Definition value (t : PITimer) : Z := myValue t.

(** [PITimer::period()] *)
Definition period (t : PITimer) : float :=
  fdiv (int_to_float (to_uint32 (value t + 1))) (int_to_float (F_BUS T)).

(** [PITimer::frequency()] *)
Definition frequency (t : PITimer) : float :=
  fdiv (int_to_float (F_BUS T)) (int_to_float (to_uint32 (value t + 1))).

(** [PITimer::start] *)
Definition start (newISR : fnptr) : Method := fun t h =>
  let t := with_myISR newISR t in
  let t := with_isRunning true t in
  (t,
   if myID t =? 0 then nvic_enable (IRQ_PIT_CH T 0) (store (PIT_TCTRL 0) 3 h)
   else if myID t =? 1 then nvic_enable (IRQ_PIT_CH T 1) (store (PIT_TCTRL 1) 3 h)
   else if myID t =? 2 then nvic_enable (IRQ_PIT_CH T 2) (store (PIT_TCTRL 2) 3 h)
   else if myID t =? 3 then nvic_enable (IRQ_PIT_CH T 3) (store (PIT_TCTRL 3) 3 h)
   else h).

(** [PITimer::clear] *)
Definition clear : Method := fun t h =>
  (t,
   if myID t =? 0 then store (PIT_TFLG 0) 1 h
   else if myID t =? 1 then store (PIT_TFLG 1) 1 h
   else if myID t =? 2 then store (PIT_TFLG 2) 1 h
   else if myID t =? 3 then store (PIT_TFLG 3) 1 h
   else h).

(** [PITimer::reset] *)
Definition reset : Method := fun t h =>
  (t,
   if myID t =? 0 then store (PIT_TCTRL 0) 3 (store (PIT_TCTRL 0) 1 h)
   else if myID t =? 1 then store (PIT_TCTRL 1) 3 (store (PIT_TCTRL 1) 1 h)
   else if myID t =? 2 then store (PIT_TCTRL 2) 3 (store (PIT_TCTRL 2) 1 h)
   else if myID t =? 3 then store (PIT_TCTRL 3) 3 (store (PIT_TCTRL 3) 1 h)
   else h).

(** [PITimer::stop] *)
Definition stop : Method := fun t h =>
  let t := with_isRunning false t in
  (t,
   if myID t =? 0 then store (PIT_TCTRL 0) 0 (nvic_disable (IRQ_PIT_CH T 0) h)
   else if myID t =? 1 then store (PIT_TCTRL 1) 0 (nvic_disable (IRQ_PIT_CH T 1) h)
   else if myID t =? 2 then store (PIT_TCTRL 2) 0 (nvic_disable (IRQ_PIT_CH T 2) h)
   else if myID t =? 3 then store (PIT_TCTRL 3) 0 (nvic_disable (IRQ_PIT_CH T 3) h)
   else h).

(** [PITimer::running] *)
Definition running (t : PITimer) : bool := isRunning t.

(** [PITimer::current] *)
Definition current (t : PITimer) (h : Hw) : Z :=
  let currentValue := 0 in
  if myID t =? 0 then reg_val h (PIT_CVAL 0)
  else if myID t =? 1 then reg_val h (PIT_CVAL 1)
  else if myID t =? 2 then reg_val h (PIT_CVAL 2)
  else if myID t =? 3 then reg_val h (PIT_CVAL 3)
  else currentValue.

(** [PITimer::remains] *)
Definition remains (t : PITimer) (h : Hw) : float :=
  fdiv (int_to_float (current t h)) (int_to_float (F_BUS T)).

(** *** The three timer objects and their interrupt service routines *)

Record System : Type := {
  PITimer0 : PITimer;
  PITimer1 : PITimer;
  PITimer2 : PITimer;
  hw : Hw
}.

(** Static initialisation: the three constructors, in the order of the
    definitions. *)
Definition boot (h : Hw) : System :=
  let '(t0, h) := PITimer_new 0 h in
  let '(t1, h) := PITimer_new 1 h in
  let '(t2, h) := PITimer_new 2 h in
  {| PITimer0 := t0; PITimer1 := t1; PITimer2 := t2; hw := h |}.

(** The functions of the program, by address.  A callback may do
    anything to the timers and the hardware. *)
Variable code : fnptr -> option (System -> System).

(** A call through a function pointer; there is no result when the
    pointer is not the address of a function. *)
Definition call (f : fnptr) (s : System) : option System :=
  match code f with
  | Some body => Some (body s)
  | None => None
  end.

(** The system after [PITimerN.clear()]. *)
Definition clear0 (s : System) : System :=
  let '(t, h) := clear (PITimer0 s) (hw s) in
  {| PITimer0 := t; PITimer1 := PITimer1 s; PITimer2 := PITimer2 s; hw := h |}.

Definition clear1 (s : System) : System :=
  let '(t, h) := clear (PITimer1 s) (hw s) in
  {| PITimer0 := PITimer0 s; PITimer1 := t; PITimer2 := PITimer2 s; hw := h |}.

Definition clear2 (s : System) : System :=
  let '(t, h) := clear (PITimer2 s) (hw s) in
  {| PITimer0 := PITimer0 s; PITimer1 := PITimer1 s; PITimer2 := t; hw := h |}.

(** [pit0_isr], [pit1_isr], [pit2_isr] *)
Definition pit0_isr (s : System) : option System :=
  let s := clear0 s in call (myISR (PITimer0 s)) s.

Definition pit1_isr (s : System) : option System :=
  let s := clear1 s in call (myISR (PITimer1 s)) s.

Definition pit2_isr (s : System) : option System :=
  let s := clear2 s in call (myISR (PITimer2 s)) s.

(** Channel-indexed views of the above. *)
Definition timer_of (n : Z) (s : System) : PITimer :=
  if n =? 0 then PITimer0 s else if n =? 1 then PITimer1 s else PITimer2 s.

Definition clear_n (n : Z) (s : System) : System :=
  if n =? 0 then clear0 s else if n =? 1 then clear1 s else clear2 s.

Definition pit_isr (n : Z) (s : System) : option System :=
  if n =? 0 then pit0_isr s else if n =? 1 then pit1_isr s else pit2_isr s.

(** The invariant on the reload value. *)
Definition value_ok (t : PITimer) : Prop :=
  valueMin T <= myValue t <= UINT32_MAX - 1.

End Driver.


(** The operations that write the reload value. *)
Inductive setter (T : Target) : Method -> Prop :=
| setter_value (v : Z) : 0 <= v <= UINT32_MAX -> setter T (set_value T v)
| setter_period (p : float) : setter T (set_period T p)
| setter_frequency (f : float) : setter T (set_frequency T f).

(** The timer objects carry the identifiers they were constructed with. *)
Definition ids_ok (s : System) : Prop :=
  myID (PITimer0 s) = 0 /\ myID (PITimer1 s) = 1 /\ myID (PITimer2 s) = 2.

(** ** Concrete data for the examples *)

(** The hardware with every register and every interrupt vector
    cleared. *)
Definition hw0 : Hw :=
  {| reg_val := fun _ => 0; irq_on := fun _ => false; bus := [] |}.

(** A stopped timer object with no callback. *)
Definition idle (timerID value : Z) : PITimer :=
  {| myID := timerID; myValue := value; myISR := 0; isRunning := false |}.

(** A program with one callback, at address 4096, that restarts the
    countdown of timer 2. *)
Definition restart2 (s : System) : System :=
  let '(t, h) := reset (PITimer2 s) (hw s) in
  {| PITimer0 := PITimer0 s; PITimer1 := PITimer1 s; PITimer2 := t; hw := h |}.

Definition code1 (f : fnptr) : option (System -> System) :=
  if f =? 4096 then Some restart2 else None.

(** Three timers, the second one started with that callback. *)
Definition system1 : System :=
  {| PITimer0 := idle 0 48000000;
     PITimer1 := fst (start (teensy 15) 4096 (idle 1 48000000) hw0);
     PITimer2 := idle 2 48000000;
     hw := snd (start (teensy 15) 4096 (idle 1 48000000) hw0) |}.

(** The [float] arguments of the examples: [0.0], [1.0], [1000.0] and
    [359/1024 = 0.3505859375], a period of 16,828,125 cycles at
    48 MHz. *)
Definition float_0 : float := S754_zero false.
Definition float_1 : float := S754_finite false 8388608 (-23).
Definition float_1000 : float := S754_finite false 16384000 (-14).
Definition float_359_1024 : float := S754_finite false 11763712 (-25).

(** The [float] nearest to one millisecond, [0.001f]. *)
Definition float_1000th : float := S754_finite false 8589935 (-33).

(** The [float] nearest to three tenths of a second, [0.3f]. *)
Definition float_3_10 : float := S754_finite false 10066330 (-25).

(** [-1.0f] *)
Definition float_minus_1 : float := S754_finite true 8388608 (-23).

(** A period the timer can represent: a binary32 number whose cycle
    count converts to a [uint32_t] inside the range of reload values,
    so that nothing is clamped. *)
Definition representable (T : Target) (p : float) : Prop :=
  valid_binary 24 128 p = true /\
  exists v, fptoui (period_cycles T p) = Some v /\
            valueMin T <= v <= UINT32_MAX - 1.

(** ** Signs and sizes of [float] data *)

(** The sign of a datum; a NaN has none. *)
Definition signbit (x : spec_float) : bool :=
  match x with
  | S754_zero s | S754_infinity s | S754_finite s _ _ => s
  | S754_nan => false
  end.

Definition is_nan (x : spec_float) : bool :=
  match x with
  | S754_nan => true
  | _ => false
  end.

(** A number of at least [2^32]: plus infinity, or a positive finite
    datum with such a value. *)
Definition huge (x : spec_float) : Prop :=
  match x with
  | S754_infinity false => True
  | S754_finite false m e => (bpow 32 <= inject_Z (Zpos m) * bpow e)%Q
  | _ => False
  end.

(** ** Programs: calls on the three timer objects *)

(** A call of a public method, with its argument. *)
Inductive method_call : Type :=
| Call_value (newValue : Z)
| Call_period (newPeriod : float)
| Call_frequency (newFrequency : float)
| Call_start (newISR : fnptr)
| Call_clear
| Call_reset
| Call_stop.

(** The method a call runs; an integer argument is converted to
    [uint32_t]. *)
Definition method (T : Target) (c : method_call) : Method :=
  match c with
  | Call_value v => set_value T (to_uint32 v)
  | Call_period p => set_period T p
  | Call_frequency f => set_frequency T f
  | Call_start cb => start T cb
  | Call_clear => clear
  | Call_reset => reset
  | Call_stop => stop T
  end.

(** The index of the object a call in a program names: 0 for
    [PITimer0], 1 for [PITimer1], 2 for [PITimer2]. *)
Definition index (n : Z) : Z := if n =? 0 then 0 else if n =? 1 then 1 else 2.

(** The call [PITimerN.m(...)]: the method runs on the object and the
    hardware, and the object is put back. *)
Definition invoke (T : Target) (n : Z) (c : method_call) (s : System) : System :=
  let '(t, h) := method T c (timer_of n s) (hw s) in
  if n =? 0 then {| PITimer0 := t; PITimer1 := PITimer1 s; PITimer2 := PITimer2 s; hw := h |}
  else if n =? 1 then {| PITimer0 := PITimer0 s; PITimer1 := t; PITimer2 := PITimer2 s; hw := h |}
  else {| PITimer0 := PITimer0 s; PITimer1 := PITimer1 s; PITimer2 := t; hw := h |}.

(** A program: calls on the three objects, one after the other. *)
Fixpoint run (T : Target) (prog : list (Z * method_call)) (s : System) : System :=
  match prog with
  | [] => s
  | (n, c) :: rest => run T rest (invoke T n c s)
  end.

(** What the last [start] or [stop] of a program on object [n] leaves:
    the callback of the [start], or nothing after a [stop] or when
    there was neither. *)
Fixpoint armed (n : Z) (prog : list (Z * method_call)) (before : option fnptr) : option fnptr :=
  match prog with
  | [] => before
  | (k, c) :: rest =>
      armed n rest
        (if index k =? index n then
           match c with
           | Call_start cb => Some cb
           | Call_stop => None
           | _ => before
           end
         else before)
  end.

(** The objects and the hardware agree: every object has its
    identifier and a reload value in range, the reload register of its
    channel holds that value, and the interrupt vector of the channel is
    enabled exactly when the object says it is running. *)
Definition in_sync (T : Target) (s : System) : Prop :=
  ids_ok s /\
  forall n, 0 <= n <= 2 ->
    value_ok T (timer_of n s) /\
    reg_val (hw s) (PIT_LDVAL n) = value (timer_of n s) /\
    irq_on (hw s) (IRQ_PIT_CH T n) = running (timer_of n s).

(** A program on the three objects: timer 1 is started with the
    callback at address 4096, timer 0 is given a period of a
    millisecond, timer 1 is stopped and timer 2 is started with the same
    callback. *)
Definition program1 : list (Z * method_call) :=
  [(1, Call_start 4096); (0, Call_period float_1000th); (1, Call_stop);
   (2, Call_start 4096)].

(** * Properties *)

(** ** Integer conversions *)

Lemma to_uint32_range (z : Z) : 0 <= to_uint32 z <= UINT32_MAX.
Proof.
  unfold to_uint32, UINT32_MAX.
  pose proof (Z.mod_pos_bound z (2 ^ 32) ltac:(lia)). lia.
Qed.

Lemma to_uint32_small (z : Z) : 0 <= z <= UINT32_MAX -> to_uint32 z = z.
Proof.
  unfold to_uint32, UINT32_MAX. intros H. apply Z.mod_small. lia.
Qed.

Lemma fptoui_range (x : float) (z : Z) :
  fptoui x = Some z -> 0 <= z <= UINT32_MAX.
Proof.
  unfold fptoui. destruct (truncate x) as [k|]; [|discriminate].
  destruct (0 <=? k) eqn:H0; destruct (k <=? UINT32_MAX) eqn:H1;
    simpl; try discriminate.
  intros [= <-]. lia.
Qed.

Lemma float_to_uint32_range (T : Target) (x : float) :
  0 <= float_to_uint32 T x <= UINT32_MAX.
Proof.
  unfold float_to_uint32. destruct (fptoui x) as [z|] eqn:E.
  - eauto using fptoui_range.
  - apply to_uint32_range.
Qed.

Lemma truncate_sign (s : bool) (m : positive) (e k : Z) :
  truncate (S754_finite s m e) = Some k -> if s then k <= 0 else 0 <= k.
Proof.
  unfold truncate. intros [= <-].
  destruct (Z.leb_spec 0 e) as [He|He].
  - assert (0 < 2 ^ e) by (apply Z.pow_pos_nonneg; lia).
    destruct s; unfold cond_Zopp; nia.
  - assert (Hk : 0 < 2 ^ (- e)) by (apply Z.pow_pos_nonneg; lia).
    pose proof (Z.quot_pos (Zpos m) (2 ^ (- e)) ltac:(lia) Hk) as Hq.
    destruct s; unfold cond_Zopp; [|assumption].
    rewrite Z.quot_opp_l by lia. lia.
Qed.

(** Where C++ defines the conversion, the run-time routine of the
    target computes it. *)
Lemma aeabi_f2uiz_defined (x : float) (z : Z) :
  fptoui x = Some z -> aeabi_f2uiz x = z.
Proof.
  unfold fptoui. destruct (truncate x) as [k|] eqn:Ek; [|discriminate].
  destruct (Z.leb_spec 0 k) as [H0|]; [|discriminate].
  destruct (Z.leb_spec k UINT32_MAX) as [H1|]; [|discriminate].
  cbn [andb]. intros [= <-].
  destruct x as [s|s| |s m e]; try discriminate.
  - injection Ek as <-. reflexivity.
  - pose proof (truncate_sign s m e k Ek) as Hs.
    destruct s; cbn [aeabi_f2uiz]; [lia|]. rewrite Ek. lia.
Qed.

Lemma aeabi_f2uiz_range (x : float) : 0 <= aeabi_f2uiz x <= UINT32_MAX.
Proof.
  unfold aeabi_f2uiz, UINT32_MAX.
  destruct x as [s|[|]| |[|] m e]; try lia.
  destruct (truncate (S754_finite false m e)) as [k|] eqn:Ek; [|lia].
  pose proof (truncate_sign false m e k Ek) as Hs. cbn in Hs. lia.
Qed.

(** On the Teensy the conversion is the run-time routine, whatever the
    argument. *)
Lemma float_to_uint32_teensy (vmin : Z) (x : float) :
  float_to_uint32 (teensy vmin) x = aeabi_f2uiz x.
Proof.
  unfold float_to_uint32. destruct (fptoui x) as [z|] eqn:E.
  - symmetry. apply aeabi_f2uiz_defined. exact E.
  - cbn [teensy fptoui_undefined]. apply to_uint32_small. apply aeabi_f2uiz_range.
Qed.

(** ** The reload value *)

Lemma set_value_stored (T : Target) (v : Z) (t : PITimer) (h : Hw) :
  value (fst (set_value T v t h)) =
  if v =? UINT32_MAX then UINT32_MAX - 1
  else if v <? valueMin T then valueMin T else v.
Proof. reflexivity. Qed.

Lemma set_value_frame (T : Target) (v : Z) (t : PITimer) (h : Hw) :
  myID (fst (set_value T v t h)) = myID t /\
  myISR (fst (set_value T v t h)) = myISR t /\
  isRunning (fst (set_value T v t h)) = isRunning t.
Proof. repeat split. Qed.

(** The clamped value is what reaches the reload register of the
    channel. *)
Lemma set_value_reload (T : Target) (v : Z) (t : PITimer) (h : Hw) :
  0 <= myID t <= 3 ->
  reg_val (snd (set_value T v t h)) (PIT_LDVAL (myID t)) =
  value (fst (set_value T v t h)).
Proof.
  intros Hid. unfold set_value, writeValue, value. cbn [fst snd myID myValue with_myValue].
  destruct (myID t =? 0) eqn:E0; [apply Z.eqb_eq in E0; rewrite E0; cbn; reflexivity|].
  destruct (myID t =? 1) eqn:E1; [apply Z.eqb_eq in E1; rewrite E1; cbn; reflexivity|].
  destruct (myID t =? 2) eqn:E2; [apply Z.eqb_eq in E2; rewrite E2; cbn; reflexivity|].
  destruct (myID t =? 3) eqn:E3; [apply Z.eqb_eq in E3; rewrite E3; cbn; reflexivity|].
  lia.
Qed.

Lemma set_value_reload_witness :
  reg_val (snd (set_value (teensy 15) 7 (idle 2 48000000) hw0)) (PIT_LDVAL 2) = 15.
Proof.
  apply (set_value_reload (teensy 15) 7 (idle 2 48000000) hw0). cbn. lia.
Defined.

Lemma set_value_ok (T : Target) (v : Z) (t : PITimer) (h : Hw) :
  0 <= valueMin T <= UINT32_MAX - 1 ->
  0 <= v <= UINT32_MAX ->
  value_ok T (fst (set_value T v t h)).
Proof.
  intros Hmin Hv. unfold value_ok. fold (value (fst (set_value T v t h))).
  rewrite set_value_stored. unfold UINT32_MAX in *.
  destruct (Z.eqb_spec v 4294967295); [lia|].
  destruct (Z.ltb_spec v (valueMin T)); lia.
Qed.

(** C1: [value(uint32_t)] clamps silently and the stored copy is what
    [value()] returns.  For every [uint32_t] input [v] the stored value
    is [UINT32_MAX - 1] when [v = UINT32_MAX], [valueMin] when
    [v < valueMin], and [v] otherwise; in particular [v] itself comes
    back for [valueMin <= v <= UINT32_MAX - 2].  The result does not
    depend on the hardware, and the setter is a total function: there
    is no error outcome. *)
Theorem set_value_clamps (T : Target) (v : Z) (t : PITimer) (h : Hw) :
  0 <= valueMin T <= UINT32_MAX ->
  0 <= v <= UINT32_MAX ->
  (v = UINT32_MAX -> value (fst (set_value T v t h)) = UINT32_MAX - 1) /\
  (v < valueMin T -> value (fst (set_value T v t h)) = valueMin T) /\
  (v <> UINT32_MAX -> valueMin T <= v -> value (fst (set_value T v t h)) = v) /\
  (valueMin T <= v <= UINT32_MAX - 2 -> value (fst (set_value T v t h)) = v) /\
  (forall h', value (fst (set_value T v t h')) = value (fst (set_value T v t h))).
Proof.
  intros Hmin Hv. rewrite !set_value_stored. unfold UINT32_MAX in *.
  repeat split; intros.
  - subst v. reflexivity.
  - destruct (Z.eqb_spec v 4294967295); [lia|].
    destruct (Z.ltb_spec v (valueMin T)); lia.
  - destruct (Z.eqb_spec v 4294967295); [lia|].
    destruct (Z.ltb_spec v (valueMin T)); lia.
  - destruct (Z.eqb_spec v 4294967295); [lia|].
    destruct (Z.ltb_spec v (valueMin T)); lia.
Qed.

Lemma set_value_clamps_witness :
  value (fst (set_value (teensy 15) 4294967295 (idle 0 0) hw0)) = UINT32_MAX - 1.
Proof.
  refine (proj1 (set_value_clamps (teensy 15) 4294967295 _ _ _ _) eq_refl);
    unfold UINT32_MAX; simpl; lia.
Defined.

(** ** Construction and the invariant on the reload value *)

Lemma set_period_ok (T : Target) (p : float) (t : PITimer) (h : Hw) :
  0 <= valueMin T <= UINT32_MAX - 1 ->
  value_ok T (fst (set_period T p t h)).
Proof.
  intros Hmin. unfold set_period.
  apply set_value_ok; [assumption | apply float_to_uint32_range].
Qed.

Lemma set_frequency_ok (T : Target) (f : float) (t : PITimer) (h : Hw) :
  0 <= valueMin T <= UINT32_MAX - 1 ->
  value_ok T (fst (set_frequency T f t h)).
Proof.
  intros Hmin. unfold set_frequency.
  apply set_value_ok; [assumption | apply float_to_uint32_range].
Qed.

Lemma setter_ok (T : Target) (op : Method) (t : PITimer) (h : Hw) :
  0 <= valueMin T <= UINT32_MAX - 1 ->
  setter T op -> value_ok T (fst (op t h)).
Proof.
  intros Hmin [v Hv | p | f];
    auto using set_value_ok, set_period_ok, set_frequency_ok.
Qed.

Lemma value_ok_no_overflow (T : Target) (t : PITimer) :
  0 <= valueMin T -> value_ok T t ->
  to_uint32 (value t + 1) = value t + 1.
Proof.
  unfold value_ok, value. intros Hmin Hok.
  apply to_uint32_small. unfold UINT32_MAX in *. lia.
Qed.

(** C4: with [valueMin] a [uint32_t] below [UINT32_MAX], the invariant
    [valueMin <= myValue <= UINT32_MAX - 1] holds after the constructor
    and after [value(uint32_t)], [period(float)] and [frequency(float)]
    on any object, for every argument (whatever the conversion to
    [uint32_t] produces); [start], [stop], [reset] and [clear] leave the
    value alone.  Under the invariant the value is not [UINT32_MAX] and
    [value() + 1] does not wrap. *)
Theorem reload_value_invariant (T : Target) :
  0 <= valueMin T <= UINT32_MAX - 1 ->
  (forall timerID h, value_ok T (fst (PITimer_new T timerID h))) /\
  (forall v t h, 0 <= v <= UINT32_MAX -> value_ok T (fst (set_value T v t h))) /\
  (forall p t h, value_ok T (fst (set_period T p t h))) /\
  (forall f t h, value_ok T (fst (set_frequency T f t h))) /\
  (forall t h cb,
      value (fst (start T cb t h)) = value t /\ value (fst (stop T t h)) = value t /\
      value (fst (reset t h)) = value t /\ value (fst (clear t h)) = value t) /\
  (forall t, value_ok T t ->
             value t <> UINT32_MAX /\ to_uint32 (value t + 1) = value t + 1).
Proof.
  intros Hmin. repeat split.
  - unfold PITimer_new. apply set_value_ok; [assumption | apply to_uint32_range].
  - unfold PITimer_new. apply set_value_ok; [assumption | apply to_uint32_range].
  - apply set_value_ok; assumption.
  - apply set_value_ok; assumption.
  - apply set_period_ok; assumption.
  - apply set_period_ok; assumption.
  - apply set_frequency_ok; assumption.
  - apply set_frequency_ok; assumption.
  - unfold value_ok, value, UINT32_MAX in *. lia.
  - apply value_ok_no_overflow with T; [lia | assumption].
Qed.

Lemma reload_value_invariant_witness :
  value_ok (teensy 15) (fst (PITimer_new (teensy 15) 0 hw0)).
Proof.
  refine (proj1 (reload_value_invariant (teensy 15) _) 0 hw0).
  unfold UINT32_MAX; simpl; lia.
Defined.

(** ** The period and frequency views *)

(** C6: after any setter the two read views are functions of the stored
    value alone: [period()] is the [float] quotient of [value() + 1] (no
    wrap-around) by [F_BUS], [frequency()] the quotient of [F_BUS] by
    [value() + 1]; two objects with equal values have equal periods and
    frequencies, so neither is stored on its own. *)
Theorem views_derived_from_value (T : Target) (op : Method) (t : PITimer) (h : Hw) :
  0 <= valueMin T <= UINT32_MAX - 1 ->
  setter T op ->
  period T (fst (op t h)) =
    fdiv (int_to_float (value (fst (op t h)) + 1)) (int_to_float (F_BUS T)) /\
  frequency T (fst (op t h)) =
    fdiv (int_to_float (F_BUS T)) (int_to_float (value (fst (op t h)) + 1)) /\
  (forall t', value t' = value (fst (op t h)) ->
              period T t' = period T (fst (op t h)) /\
              frequency T t' = frequency T (fst (op t h))).
Proof.
  intros Hmin Hop.
  pose proof (setter_ok T op t h Hmin Hop) as Hok.
  pose proof (value_ok_no_overflow T _ ltac:(lia) Hok) as Hw.
  unfold period, frequency. rewrite Hw. repeat split.
  - rewrite H. rewrite Hw. reflexivity.
  - rewrite H. rewrite Hw. reflexivity.
Qed.

Lemma views_derived_from_value_witness :
  period (teensy 15)
    (fst (set_value (teensy 15) 47999 (idle 0 0) hw0)) =
  fdiv (int_to_float 48000) (int_to_float 48000000).
Proof.
  refine (proj1 (views_derived_from_value (teensy 15) (set_value (teensy 15) 47999) _ _ _ _)).
  - unfold UINT32_MAX; simpl; lia.
  - apply setter_value. unfold UINT32_MAX; lia.
Defined.

(** ** Start, stop and reset *)

(** C8: [start(cb)] stores the callback and sets the running flag, also
    when the timer is already running (the new callback replaces the
    old one); [stop()] clears the flag, also when it is already
    clear. *)
Theorem start_stop_running (T : Target) (cb cb' : fnptr) (t : PITimer) (h h' h'' : Hw) :
  myISR (fst (start T cb t h)) = cb /\
  running (fst (start T cb t h)) = true /\
  myISR (fst (start T cb' (fst (start T cb t h)) h')) = cb' /\
  running (fst (start T cb' (fst (start T cb t h)) h')) = true /\
  running (fst (stop T t h)) = false /\
  running (fst (stop T (fst (start T cb t h)) h')) = false /\
  running (fst (stop T (fst (stop T t h)) h'')) = false /\
  fst (stop T (fst (stop T t h)) h'') = fst (stop T t h).
Proof. repeat split. Qed.

(** [start] arms a channel from 0 to 3: it stores 3 (timer and interrupt
    enabled) into the control register and then enables the interrupt
    vector. *)
Lemma start_bus (T : Target) (cb : fnptr) (t : PITimer) (h : Hw) :
  0 <= myID t <= 3 ->
  bus (snd (start T cb t h)) =
  bus h ++ [Store (PIT_TCTRL (myID t)) 3; NVIC_ENABLE_IRQ (IRQ_PIT_CH T (myID t))].
Proof.
  intros Hid. unfold start. cbn [fst snd myID with_myISR with_isRunning].
  destruct (myID t =? 0) eqn:E0; [apply Z.eqb_eq in E0; rewrite E0; cbn; now rewrite <- app_assoc|].
  destruct (myID t =? 1) eqn:E1; [apply Z.eqb_eq in E1; rewrite E1; cbn; now rewrite <- app_assoc|].
  destruct (myID t =? 2) eqn:E2; [apply Z.eqb_eq in E2; rewrite E2; cbn; now rewrite <- app_assoc|].
  destruct (myID t =? 3) eqn:E3; [apply Z.eqb_eq in E3; rewrite E3; cbn; now rewrite <- app_assoc|].
  lia.
Qed.

Lemma start_bus_witness :
  bus (snd (start (teensy 15) 4096 (idle 1 48000000) hw0)) =
  [Store (PIT_TCTRL 1) 3; NVIC_ENABLE_IRQ 31].
Proof.
  apply (start_bus (teensy 15) 4096 (idle 1 48000000) hw0). cbn. lia.
Defined.

(** [stop] disarms a channel from 0 to 3: it disables the interrupt
    vector and then stores 0 into the control register. *)
Lemma stop_bus (T : Target) (t : PITimer) (h : Hw) :
  0 <= myID t <= 3 ->
  bus (snd (stop T t h)) =
  bus h ++ [NVIC_DISABLE_IRQ (IRQ_PIT_CH T (myID t)); Store (PIT_TCTRL (myID t)) 0].
Proof.
  intros Hid. unfold stop. cbn [fst snd myID with_isRunning].
  destruct (myID t =? 0) eqn:E0; [apply Z.eqb_eq in E0; rewrite E0; cbn; now rewrite <- app_assoc|].
  destruct (myID t =? 1) eqn:E1; [apply Z.eqb_eq in E1; rewrite E1; cbn; now rewrite <- app_assoc|].
  destruct (myID t =? 2) eqn:E2; [apply Z.eqb_eq in E2; rewrite E2; cbn; now rewrite <- app_assoc|].
  destruct (myID t =? 3) eqn:E3; [apply Z.eqb_eq in E3; rewrite E3; cbn; now rewrite <- app_assoc|].
  lia.
Qed.

Lemma stop_bus_witness :
  bus (snd (stop (teensy 15) (idle 1 48000000) hw0)) =
  [NVIC_DISABLE_IRQ 31; Store (PIT_TCTRL 1) 0].
Proof.
  apply (stop_bus (teensy 15) (idle 1 48000000) hw0). cbn. lia.
Defined.

(** C9: [reset()] returns the object as it was (running flag, reload
    value and callback included), in either state and for every
    identifier; on the hardware it stores 1 and then 3 into the control
    register of the channel, touches no other register and no interrupt
    vector. *)
Theorem reset_frame (t : PITimer) (h : Hw) :
  fst (reset t h) = t /\
  isRunning (fst (reset t h)) = isRunning t /\
  myValue (fst (reset t h)) = myValue t /\
  myISR (fst (reset t h)) = myISR t /\
  bus (snd (reset t h)) =
    bus h ++ (if (0 <=? myID t) && (myID t <=? 3)
              then [Store (PIT_TCTRL (myID t)) 1; Store (PIT_TCTRL (myID t)) 3]
              else []) /\
  (forall i, irq_on (snd (reset t h)) i = irq_on h i) /\
  (forall r, r <> PIT_TCTRL (myID t) -> reg_val (snd (reset t h)) r = reg_val h r).
Proof.
  unfold reset. cbn [fst snd]. repeat split.
  - destruct (Z.eqb_spec (myID t) 0) as [->|N0]; [cbn; now rewrite <- app_assoc|].
    destruct (Z.eqb_spec (myID t) 1) as [->|N1]; [cbn; now rewrite <- app_assoc|].
    destruct (Z.eqb_spec (myID t) 2) as [->|N2]; [cbn; now rewrite <- app_assoc|].
    destruct (Z.eqb_spec (myID t) 3) as [->|N3]; [cbn; now rewrite <- app_assoc|].
    replace ((0 <=? myID t) && (myID t <=? 3)) with false; [now rewrite app_nil_r|].
    symmetry. apply andb_false_iff.
    destruct (Z.leb_spec 0 (myID t)); [right; apply Z.leb_gt; lia | now left].
  - intros i.
    destruct (myID t =? 0); [reflexivity|]. destruct (myID t =? 1); [reflexivity|].
    destruct (myID t =? 2); [reflexivity|]. destruct (myID t =? 3); reflexivity.
  - intros r Hr.
    assert (Hreg : forall n, myID t = n -> reg_eqb r (PIT_TCTRL n) = false).
    { intros n <-. destruct r; try reflexivity. cbn. apply Z.eqb_neq. congruence. }
    destruct (Z.eqb_spec (myID t) 0) as [E|_]; [cbn; now rewrite (Hreg 0 E)|].
    destruct (Z.eqb_spec (myID t) 1) as [E|_]; [cbn; now rewrite (Hreg 1 E)|].
    destruct (Z.eqb_spec (myID t) 2) as [E|_]; [cbn; now rewrite (Hreg 2 E)|].
    destruct (Z.eqb_spec (myID t) 3) as [E|_]; [cbn; now rewrite (Hreg 3 E)|].
    reflexivity.
Qed.

(** ** Interrupt dispatch *)

Lemma ldiff_1_bit0 (a : Z) : Z.testbit (Z.ldiff a 1) 0 = false.
Proof.
  rewrite Z.ldiff_spec by lia. change (Z.testbit 1 0) with true.
  apply andb_false_r.
Qed.

Lemma store_flag_acknowledges (n : Z) (h : Hw) :
  pending n (store (PIT_TFLG n) 1 h) = false /\
  bus (store (PIT_TFLG n) 1 h) = bus h ++ [Store (PIT_TFLG n) 1].
Proof.
  unfold pending, store. cbn [reg_val bus reg_eqb]. rewrite Z.eqb_refl.
  split; [apply ldiff_1_bit0 | reflexivity].
Qed.

Lemma clear_acknowledges (t : PITimer) (h : Hw) :
  0 <= myID t <= 3 ->
  fst (clear t h) = t /\
  pending (myID t) (snd (clear t h)) = false /\
  bus (snd (clear t h)) = bus h ++ [Store (PIT_TFLG (myID t)) 1].
Proof.
  intros Hid. unfold clear. cbn [fst snd]. split; [reflexivity|].
  destruct (Z.eqb_spec (myID t) 0) as [->|N0]; [apply store_flag_acknowledges|].
  destruct (Z.eqb_spec (myID t) 1) as [->|N1]; [apply store_flag_acknowledges|].
  destruct (Z.eqb_spec (myID t) 2) as [->|N2]; [apply store_flag_acknowledges|].
  destruct (Z.eqb_spec (myID t) 3) as [->|N3]; [apply store_flag_acknowledges|].
  lia.
Qed.

(** C3: for each of the three channels the interrupt service routine
    first runs [clear()] of the channel's object and then calls the
    callback registered at that moment: the callback starts from the
    system [clear()] left behind, in which the flag store is the latest
    bus access and the channel's interrupt is no longer pending. *)
Theorem isr_clears_before_callback
    (code : fnptr -> option (System -> System)) (n : Z) (s : System)
    (body : System -> System) :
  0 <= n <= 2 ->
  ids_ok s ->
  code (myISR (timer_of n s)) = Some body ->
  pit_isr code n s = Some (body (clear_n n s)) /\
  bus (hw (clear_n n s)) = bus (hw s) ++ [Store (PIT_TFLG n) 1] /\
  pending n (hw (clear_n n s)) = false /\
  timer_of n (clear_n n s) = timer_of n s.
Proof.
  intros Hn (I0 & I1 & I2) Hcode.
  unfold pit_isr, clear_n, timer_of in *.
  destruct (Z.eqb_spec n 0) as [->|N0].
  { pose proof (clear_acknowledges (PITimer0 s) (hw s) ltac:(lia)) as (Ht & Hp & Hb).
    unfold pit0_isr, clear0, call.
    destruct (clear (PITimer0 s) (hw s)) as [t' h'] eqn:E. cbn [fst snd] in *.
    subst t'. rewrite I0 in Hp, Hb. cbn. rewrite Hcode. auto. }
  destruct (Z.eqb_spec n 1) as [->|N1].
  { pose proof (clear_acknowledges (PITimer1 s) (hw s) ltac:(lia)) as (Ht & Hp & Hb).
    unfold pit1_isr, clear1, call.
    destruct (clear (PITimer1 s) (hw s)) as [t' h'] eqn:E. cbn [fst snd] in *.
    subst t'. rewrite I1 in Hp, Hb. cbn. rewrite Hcode. auto. }
  assert (n = 2) as -> by lia.
  pose proof (clear_acknowledges (PITimer2 s) (hw s) ltac:(lia)) as (Ht & Hp & Hb).
  unfold pit2_isr, clear2, call.
  destruct (clear (PITimer2 s) (hw s)) as [t' h'] eqn:E. cbn [fst snd] in *.
  subst t'. rewrite I2 in Hp, Hb. cbn. rewrite Hcode. auto.
Qed.

Lemma isr_clears_before_callback_witness :
  pit_isr code1 1 system1 = Some (restart2 (clear_n 1 system1)).
Proof.
  refine (proj1 (isr_clears_before_callback code1 1 system1 restart2 _ _ _)).
  - lia.
  - repeat split.
  - reflexivity.
Defined.

(** The constructors give the three objects their identifiers. *)
Lemma boot_ids_ok (T : Target) (h : Hw) : ids_ok (boot T h).
Proof. repeat split. Qed.

(** ** Floating-point arithmetic

    What the driver's conversions need of [SpecFloat]: the error of a
    rounded product and quotient, and the exactness of sums,
    differences and conversions of numbers the format holds. *)

(** *** Powers of two *)

Lemma inject_Z_pos_ge1 p : (1 <= inject_Z (Zpos p))%Q.
Proof. change 1%Q with (inject_Z 1). rewrite <- Zle_Qle. lia. Qed.

Lemma inject_Z_pos_gt0 p : (0 < inject_Z (Zpos p))%Q.
Proof. pose proof (inject_Z_pos_ge1 p). lra. Qed.

Lemma bpow_pos e : (0 < bpow e)%Q.
Proof. apply Qpower_0_lt. reflexivity. Qed.

Lemma bpow_add a b : (bpow (a + b) == bpow a * bpow b)%Q.
Proof. apply Qpower_plus. discriminate. Qed.

Lemma bpow_0 : (bpow 0 == 1)%Q.
Proof. reflexivity. Qed.

Lemma bpow_1 : (bpow 1 == 2)%Q.
Proof. reflexivity. Qed.

Lemma bpow_m1 : (bpow (-1) == 1 # 2)%Q.
Proof. reflexivity. Qed.

Lemma bpow_succ a : (bpow (a + 1) == 2 * bpow a)%Q.
Proof. rewrite bpow_add, bpow_1. ring. Qed.

Lemma bpow_pred a : (bpow (a - 1) == bpow a * (1 # 2))%Q.
Proof.
  replace a with ((a - 1) + 1) at 2 by lia. rewrite bpow_succ. lra.
Qed.

Lemma bpow_Z n : 0 <= n -> (bpow n == inject_Z (2 ^ n))%Q.
Proof. intros H. unfold bpow. rewrite Zpower_Qpower by assumption. reflexivity. Qed.

Lemma bpow_le a b : a <= b -> (bpow a <= bpow b)%Q.
Proof.
  intros H. apply Qpower_le_compat_l; [assumption | discriminate].
Qed.

Lemma bpow_lt a b : a < b -> (bpow a < bpow b)%Q.
Proof.
  intros H. apply Qpower_lt_compat_l; [assumption | reflexivity].
Qed.

Lemma bpow_lt_inv a b : (bpow a < bpow b)%Q -> a < b.
Proof.
  intros H. destruct (Z_lt_le_dec a b) as [|Hle]; [assumption|].
  apply bpow_le in Hle. exfalso. lra.
Qed.

(** *** The number of binary digits *)

(** A positive number of [d] digits lies between [2^(d-1)] and [2^d]. *)
Lemma digits2_pos_bounds p :
  2 ^ (Zpos (digits2_pos p) - 1) <= Zpos p < 2 ^ Zpos (digits2_pos p).
Proof.
  induction p as [p IH | p IH |]; cbn [digits2_pos].
  - rewrite Pos2Z.inj_succ.
    replace (Z.succ (Zpos (digits2_pos p)) - 1) with ((Zpos (digits2_pos p) - 1) + 1) by lia.
    rewrite Z.pow_succ_r by lia. rewrite Z.pow_add_r by lia. lia.
  - rewrite Pos2Z.inj_succ.
    replace (Z.succ (Zpos (digits2_pos p)) - 1) with ((Zpos (digits2_pos p) - 1) + 1) by lia.
    rewrite Z.pow_succ_r by lia. rewrite Z.pow_add_r by lia. lia.
  - cbn. lia.
Qed.

Lemma Zdigits2_bounds m :
  0 < m -> 2 ^ (Zdigits2 m - 1) <= m < 2 ^ Zdigits2 m.
Proof.
  destruct m as [|p|p]; try lia. intros _. apply digits2_pos_bounds.
Qed.

Lemma Zdigits2_nonneg m : 0 <= Zdigits2 m.
Proof. destruct m; cbn; lia. Qed.

Lemma Zdigits2_pos m : 0 < m -> 0 < Zdigits2 m.
Proof. destruct m; cbn; lia. Qed.

Lemma Zdigits2_unique m d :
  2 ^ (d - 1) <= m < 2 ^ d -> 0 < m -> Zdigits2 m = d.
Proof.
  intros H Hm. pose proof (Zdigits2_bounds m Hm) as B.
  pose proof (Zdigits2_pos m Hm).
  assert (0 < d).
  { destruct (Z_lt_le_dec 0 d); [assumption|].
    assert (2 ^ d <= 2 ^ 0) by (apply Z.pow_le_mono_r; lia). cbn in *. lia. }
  destruct (Z.lt_trichotomy (Zdigits2 m) d) as [L | [E | G]]; [|assumption|].
  - assert (2 ^ Zdigits2 m <= 2 ^ (d - 1)) by (apply Z.pow_le_mono_r; lia). lia.
  - assert (2 ^ d <= 2 ^ (Zdigits2 m - 1)) by (apply Z.pow_le_mono_r; lia). lia.
Qed.

Lemma Zdigits2_le m d : 0 <= m < 2 ^ d -> 0 <= d -> Zdigits2 m <= d.
Proof.
  intros H Hd. destruct (Z.eq_dec m 0) as [->|]; [cbn; lia|].
  pose proof (Zdigits2_bounds m ltac:(lia)) as B.
  destruct (Z_lt_le_dec d (Zdigits2 m)); [|assumption].
  assert (2 ^ d <= 2 ^ (Zdigits2 m - 1)) by (apply Z.pow_le_mono_r; lia). lia.
Qed.

Lemma Zdigits2_ge m d : 2 ^ (d - 1) <= m -> 0 < d -> d <= Zdigits2 m.
Proof.
  intros H Hd.
  assert (0 < m) by (pose proof (Z.pow_pos_nonneg 2 (d - 1)); lia).
  pose proof (Zdigits2_bounds m ltac:(lia)) as B.
  destruct (Z_lt_le_dec (Zdigits2 m) d); [|assumption].
  assert (2 ^ Zdigits2 m <= 2 ^ (d - 1)) by (apply Z.pow_le_mono_r; [lia|]; pose proof (Zdigits2_pos m); lia). lia.
Qed.

(* shr *)

(** *** Shifting a mantissa right, with its round and sticky bits *)

Lemma inject_Z_xO p : (inject_Z (Zpos p~0) == 2 * inject_Z (Zpos p))%Q.
Proof. change (Zpos p~0) with (2 * Zpos p). rewrite inject_Z_mult. reflexivity. Qed.

Lemma inject_Z_xI p : (inject_Z (Zpos p~1) == 2 * inject_Z (Zpos p) + 1)%Q.
Proof.
  change (Zpos p~1) with (2 * Zpos p + 1). rewrite inject_Z_plus, inject_Z_mult. reflexivity.
Qed.

(** One shift halves the located number. *)
Lemma shr_1_loc mrs y :
  0 <= shr_m mrs -> rec_loc mrs y ->
  rec_loc (shr_1 mrs) (y * (1 # 2)) /\ 0 <= shr_m (shr_1 mrs).
Proof.
  destruct mrs as [m r s]. unfold rec_loc. cbn [shr_m shr_r shr_s].
  intros Hm H. destruct m as [|[p|p|]|p]; try lia; cbn [shr_1 shr_m shr_r shr_s].
  - change (inject_Z 0) with 0%Q in *.
    destruct r, s; cbn [orb]; split; try lia; lra.
  - pose proof (inject_Z_xI p). 
    destruct r, s; cbn [orb]; split; try lia; lra.
  - pose proof (inject_Z_xO p).
    destruct r, s; cbn [orb]; split; try lia; lra.
  - change (inject_Z 1) with 1%Q in H. change (inject_Z 0) with 0%Q.
    destruct r, s; cbn [orb]; split; try lia; lra.
Qed.

Lemma rec_loc_ext mrs y y' : (y == y')%Q -> rec_loc mrs y -> rec_loc mrs y'.
Proof.
  unfold rec_loc. intros E. destruct (shr_r mrs), (shr_s mrs); intros H; lra.
Qed.

Lemma shr_1_div mrs : 0 <= shr_m mrs -> shr_m (shr_1 mrs) = shr_m mrs / 2.
Proof.
  destruct mrs as [m r s]. cbn [shr_m]. intros Hm.
  destruct m as [|[p|p|]|p]; try lia; cbn [shr_1 shr_m].
  all: rewrite <- Z.div2_div; reflexivity.
Qed.

(** [n] shifts divide the located number by [2^n]; the mantissa is the
    integer quotient. *)
Lemma iter_shr_loc n : forall mrs y,
  0 <= shr_m mrs -> rec_loc mrs y ->
  rec_loc (iter_pos shr_1 n mrs) (y * bpow (- Zpos n)) /\
  0 <= shr_m (iter_pos shr_1 n mrs) /\
  shr_m (iter_pos shr_1 n mrs) = shr_m mrs / 2 ^ Zpos n.
Proof.
  induction n as [n IH | n IH |]; intros mrs y Hm H; cbn [iter_pos].
  - destruct (shr_1_loc mrs y Hm H) as (H1 & Hm1).
    destruct (IH _ _ Hm1 H1) as (H2 & Hm2 & E2).
    destruct (IH _ _ Hm2 H2) as (H3 & Hm3 & E3).
    split; [|split; [assumption|]].
    + refine (rec_loc_ext _ _ _ _ H3).
      replace (- Zpos n~1) with ((- Zpos n) + (- Zpos n) + (-1)) by lia.
      rewrite !bpow_add, bpow_m1. ring.
    + rewrite E3, E2, shr_1_div by assumption.
      rewrite !Z.div_div by lia. f_equal.
      replace (Zpos n~1) with (1 + Zpos n + Zpos n) by lia. rewrite !Z.pow_add_r by lia. lia.
  - destruct (IH _ _ Hm H) as (H2 & Hm2 & E2).
    destruct (IH _ _ Hm2 H2) as (H3 & Hm3 & E3).
    split; [|split; [assumption|]].
    + refine (rec_loc_ext _ _ _ _ H3).
      replace (- Zpos n~0) with ((- Zpos n) + (- Zpos n)) by lia.
      rewrite !bpow_add. ring.
    + rewrite E3, E2. rewrite !Z.div_div by lia. f_equal.
      replace (Zpos n~0) with (Zpos n + Zpos n) by lia. rewrite !Z.pow_add_r by lia. lia.
  - destruct (shr_1_loc mrs y Hm H) as (H1 & Hm1).
    split; [|split; [assumption|]].
    + refine (rec_loc_ext _ _ _ _ H1). reflexivity.
    + rewrite shr_1_div by assumption. reflexivity.
Qed.

Lemma shr_record_of_loc_m m l : shr_m (shr_record_of_loc m l) = m.
Proof. destruct l as [|[| |]]; reflexivity. Qed.

(** Rounding a located number to the nearest integer, ties to even. *)
Lemma rec_loc_ge mrs y : rec_loc mrs y -> (inject_Z (shr_m mrs) <= y)%Q.
Proof.
  destruct mrs as [m r s]. unfold rec_loc. cbn [shr_m shr_r shr_s].
  destruct r, s; lra.
Qed.

Lemma round_nearest_even_loc mrs y :
  rec_loc mrs y ->
  let m1 := round_nearest_even (shr_m mrs) (loc_of_shr_record mrs) in
  (Qabs (inject_Z m1 - y) <= 1 # 2)%Q /\
  shr_m mrs <= m1 <= shr_m mrs + 1 /\
  ((exists k, y == inject_Z k)%Q -> (inject_Z m1 == y)%Q) /\
  (m1 = 0 -> (y <= 1 # 2)%Q).
Proof.
  destruct mrs as [m r s]. unfold rec_loc. cbn [shr_m shr_r shr_s loc_of_shr_record].
  intros H.
  assert (Hint : forall k, (y == inject_Z k)%Q ->
                           (inject_Z m <= y < inject_Z m + 1)%Q -> (y == inject_Z m)%Q).
  { intros k E B. rewrite E in *. 
    assert (m <= k) by (rewrite Zle_Qle; lra).
    assert (k < m + 1).
    { rewrite Zlt_Qlt, inject_Z_plus. change (inject_Z 1) with 1%Q. lra. }
    replace k with m by lia. reflexivity. }
  destruct r, s; cbn [round_nearest_even].
  - rewrite inject_Z_plus. change (inject_Z 1) with 1%Q.
    repeat split; try lia.
    + apply Qabs_Qle_condition. lra.
    + intros [k E]. specialize (Hint k E). lra.
    + intros E. assert (inject_Z (m + 1) == 0)%Q by (rewrite E; reflexivity).
      rewrite inject_Z_plus in *. change (inject_Z 1) with 1%Q in *. lra.
  - destruct (Z.even m); rewrite ?inject_Z_plus; change (inject_Z 1) with 1%Q;
      repeat split; try lia; try (apply Qabs_Qle_condition; lra).
    + intros [k E]. specialize (Hint k E). lra.
    + intros E. rewrite E in *. change (inject_Z 0) with 0%Q in *. lra.
    + intros [k E]. specialize (Hint k E). lra.
    + intros E. assert (inject_Z (m + 1) == 0)%Q by (rewrite E; reflexivity).
      rewrite inject_Z_plus in *. change (inject_Z 1) with 1%Q in *. lra.
  - repeat split; try lia.
    + apply Qabs_Qle_condition. lra.
    + intros [k E]. specialize (Hint k E). lra.
    + intros E. rewrite E in *. change (inject_Z 0) with 0%Q in *. lra.
  - repeat split; try lia.
    + apply Qabs_Qle_condition. lra.
    + intros _. lra.
    + intros E. rewrite E in *. change (inject_Z 0) with 0%Q in *. lra.
Qed.

Lemma div_pow2_lt m d n : 0 <= m < 2 ^ d -> 0 <= n <= d -> m / 2 ^ n < 2 ^ (d - n).
Proof.
  intros Hm Hn. apply Z.div_lt_upper_bound; [apply Z.pow_pos_nonneg; lia|].
  rewrite <- Z.pow_add_r by lia. replace (n + (d - n)) with d by lia. lia.
Qed.

Lemma div_pow2_ge m d n : 2 ^ (d - 1) <= m -> 0 <= n < d -> 2 ^ (d - 1 - n) <= m / 2 ^ n.
Proof.
  intros Hm Hn. apply Z.div_le_lower_bound; [apply Z.pow_pos_nonneg; lia|].
  rewrite <- Z.pow_add_r by lia. replace (n + (d - 1 - n)) with (d - 1) by lia. lia.
Qed.

Lemma div_pow2_small m d n : 0 <= m < 2 ^ d -> 0 <= d <= n -> m / 2 ^ n = 0.
Proof.
  intros Hm Hn. apply Z.div_small. split; [lia|].
  assert (2 ^ d <= 2 ^ n) by (apply Z.pow_le_mono_r; lia). lia.
Qed.

Section Rounding.

Variables prec emax : Z.
Hypothesis prec_pos : 0 < prec.


Lemma fexp_ge_emin e : (emin prec emax) <= (fexp prec emax) e.
Proof. unfold SpecFloat.fexp. lia. Qed.

Lemma fexp_mono a b : a <= b -> (fexp prec emax) a <= (fexp prec emax) b.
Proof. unfold SpecFloat.fexp. lia. Qed.

(** The first step of [binary_round_aux]: the mantissa is shifted to the
    exponent the format gives the number, unless its own exponent is
    already larger. *)
Lemma shr_fexp_spec mx ex lx y :
  0 <= mx -> rec_loc (shr_record_of_loc mx lx) y ->
  exists mrs' e',
    shr_fexp prec emax mx ex lx = (mrs', e') /\
    e' = Z.max ex ((fexp prec emax) (Zdigits2 mx + ex)) /\
    0 <= shr_m mrs' /\
    rec_loc mrs' (y * bpow (ex - e')) /\
    shr_m mrs' = mx / 2 ^ (e' - ex).
Proof.
  intros Hm H. unfold shr_fexp, shr.
  set (f := (fexp prec emax) (Zdigits2 mx + ex)).
  destruct (f - ex) as [|n|n] eqn:En.
  - exists (shr_record_of_loc mx lx), ex.
    replace (Z.max ex f) with ex by lia. rewrite Z.sub_diag, shr_record_of_loc_m.
    repeat split; try lia.
    + refine (rec_loc_ext _ _ _ _ H). rewrite bpow_0. ring.
    + rewrite Z.pow_0_r, Z.div_1_r. reflexivity.
  - rewrite <- (shr_record_of_loc_m mx lx) in Hm.
    destruct (iter_shr_loc n _ _ Hm H) as (H1 & Hm1 & E1).
    exists (iter_pos shr_1 n (shr_record_of_loc mx lx)), (ex + Zpos n).
    replace (Z.max ex f) with (ex + Zpos n) by lia.
    repeat split; try lia.
    + refine (rec_loc_ext _ _ _ _ H1). replace (ex - (ex + Zpos n)) with (- Zpos n) by lia.
      reflexivity.
    + rewrite E1, shr_record_of_loc_m. f_equal. f_equal. lia.
  - exists (shr_record_of_loc mx lx), ex.
    replace (Z.max ex f) with ex by lia. rewrite Z.sub_diag, shr_record_of_loc_m.
    repeat split; try lia.
    + refine (rec_loc_ext _ _ _ _ H). rewrite bpow_0. ring.
    + rewrite Z.pow_0_r, Z.div_1_r. reflexivity.
Qed.

(** After the first shift the mantissa fits the precision. *)
Lemma shifted_mantissa_bounds mx ex :
  0 <= mx ->
  let e' := Z.max ex ((fexp prec emax) (Zdigits2 mx + ex)) in
  let m' := mx / 2 ^ (e' - ex) in
  0 <= m' < 2 ^ prec /\ (emin prec emax) <= e' /\
  (ex <= (fexp prec emax) (Zdigits2 mx + ex) -> e' = (emin prec emax) \/ 2 ^ (prec - 1) <= m') /\
  (m' = 0 -> 0 < mx \/ ex <= (fexp prec emax) (Zdigits2 mx + ex) -> e' = (emin prec emax)).
Proof.
  intros Hm e' m'.
  pose proof (fexp_ge_emin (Zdigits2 mx + ex)) as Hf.
  pose proof (Zdigits2_nonneg mx) as Hd.
  assert (Hpow : 0 < 2 ^ (e' - ex)) by (apply Z.pow_pos_nonneg; lia).
  assert (Hm' : 0 <= m') by (apply Z.div_pos; lia).
  destruct (Z.eq_dec mx 0) as [->|Hnz].
  { subst m'. rewrite Z.div_0_l by lia. cbn [Zdigits2] in *.
    assert (0 < 2 ^ prec) by (apply Z.pow_pos_nonneg; lia).
    repeat split; try lia; unfold SpecFloat.fexp in *; intros; lia. }
  pose proof (Zdigits2_bounds mx ltac:(lia)) as B.
  pose proof (Zdigits2_pos mx ltac:(lia)) as Hdp.
  set (d := Zdigits2 mx) in *.
  assert (Hfd : (fexp prec emax) (d + ex) = Z.max (d + ex - prec) (emin prec emax)) by reflexivity.
  assert (Hlt : m' < 2 ^ prec).
  { destruct (Z_lt_le_dec d (e' - ex)) as [Hbig|Hsmall].
    - subst m'. rewrite (div_pow2_small mx d) by lia. apply Z.pow_pos_nonneg; lia.
    - assert (m' < 2 ^ (d - (e' - ex))) by (apply div_pow2_lt; lia).
      assert (2 ^ (d - (e' - ex)) <= 2 ^ prec) by (apply Z.pow_le_mono_r; lia).
      lia. }
  repeat split; try lia.
  - intros Hshift.
    destruct (Z.eq_dec e' (emin prec emax)) as [|Hne]; [left; assumption|right].
    assert (e' = d + ex - prec) by lia.
    replace (prec - 1) with (d - 1 - (e' - ex)) by lia.
    apply div_pow2_ge; lia.
  - intros Hz _.
    destruct (Z_lt_le_dec d (e' - ex)) as [Hbig|Hsmall]; [lia|].
    destruct (Z.eq_dec (e' - ex) d) as [Heq|Hneq]; [lia|].
    assert (2 ^ (d - 1 - (e' - ex)) <= m') by (apply div_pow2_ge; lia).
    assert (0 < 2 ^ (d - 1 - (e' - ex))) by (apply Z.pow_pos_nonneg; lia).
    lia.
Qed.

Lemma pow2_prec : 2 ^ prec = 2 * 2 ^ (prec - 1) /\ 0 < 2 ^ (prec - 1).
Proof.
  split; [|apply Z.pow_pos_nonneg; lia].
  rewrite <- Z.pow_succ_r by lia. f_equal. lia.
Qed.

Lemma Zdigits2_pow2 n : 0 <= n -> Zdigits2 (2 ^ n) = n + 1.
Proof.
  intros Hn. apply Zdigits2_unique.
  - replace (n + 1 - 1) with n by lia. rewrite Z.pow_add_r by lia. lia.
  - apply Z.pow_pos_nonneg; lia.
Qed.

(** The second normalisation step of [binary_round_aux]: a rounded
    mantissa that reached [2^prec] is halved, any other is kept. *)
Lemma shr_fexp_rounded m1 e' :
  0 <= m1 <= 2 ^ prec -> emin prec emax <= e' ->
  exists mrs e,
    shr_fexp prec emax m1 e' loc_Exact = (mrs, e) /\
    ((m1 < 2 ^ prec /\ shr_m mrs = m1 /\ e = e') \/
     (m1 = 2 ^ prec /\ shr_m mrs = 2 ^ (prec - 1) /\ e = e' + 1)).
Proof.
  intros Hm He. unfold shr_fexp, shr.
  destruct (Z.eq_dec m1 (2 ^ prec)) as [->|Hne].
  - rewrite Zdigits2_pow2 by lia.
    replace (fexp prec emax (prec + 1 + e') - e') with 1 by (unfold SpecFloat.fexp; lia).
    eexists _, _. split; [reflexivity|]. right.
    cbn [iter_pos shr_record_of_loc]. rewrite shr_1_div by (cbn; lia). cbn [shr_m].
    repeat split.
    destruct pow2_prec as (-> & _). rewrite Z.mul_comm. apply Z.div_mul. lia.
  - assert (Hd : Zdigits2 m1 <= prec) by (apply Zdigits2_le; lia).
    assert (Hn : fexp prec emax (Zdigits2 m1 + e') - e' <= 0) by (unfold SpecFloat.fexp; lia).
    destruct (fexp prec emax (Zdigits2 m1 + e') - e') as [|n|n]; try lia;
      (eexists _, _; split; [reflexivity|]; left; cbn; repeat split; lia).
Qed.

(** [binary_round_aux]: the result is built from a mantissa [m] below
    [2^prec] and an exponent [e]; [m * 2^e] is within half a unit of
    [e] of the number located, equal to it when the number is a
    multiple of the unit it is rounded to, and normalised whenever
    the input needed no left shift. *)
Lemma binary_round_aux_spec s mx ex lx y :
  0 <= mx -> rec_loc (shr_record_of_loc mx lx) y ->
  exists m e,
    binary_round_aux prec emax s mx ex lx = finish prec emax s m e /\
    0 <= m < 2 ^ prec /\ emin prec emax <= e /\
    (Qabs (inject_Z m * bpow e - y * bpow ex) <= bpow e * (1 # 2))%Q /\
    ((exists k, y * bpow ex ==
                inject_Z k * bpow (Z.max ex (fexp prec emax (Zdigits2 mx + ex))))%Q ->
     (inject_Z m * bpow e == y * bpow ex)%Q) /\
    (ex <= fexp prec emax (Zdigits2 mx + ex) ->
     e = emin prec emax \/ 2 ^ (prec - 1) <= m) /\
    (m = 0 -> 0 < mx \/ ex <= fexp prec emax (Zdigits2 mx + ex) ->
     (y * bpow ex <= bpow (emin prec emax - 1))%Q) /\
    (ex <= fexp prec emax (Zdigits2 mx + ex) -> emin prec emax < e ->
     m = 2 ^ (prec - 1) ->
     (inject_Z m * bpow e - y * bpow ex <= bpow e * (1 # 4))%Q).
Proof.
  intros Hmx Hy.
  destruct (shr_fexp_spec mx ex lx y Hmx Hy) as (mrs' & e' & E1 & He' & Hm' & Hloc & Hdiv).
  destruct (shifted_mantissa_bounds mx ex Hmx) as (Hb & Hemin & Hcanon & Hzero).
  rewrite <- He', <- Hdiv in *.
  destruct (round_nearest_even_loc mrs' _ Hloc) as (Habs & Hrange & Hexact & Hz1).
  set (m1 := round_nearest_even (shr_m mrs') (loc_of_shr_record mrs')) in *.
  destruct (shr_fexp_rounded m1 e' ltac:(lia) Hemin) as (mrs'' & e'' & E2 & Hcase).
  exists (shr_m mrs''), e''.
  assert (Hx : (y * bpow ex == y * bpow (ex - e') * bpow e')%Q).
  { rewrite <- Qmult_assoc, <- bpow_add. replace (ex - e' + e') with ex by lia. reflexivity. }
  set (y1 := (y * bpow (ex - e'))%Q) in *.
  pose proof (bpow_pos e') as Hp.
  assert (Hval : (inject_Z (shr_m mrs'') * bpow e'' == inject_Z m1 * bpow e')%Q /\ e' <= e'').
  { destruct Hcase as [(_ & -> & ->) | (-> & -> & ->)]; [split; [reflexivity|lia]|].
    split; [|lia]. rewrite bpow_succ.
    destruct pow2_prec as (-> & _). rewrite inject_Z_mult. change (inject_Z 2) with 2%Q. ring. }
  destruct Hval as (Hval & Hee).
  apply Qabs_Qle_condition in Habs.
  split.
  { unfold binary_round_aux. rewrite E1. fold m1. rewrite E2. reflexivity. }
  split; [destruct Hcase as [(? & -> & ->) | (-> & -> & ->)]; [lia|]|].
  { pose proof pow2_prec. lia. }
  split; [lia|].
  split.
  { rewrite Hval, Hx. apply Qabs_Qle_condition.
    pose proof (bpow_le e' e'' Hee). nra. }
  split.
  { intros [k Hk]. rewrite Hval, Hx. rewrite Hx in Hk.
    assert (y1 == inject_Z k)%Q.
    { apply (Qmult_inj_r _ _ (bpow e')); [lra | exact Hk]. }
    rewrite (Hexact (ex_intro _ k H)). reflexivity. }
  split.
  { intros Hshift. specialize (Hcanon Hshift).
    destruct Hcase as [(? & -> & ->) | (-> & -> & ->)]; [|right; lia].
    destruct Hcanon; [left; assumption | right; lia]. }
  split.
  { intros Hz Hpos.
    destruct Hcase as [(? & Hm & ->) | (-> & Hm & ->)].
    - rewrite Hz in Hm. symmetry in Hm. specialize (Hz1 Hm).
      assert (shr_m mrs' = 0) by lia.
      pose proof (Hzero H0 Hpos) as Hee'.
      rewrite Hx, <- Hee', bpow_pred. nra.
    - pose proof pow2_prec. lia. }
  intros Hshift Hgt Hm2. rewrite Hval, Hx.
  destruct Hcase as [(? & Hm & ->) | (Hm1 & Hm & ->)].
  - destruct (Hcanon Hshift) as [|Hnorm]; [lia|].
    pose proof (rec_loc_ge _ _ Hloc) as Hge.
    assert (Hle : (inject_Z m1 <= inject_Z (shr_m mrs'))%Q) by (rewrite <- Zle_Qle; lia).
    nra.
  - rewrite bpow_succ. nra.
Qed.

(** *** [finish] *)

(** Below the overflow threshold [finish] gives a finite datum with the
    value [m * 2^e]. *)
Lemma finish_value s m e x :
  0 <= m ->
  (Qabs (inject_Z m * bpow e - x) <= bpow e * (1 # 2))%Q ->
  (x < bpow (emax - prec))%Q ->
  is_finite (finish prec emax s m e) = true /\
  (SF2Q (finish prec emax s m e) == inject_Z (cond_Zopp s m) * bpow e)%Q /\
  (0 < m -> exists p, m = Zpos p /\ finish prec emax s m e = S754_finite s p e).
Proof.
  intros Hm Habs Hx. destruct m as [|p|p]; try lia.
  - split; [reflexivity|]. split; [|lia].
    destruct s; cbn [finish SF2Q cond_Zopp Z.opp]; change (inject_Z 0) with 0%Q; lra.
  - assert (He : e <= emax - prec).
    { destruct (Z_lt_le_dec (emax - prec) e) as [Hgt|]; [|assumption]. exfalso.
      apply Qabs_Qle_condition in Habs.
      pose proof (bpow_le (emax - prec + 1) e ltac:(lia)) as Hle.
      rewrite bpow_succ in Hle. pose proof (bpow_pos e). pose proof (bpow_pos (emax - prec)).
      pose proof (inject_Z_pos_ge1 p).
      nra. }
    unfold finish. apply Z.leb_le in He. rewrite He.
    repeat split. intros _. exists p. split; reflexivity.
Qed.

(** *** [shl_align] and [binary_round] *)

Lemma iter_xO mx d : Zpos (Pos.iter xO mx d) = Zpos mx * 2 ^ Zpos d.
Proof.
  induction d as [|d IH] using Pos.peano_ind.
  - cbn. lia.
  - rewrite Pos.iter_succ, Pos2Z.inj_succ, Z.pow_succ_r by lia.
    rewrite Pos2Z.inj_xO, IH. ring.
Qed.

Lemma shl_align_spec mx ex ex' :
  exists mz ez, shl_align mx ex ex' = (mz, ez) /\
    ez = Z.min ex ex' /\ Zpos mz = Zpos mx * 2 ^ (ex - ez).
Proof.
  unfold shl_align. destruct (ex' - ex) as [|d|d] eqn:E.
  - exists mx, ex. repeat split; try lia.
    replace (ex - ex) with 0 by lia. rewrite Z.pow_0_r. lia.
  - exists mx, ex. repeat split; try lia.
    replace (ex - ex) with 0 by lia. rewrite Z.pow_0_r. lia.
  - exists (Pos.iter xO mx d), ex'. repeat split; try lia.
    rewrite iter_xO. f_equal. f_equal. lia.
Qed.

Lemma shl_align_fst mx ex ez :
  ez <= ex -> Zpos (fst (shl_align mx ex ez)) = Zpos mx * 2 ^ (ex - ez).
Proof.
  intros H. destruct (shl_align_spec mx ex ez) as (mz & ez' & -> & E & Hm).
  cbn [fst]. rewrite Hm. f_equal. f_equal. lia.
Qed.

Lemma Zdigits2_shift m k : 0 < m -> 0 <= k -> Zdigits2 (m * 2 ^ k) = Zdigits2 m + k.
Proof.
  intros Hm Hk. pose proof (Zdigits2_bounds m Hm) as B.
  pose proof (Zdigits2_pos m Hm).
  assert (0 < 2 ^ k) by (apply Z.pow_pos_nonneg; lia).
  apply Zdigits2_unique; [|nia].
  replace (Zdigits2 m + k - 1) with ((Zdigits2 m - 1) + k) by lia.
  rewrite !Z.pow_add_r by lia. nia.
Qed.

Lemma inject_Z_shift m a b :
  b <= a -> (inject_Z (m * 2 ^ (a - b)) * bpow b == inject_Z m * bpow a)%Q.
Proof.
  intros H. rewrite inject_Z_mult, <- bpow_Z by lia.
  rewrite <- Qmult_assoc, <- bpow_add. replace (a - b + b) with a by lia. reflexivity.
Qed.

(** [binary_round]: as [binary_round_aux], after the mantissa has been
    aligned. *)
Lemma binary_round_spec s mx ex :
  exists m e,
    binary_round prec emax s mx ex = finish prec emax s m e /\
    0 <= m < 2 ^ prec /\ emin prec emax <= e /\
    (Qabs (inject_Z m * bpow e - inject_Z (Zpos mx) * bpow ex) <= bpow e * (1 # 2))%Q /\
    ((exists k, inject_Z (Zpos mx) * bpow ex ==
                inject_Z k * bpow (fexp prec emax (Zpos (digits2_pos mx) + ex)))%Q ->
     (inject_Z m * bpow e == inject_Z (Zpos mx) * bpow ex)%Q) /\
    (e = emin prec emax \/ 2 ^ (prec - 1) <= m) /\
    (m = 0 -> (inject_Z (Zpos mx) * bpow ex <= bpow (emin prec emax - 1))%Q).
Proof.
  unfold binary_round.
  set (f := fexp prec emax (Zpos (digits2_pos mx) + ex)).
  destruct (shl_align_spec mx ex f) as (mz & ez & -> & Hez & Hmz).
  assert (Hv : (inject_Z (Zpos mz) * bpow ez == inject_Z (Zpos mx) * bpow ex)%Q).
  { rewrite Hmz. apply inject_Z_shift. lia. }
  assert (Hd : Zdigits2 (Zpos mz) + ez = Zpos (digits2_pos mx) + ex).
  { rewrite Hmz, Zdigits2_shift by lia. cbn [Zdigits2]. lia. }
  destruct (binary_round_aux_spec s (Zpos mz) ez loc_Exact (inject_Z (Zpos mz)))
    as (m & e & E & Hm & He & Habs & Hex & Hcan & Hz & _); [lia | cbn; reflexivity |].
  rewrite Hd in *. fold f in Hex, Hcan.
  replace (Z.max ez f) with f in Hex by lia.
  exists m, e.
  split; [assumption|]. split; [assumption|]. split; [assumption|].
  split; [rewrite <- Hv; assumption|].
  split.
  { intros [k Hk]. rewrite <- Hv. apply Hex. exists k. rewrite Hv. exact Hk. }
  split; [apply Hcan; lia|].
  intros Hm0. rewrite <- Hv. apply Hz; [assumption | lia].
Qed.

(** A number below [2^g] that is a multiple of [2^j], with [j] not below
    the exponent the format gives to magnitude [g], is a number of the
    format: [binary_normalize] returns it unchanged. *)
Lemma digits_mag m e g :
  0 < m -> (inject_Z m * bpow e < bpow g)%Q -> Zdigits2 m + e <= g.
Proof.
  intros Hm H. pose proof (Zdigits2_bounds m Hm) as (B & _).
  pose proof (Zdigits2_pos m Hm) as Hd.
  destruct (Z_lt_le_dec g (Zdigits2 m + e)) as [Hlt|]; [exfalso|assumption].
  assert (Hle : (bpow g <= bpow (Zdigits2 m - 1 + e))%Q) by (apply bpow_le; lia).
  rewrite bpow_add, (bpow_Z (Zdigits2 m - 1)) in Hle by lia.
  assert (Hi : (inject_Z (2 ^ (Zdigits2 m - 1)) <= inject_Z m)%Q) by (rewrite <- Zle_Qle; lia).
  pose proof (bpow_pos e). nra.
Qed.

Lemma multiple_weaken x k j j' :
  (x == inject_Z k * bpow j)%Q -> j' <= j -> exists k', (x == inject_Z k' * bpow j')%Q.
Proof.
  intros H Hj. exists (k * 2 ^ (j - j')). rewrite H. symmetry. apply inject_Z_shift. lia.
Qed.

Lemma binary_normalize_exact m e szero g j k :
  (Qabs (inject_Z m * bpow e) < bpow g)%Q ->
  (inject_Z m * bpow e == inject_Z k * bpow j)%Q ->
  fexp prec emax g <= j ->
  g <= emax - prec ->
  is_finite (binary_normalize prec emax m e szero) = true /\
  (SF2Q (binary_normalize prec emax m e szero) == inject_Z m * bpow e)%Q.
Proof.
  intros Hg Hk Hj Hmax.
  assert (Hpos : forall s p, (inject_Z (Zpos p) * bpow e < bpow g)%Q ->
             (inject_Z (Zpos p) * bpow e == inject_Z (cond_Zopp s k) * bpow j)%Q ->
             is_finite (binary_round prec emax s p e) = true /\
             (SF2Q (binary_round prec emax s p e) ==
              inject_Z (cond_Zopp s (Zpos p)) * bpow e)%Q).
  { intros s p Hlt Hmul.
    destruct (binary_round_spec s p e) as (m' & e' & -> & Hm' & He' & Habs & Hex & _ & _).
    assert (Hd : Zpos (digits2_pos p) + e <= g) by (apply (digits_mag (Zpos p)); [lia|assumption]).
    assert (Hf : fexp prec emax (Zpos (digits2_pos p) + e) <= j).
    { pose proof (fexp_mono _ _ Hd). lia. }
    specialize (Hex (multiple_weaken _ _ _ _ Hmul Hf)).
    assert (Hlt' : (inject_Z (Zpos p) * bpow e < bpow (emax - prec))%Q).
    { pose proof (bpow_le g (emax - prec) Hmax). lra. }
    destruct (finish_value s m' e' _ (proj1 Hm') Habs Hlt') as (Hfin & Hval & _).
    split; [assumption|]. rewrite Hval.
    destruct s; cbn [cond_Zopp]; rewrite ?inject_Z_opp; lra. }
  destruct m as [|p|p]; cbn [binary_normalize].
  - split; [reflexivity|]. cbn [SF2Q]. change (inject_Z 0) with 0%Q. lra.
  - apply (Hpos false).
    + rewrite Qabs_pos in Hg; [assumption|].
      pose proof (bpow_pos e). pose proof (inject_Z_pos_gt0 p). nra.
    + exact Hk.
  - assert (E : (inject_Z (Zneg p) == - inject_Z (Zpos p))%Q).
    { rewrite <- inject_Z_opp. reflexivity. }
    destruct (Hpos true p) as (Hfin & Hval).
    + rewrite E in Hg. rewrite <- Qabs_opp in Hg.
      rewrite Qabs_pos in Hg; [lra|].
      pose proof (bpow_pos e). pose proof (inject_Z_pos_gt0 p). nra.
    + cbn [cond_Zopp]. rewrite inject_Z_opp. rewrite E in Hk. lra.
    + split; [assumption|]. rewrite Hval. cbn [cond_Zopp]. reflexivity.
Qed.

(** *** Multiplication *)

(** The product of two positive finite data that neither underflows to
    zero nor overflows: a positive finite datum within half a unit in
    the last place of the exact product, exact or normalised. *)
Lemma SFmul_pos mx ex my ey :
  (bpow (emin prec emax - 1) <
   (inject_Z (Zpos mx) * bpow ex) * (inject_Z (Zpos my) * bpow ey))%Q ->
  ((inject_Z (Zpos mx) * bpow ex) * (inject_Z (Zpos my) * bpow ey) <
   bpow (emax - prec))%Q ->
  exists m e,
    SFmul prec emax (S754_finite false mx ex) (S754_finite false my ey) =
      S754_finite false m e /\
    Zpos m < 2 ^ prec /\ emin prec emax <= e /\
    (Qabs (inject_Z (Zpos m) * bpow e -
           (inject_Z (Zpos mx) * bpow ex) * (inject_Z (Zpos my) * bpow ey))
     <= bpow e * (1 # 2))%Q /\
    ((inject_Z (Zpos m) * bpow e ==
      (inject_Z (Zpos mx) * bpow ex) * (inject_Z (Zpos my) * bpow ey))%Q \/
     e = emin prec emax \/ 2 ^ (prec - 1) <= Zpos m) /\
    (emin prec emax < e -> Zpos m = 2 ^ (prec - 1) ->
     (inject_Z (Zpos m) * bpow e -
      (inject_Z (Zpos mx) * bpow ex) * (inject_Z (Zpos my) * bpow ey)
      <= bpow e * (1 # 4))%Q).
Proof.
  intros Hlo Hhi. cbn [SFmul xorb].
  assert (Hv : (inject_Z (Zpos (mx * my)) * bpow (ex + ey) ==
                (inject_Z (Zpos mx) * bpow ex) * (inject_Z (Zpos my) * bpow ey))%Q).
  { rewrite Pos2Z.inj_mul, inject_Z_mult, bpow_add. ring. }
  destruct (binary_round_aux_spec false (Zpos (mx * my)) (ex + ey) loc_Exact
              (inject_Z (Zpos (mx * my))))
    as (m & e & E & Hm & He & Habs & Hex & Hcan & Hz & Hq); [lia | cbn; reflexivity |].
  rewrite Hv in Habs, Hz, Hq.
  destruct (finish_value false m e _ (proj1 Hm) Habs Hhi) as (_ & _ & Hfin).
  assert (Hmpos : 0 < m).
  { destruct (Z.eq_dec m 0) as [Hm0|]; [|lia]. specialize (Hz Hm0 ltac:(lia)). lra. }
  destruct (Hfin Hmpos) as (p & -> & Ep).
  exists p, e. rewrite E, Ep.
  split; [reflexivity|]. split; [lia|]. split; [assumption|]. split; [assumption|].
  destruct (Z_le_gt_dec (ex + ey) (fexp prec emax (Zdigits2 (Zpos (mx * my)) + (ex + ey))))
    as [Hshift|Hnoshift].
  - split; [right; apply Hcan; assumption|].
    apply Hq. assumption.
  - assert (Hexact : (inject_Z (Zpos p) * bpow e ==
                      inject_Z (Zpos mx) * bpow ex * (inject_Z (Zpos my) * bpow ey))%Q).
    { rewrite <- Hv. apply Hex. exists (Zpos (mx * my)).
      replace (Z.max _ _) with (ex + ey) by lia. reflexivity. }
    split; [left; exact Hexact|].
    intros _ _. pose proof (bpow_pos e). lra.
Qed.

(** *** Division *)

(** The location [SFdiv_core_binary] computes from divisor and
    remainder is that of the exact quotient. *)
Lemma new_location_loc n r q y :
  0 < n -> 0 <= r < n ->
  (y * inject_Z n == inject_Z q * inject_Z n + inject_Z r)%Q ->
  rec_loc (shr_record_of_loc q (new_location n r)) y.
Proof.
  intros Hn Hr Hy.
  assert (Hn' : (0 < inject_Z n)%Q) by (change 0%Q with (inject_Z 0); rewrite <- Zlt_Qlt; lia).
  assert (Hex : r = 0 -> rec_loc (shr_record_of_loc q loc_Exact) y).
  { intros ->. cbn. change (inject_Z 0) with 0%Q in Hy. nra. }
  assert (Hlt : r <> 0 -> 2 * r < n -> rec_loc (shr_record_of_loc q (loc_Inexact Lt)) y).
  { intros Hr0 L. cbn.
    assert (0 < inject_Z r)%Q by (change 0%Q with (inject_Z 0); rewrite <- Zlt_Qlt; lia).
    assert (2 * inject_Z r < inject_Z n)%Q.
    { change 2%Q with (inject_Z 2). rewrite <- inject_Z_mult, <- Zlt_Qlt. lia. }
    split; nra. }
  assert (Hgt : n < 2 * r -> rec_loc (shr_record_of_loc q (loc_Inexact Gt)) y).
  { intros G. cbn.
    assert (inject_Z n < 2 * inject_Z r)%Q.
    { change 2%Q with (inject_Z 2). rewrite <- inject_Z_mult, <- Zlt_Qlt. lia. }
    assert (inject_Z r < inject_Z n)%Q by (rewrite <- Zlt_Qlt; lia).
    split; nra. }
  assert (Heq : 2 * r = n -> rec_loc (shr_record_of_loc q (loc_Inexact Eq)) y).
  { intros E. cbn.
    assert (2 * inject_Z r == inject_Z n)%Q.
    { rewrite <- E, inject_Z_mult. reflexivity. }
    nra. }
  unfold new_location.
  destruct (Z.even n) eqn:Ev; unfold new_location_even, new_location_odd;
    destruct (Z.eqb_spec r 0) as [Hr0|Hr0]; auto.
  - destruct (Z.compare_spec (2 * r) n) as [E|L|G]; auto.
  - assert (Hodd : 2 * r <> n).
    { intros <-. rewrite Z.even_mul in Ev. discriminate. }
    destruct (Z.compare_spec (2 * r + 1) n) as [E|L|G]; [apply Hlt|apply Hlt|apply Hgt]; lia.
Qed.

(** The quotient of the mantissas has enough digits for the exponent
    [SFdiv_core_binary] gives it. *)
Lemma div_core_shift m1 e1 m2 e2 :
  0 < m1 -> 0 < m2 ->
  let e' := Z.min (fexp prec emax (Zdigits2 m1 + e1 - (Zdigits2 m2 + e2))) (e1 - e2) in
  let q := (m1 * 2 ^ (e1 - e2 - e')) / m2 in
  e' <= fexp prec emax (Zdigits2 q + e').
Proof.
  intros H1 H2 e' q.
  pose proof (Zdigits2_bounds m1 H1) as B1. pose proof (Zdigits2_bounds m2 H2) as B2.
  pose proof (Zdigits2_pos m1 H1) as P1. pose proof (Zdigits2_pos m2 H2) as P2.
  set (d1 := Zdigits2 m1) in *. set (d2 := Zdigits2 m2) in *.
  set (g := d1 + e1 - (d2 + e2)) in *.
  set (s := e1 - e2 - e').
  assert (Hs : 0 <= s) by lia.
  pose proof (fexp_ge_emin (Zdigits2 q + e')) as Hge.
  destruct (Z_lt_le_dec (d1 - 1 + s - d2) 0) as [Hneg|Hnn].
  - assert (e' <= emin prec emax); [|lia].
    assert (g <= e') by lia.
    assert (e' <= fexp prec emax g) by lia.
    unfold SpecFloat.fexp in *. lia.
  - assert (Hq : 2 ^ (d1 - 1 + s - d2) <= q).
    { apply Z.div_le_lower_bound; [lia|].
      assert (0 < 2 ^ (d1 - 1 + s - d2)) by (apply Z.pow_pos_nonneg; lia).
      assert (2 ^ (d1 - 1 + s - d2) * 2 ^ d2 = 2 ^ (d1 - 1) * 2 ^ s).
      { rewrite <- !Z.pow_add_r by lia. f_equal. lia. }
      assert (0 < 2 ^ s) by (apply Z.pow_pos_nonneg; lia).
      change (e1 - e2 - e') with s.
      apply Z.le_trans with (2 ^ d2 * 2 ^ (d1 - 1 + s - d2)); [nia|].
      rewrite (Z.mul_comm (2 ^ d2)), H0. nia. }
    assert (Hdq : d1 + s - d2 <= Zdigits2 q).
    { apply Zdigits2_ge; [|lia]. replace (d1 + s - d2 - 1) with (d1 - 1 + s - d2) by lia.
      assumption. }
    assert (fexp prec emax g <= fexp prec emax (Zdigits2 q + e')) by (apply fexp_mono; lia).
    lia.
Qed.

Lemma shift_match m s :
  0 <= s ->
  match s with
  | Zpos _ => Z.shiftl m s
  | Z0 => m
  | Zneg _ => 0
  end = m * 2 ^ s.
Proof.
  intros Hs. destruct s as [|p|p]; try lia.
  apply Z.shiftl_mul_pow2. lia.
Qed.

(** The quotient [z] of two positive finite data that neither
    underflows to zero nor overflows: a positive finite, normalised
    datum within half a unit in the last place of [z]. *)
Lemma SFdiv_pos mx ex my ey z :
  (z * (inject_Z (Zpos my) * bpow ey) == inject_Z (Zpos mx) * bpow ex)%Q ->
  (bpow (emin prec emax - 1) < z)%Q ->
  (z < bpow (emax - prec))%Q ->
  exists m e,
    SFdiv prec emax (S754_finite false mx ex) (S754_finite false my ey) =
      S754_finite false m e /\
    Zpos m < 2 ^ prec /\ emin prec emax <= e /\
    (Qabs (inject_Z (Zpos m) * bpow e - z) <= bpow e * (1 # 2))%Q /\
    (e = emin prec emax \/ 2 ^ (prec - 1) <= Zpos m) /\
    (emin prec emax < e -> Zpos m = 2 ^ (prec - 1) ->
     (inject_Z (Zpos m) * bpow e - z <= bpow e * (1 # 4))%Q).
Proof.
  intros Hz Hlo Hhi. cbn [SFdiv xorb]. unfold SFdiv_core_binary.
  pose proof (div_core_shift (Zpos mx) ex (Zpos my) ey ltac:(lia) ltac:(lia)) as Hshift.
  cbv zeta in Hshift.
  set (e' := Z.min (fexp prec emax (Zdigits2 (Zpos mx) + ex - (Zdigits2 (Zpos my) + ey)))
                   (ex - ey)) in *.
  set (s := ex - ey - e') in *.
  assert (Hs : 0 <= s) by lia.
  rewrite (shift_match (Zpos mx) s Hs).
  pose proof (Z_div_mod (Zpos mx * 2 ^ s) (Zpos my) ltac:(lia)) as Hdm.
  pose proof (Z.div_eucl_eq (Zpos mx * 2 ^ s) (Zpos my) ltac:(lia)) as Hde.
  unfold Z.div in Hshift.
  destruct (Z.div_eucl (Zpos mx * 2 ^ s) (Zpos my)) as [q r]. cbn [fst] in Hshift.
  destruct Hdm as (Hqr & Hr).
  assert (Hq : 0 <= q).
  { assert (0 < 2 ^ s) by (apply Z.pow_pos_nonneg; lia). nia. }
  set (y0 := (z * bpow (- e'))%Q).
  assert (Hy0 : (y0 * bpow e' == z)%Q).
  { unfold y0. rewrite <- Qmult_assoc, <- bpow_add. replace (- e' + e') with 0 by lia.
    rewrite bpow_0. ring. }
  assert (Hloc : rec_loc (shr_record_of_loc q (new_location (Zpos my) r)) y0).
  { apply new_location_loc; [lia | lia |].
    rewrite <- inject_Z_mult, <- inject_Z_plus.
    replace (q * Zpos my + r) with (Zpos mx * 2 ^ s) by lia.
    rewrite inject_Z_mult, <- bpow_Z by lia.
    unfold y0, s.
    assert (Hb : (bpow (ex - ey - e') * bpow ey == bpow ex * bpow (- e'))%Q).
    { rewrite <- !bpow_add. replace (ex - ey - e' + ey) with (ex + - e') by lia. reflexivity. }
    pose proof (bpow_pos ey) as Hpy.
    apply (Qmult_inj_r _ _ (bpow ey)); [lra|].
    transitivity (z * (inject_Z (Zpos my) * bpow ey) * bpow (- e'))%Q; [ring|].
    rewrite Hz. transitivity (inject_Z (Zpos mx) * (bpow (ex - ey - e') * bpow ey))%Q; [|ring].
    rewrite Hb. ring. }
  destruct (binary_round_aux_spec false q e' (new_location (Zpos my) r) y0 Hq Hloc)
    as (m & e & E & Hm & He & Habs & _ & Hcan & Hzero & Hquart).
  rewrite Hy0 in Habs, Hzero, Hquart.
  destruct (finish_value false m e _ (proj1 Hm) Habs Hhi) as (_ & _ & Hfin).
  assert (Hmpos : 0 < m).
  { destruct (Z.eq_dec m 0) as [Hm0|]; [|lia].
    specialize (Hzero Hm0 (or_intror Hshift)). lra. }
  destruct (Hfin Hmpos) as (p & -> & Ep).
  exists p, e. rewrite E, Ep.
  split; [reflexivity|]. split; [lia|]. split; [assumption|]. split; [assumption|].
  split; [apply Hcan; assumption|].
  apply Hquart. assumption.
Qed.

(** *** Exact sums and differences *)

Lemma cond_Zopp_mul s a b : cond_Zopp s (a * b) = cond_Zopp s a * b.
Proof. destruct s; cbn; lia. Qed.

Lemma aligned_value s m e ez :
  ez <= e ->
  (inject_Z (cond_Zopp s (Zpos (fst (shl_align m e ez)))) * bpow ez ==
   SF2Q (S754_finite s m e))%Q.
Proof.
  intros H. rewrite shl_align_fst, cond_Zopp_mul by assumption.
  cbn [SF2Q]. apply inject_Z_shift. assumption.
Qed.

(** A sum, and a difference, of finite data that the format holds is
    computed exactly. *)
Lemma SFadd_finite_exact sx mx ex sy my ey g j k :
  (Qabs (SF2Q (S754_finite sx mx ex) + SF2Q (S754_finite sy my ey)) < bpow g)%Q ->
  (SF2Q (S754_finite sx mx ex) + SF2Q (S754_finite sy my ey) == inject_Z k * bpow j)%Q ->
  fexp prec emax g <= j ->
  g <= emax - prec ->
  is_finite (SFadd prec emax (S754_finite sx mx ex) (S754_finite sy my ey)) = true /\
  (SF2Q (SFadd prec emax (S754_finite sx mx ex) (S754_finite sy my ey)) ==
   SF2Q (S754_finite sx mx ex) + SF2Q (S754_finite sy my ey))%Q.
Proof.
  intros Hg Hk Hj Hmax. cbn [SFadd].
  set (ez := Z.min ex ey).
  set (M := cond_Zopp sx (Zpos (fst (shl_align mx ex ez))) +
            cond_Zopp sy (Zpos (fst (shl_align my ey ez)))).
  assert (HM : (inject_Z M * bpow ez ==
                SF2Q (S754_finite sx mx ex) + SF2Q (S754_finite sy my ey))%Q).
  { unfold M. rewrite inject_Z_plus, Qmult_plus_distr_l.
    rewrite !aligned_value by lia. reflexivity. }
  rewrite <- HM in *. apply (binary_normalize_exact M ez false g j k); assumption.
Qed.

Lemma SFsub_finite_exact sx mx ex sy my ey g j k :
  (Qabs (SF2Q (S754_finite sx mx ex) - SF2Q (S754_finite sy my ey)) < bpow g)%Q ->
  (SF2Q (S754_finite sx mx ex) - SF2Q (S754_finite sy my ey) == inject_Z k * bpow j)%Q ->
  fexp prec emax g <= j ->
  g <= emax - prec ->
  is_finite (SFsub prec emax (S754_finite sx mx ex) (S754_finite sy my ey)) = true /\
  (SF2Q (SFsub prec emax (S754_finite sx mx ex) (S754_finite sy my ey)) ==
   SF2Q (S754_finite sx mx ex) - SF2Q (S754_finite sy my ey))%Q.
Proof.
  intros Hg Hk Hj Hmax. cbn [SFsub].
  set (ez := Z.min ex ey).
  set (M := cond_Zopp sx (Zpos (fst (shl_align mx ex ez))) -
            cond_Zopp sy (Zpos (fst (shl_align my ey ez)))).
  assert (HM : (inject_Z M * bpow ez ==
                SF2Q (S754_finite sx mx ex) - SF2Q (S754_finite sy my ey))%Q).
  { unfold M, Z.sub. rewrite inject_Z_plus, inject_Z_opp.
    rewrite <- !aligned_value with (ez := ez) by lia. ring. }
  rewrite <- HM in *. apply (binary_normalize_exact M ez false g j k); assumption.
Qed.

End Rounding.

(** ** Data with a positive value *)

(** Only a finite datum of positive sign has a positive value. *)
Lemma SF2Q_pos_finite x :
  (0 < SF2Q x)%Q -> exists m e, x = S754_finite false m e.
Proof.
  destruct x as [s|s| |s m e]; cbn [SF2Q]; try lra.
  destruct s; cbn [cond_Zopp]; intros H; [|eauto].
  exfalso. pose proof (bpow_pos e). pose proof (inject_Z_pos_gt0 m).
  change (Z.opp (Zpos m)) with (Zneg m) in H.
  assert (E : (inject_Z (Zneg m) == - inject_Z (Zpos m))%Q) by (rewrite <- inject_Z_opp; reflexivity).
  rewrite E in H. nra.
Qed.

(** ** The conversions and [floor], on numbers the formats hold exactly *)

Lemma Qabs_small (x b : Q) : (0 <= x)%Q -> (x < b)%Q -> (Qabs x < b)%Q.
Proof. intros H0 H1. rewrite Qabs_pos; assumption. Qed.

Lemma inject_Z_lt_bpow (z n : Z) : 0 <= n -> z < 2 ^ n -> (inject_Z z < bpow n)%Q.
Proof. intros Hn H. rewrite bpow_Z by assumption. rewrite <- Zlt_Qlt. assumption. Qed.

Lemma inject_Z_nonneg (z : Z) : 0 <= z -> (0 <= inject_Z z)%Q.
Proof. intros H. change 0%Q with (inject_Z 0). rewrite <- Zle_Qle. assumption. Qed.

(** Integers below [2^24] are binary32 numbers. *)
Lemma int_to_float_exact (z : Z) :
  0 <= z < 2 ^ 24 ->
  is_finite (int_to_float z) = true /\ (SF2Q (int_to_float z) == inject_Z z)%Q.
Proof.
  intros Hz. unfold int_to_float.
  assert (E : (inject_Z z * bpow 0 == inject_Z z)%Q) by (rewrite bpow_0; ring).
  rewrite <- E.
  apply (binary_normalize_exact 24 128 ltac:(lia) z 0 false 24 0 z).
  - rewrite E. apply Qabs_small; [apply inject_Z_nonneg; lia|].
    apply inject_Z_lt_bpow; lia.
  - reflexivity.
  - unfold fexp, emin. lia.
  - lia.
Qed.

(** The mantissa of a binary32 number has at most 24 digits, and exactly
    24 above the subnormal range. *)
Lemma valid_binary_mantissa (s : bool) (m : positive) (e : Z) :
  valid_binary 24 128 (S754_finite s m e) = true ->
  Zpos m < 2 ^ 24 /\ -149 <= e /\ (e = -149 \/ 2 ^ 23 <= Zpos m).
Proof.
  cbn [valid_binary]. unfold bounded, canonical_mantissa. intros H.
  apply andb_prop in H. destruct H as (H & _).
  apply Z.eqb_eq in H. unfold fexp, emin in H.
  pose proof (Zdigits2_bounds (Zpos m) ltac:(lia)) as B.
  cbn [Zdigits2] in B.
  assert (Hd : Zpos (digits2_pos m) <= 24) by lia.
  split.
  - assert (2 ^ Zpos (digits2_pos m) <= 2 ^ 24) by (apply Z.pow_le_mono_r; lia). lia.
  - split; [lia|].
    destruct (Z.eq_dec e (-149)) as [|Hne]; [left; assumption|right].
    assert (Hd' : Zpos (digits2_pos m) = 24) by lia.
    rewrite Hd' in B. exact (proj1 B).
Qed.

(** The mantissa of a converted integer has at most 24 digits. *)
Lemma int_to_float_mantissa (z : Z) (s : bool) (m : positive) (e : Z) :
  int_to_float z = S754_finite s m e -> Zpos m < 2 ^ 24.
Proof.
  unfold int_to_float, binary_normalize.
  assert (H : forall s0 p, binary_round 24 128 s0 p 0 = S754_finite s m e -> Zpos m < 2 ^ 24).
  { intros s0 p E.
    destruct (binary_round_spec 24 128 ltac:(lia) s0 p 0) as (m' & e' & E' & Hm' & _).
    rewrite E' in E. unfold finish in E.
    destruct m' as [|q|q]; try discriminate.
    destruct (e' <=? 128 - 24); try discriminate.
    injection E as _ -> _. lia. }
  destruct z as [|p|p]; [discriminate | apply H | apply H].
Qed.

(** Widening is exact on the numbers binary64 holds. *)
Lemma float_to_double_exact (s : bool) (m : positive) (e g : Z) :
  (Qabs (SF2Q (S754_finite s m e)) < bpow g)%Q ->
  g - 53 <= e -> -1074 <= e -> g <= 971 ->
  is_finite (float_to_double (S754_finite s m e)) = true /\
  (SF2Q (float_to_double (S754_finite s m e)) == SF2Q (S754_finite s m e))%Q.
Proof.
  intros Hg He Hmin Hmax. cbn [float_to_double SF2Q] in *.
  apply (binary_normalize_exact 53 1024 ltac:(lia) _ e s g e (cond_Zopp s (Zpos m)));
    try assumption; try reflexivity.
  unfold fexp, emin. lia.
Qed.

(** Narrowing is exact on integers below [2^24]. *)
Lemma double_to_float_exact (x : double) (N : Z) :
  is_finite x = true -> (SF2Q x == inject_Z N)%Q -> 0 <= N < 2 ^ 24 ->
  is_finite (double_to_float x) = true /\ (SF2Q (double_to_float x) == inject_Z N)%Q.
Proof.
  intros Hfin Hx HN. destruct x as [s|s| |s m e]; try discriminate.
  - split; [reflexivity | exact Hx].
  - cbn [double_to_float SF2Q] in *. rewrite <- Hx.
    apply (binary_normalize_exact 24 128 ltac:(lia) _ e s 24 0 N).
    + rewrite Hx. apply Qabs_small; [apply inject_Z_nonneg; lia|].
      apply inject_Z_lt_bpow; lia.
    + rewrite Hx, bpow_0. ring.
    + unfold fexp, emin. lia.
    + lia.
Qed.

(** [floor] of a positive [double] below [2^53]: an integer-valued
    [double], the integer part of the argument. *)
Lemma floor_spec (m : positive) (e : Z) :
  (SF2Q (S754_finite false m e) < bpow 53)%Q ->
  exists N, 0 <= N /\
    (inject_Z N <= SF2Q (S754_finite false m e) < inject_Z N + 1)%Q /\
    is_finite (floor (S754_finite false m e)) = true /\
    (SF2Q (floor (S754_finite false m e)) == inject_Z N)%Q.
Proof.
  intros Hlt. cbn [SF2Q cond_Zopp] in *. unfold floor.
  destruct (Z.leb_spec 0 e) as [He|He].
  - exists (Zpos m * 2 ^ e).
    assert (E : (inject_Z (Zpos m * 2 ^ e) == inject_Z (Zpos m) * bpow e)%Q).
    { rewrite inject_Z_mult, bpow_Z by lia. reflexivity. }
    assert (0 < 2 ^ e) by (apply Z.pow_pos_nonneg; lia).
    split; [lia|]. split; [rewrite E; lra|]. split; [reflexivity|].
    cbn [SF2Q cond_Zopp]. rewrite E. reflexivity.
  - cbn [cond_Zopp]. rewrite Z.shiftr_div_pow2 by lia.
    set (k := - e). set (N := Zpos m / 2 ^ k).
    assert (Hk : 0 < 2 ^ k) by (apply Z.pow_pos_nonneg; lia).
    assert (HN : 0 <= N) by (apply Z.div_pos; lia).
    pose proof (Z.div_mod (Zpos m) (2 ^ k) ltac:(lia)) as Hdm.
    pose proof (Z.mod_pos_bound (Zpos m) (2 ^ k) Hk) as Hr.
    fold N in Hdm.
    assert (Hb : (bpow e * inject_Z (2 ^ k) == 1)%Q).
    { rewrite <- bpow_Z by lia. rewrite <- bpow_add.
      replace (e + k) with 0 by lia. reflexivity. }
    assert (Hm : (inject_Z (Zpos m) ==
                  inject_Z (2 ^ k) * inject_Z N + inject_Z (Zpos m mod 2 ^ k))%Q).
    { rewrite <- inject_Z_mult, <- inject_Z_plus, <- Hdm. reflexivity. }
    assert (Hr0 : (0 <= inject_Z (Zpos m mod 2 ^ k))%Q) by (apply inject_Z_nonneg; lia).
    assert (Hr1 : (inject_Z (Zpos m mod 2 ^ k) < inject_Z (2 ^ k))%Q)
      by (rewrite <- Zlt_Qlt; lia).
    pose proof (bpow_pos e) as Hpe.
    assert (Hrange : (inject_Z N <= inject_Z (Zpos m) * bpow e < inject_Z N + 1)%Q).
    { assert (Hv : (inject_Z (Zpos m) * bpow e ==
                    inject_Z N + inject_Z (Zpos m mod 2 ^ k) * bpow e)%Q).
      { rewrite Hm.
        transitivity (inject_Z N * (bpow e * inject_Z (2 ^ k)) +
                      inject_Z (Zpos m mod 2 ^ k) * bpow e)%Q; [ring|].
        rewrite Hb. ring. }
      rewrite Hv. split; nra. }
    exists N. split; [assumption|]. split; [assumption|].
    assert (E : (inject_Z N * bpow 0 == inject_Z N)%Q) by (rewrite bpow_0; ring).
    rewrite <- E.
    apply (binary_normalize_exact 53 1024 ltac:(lia) N 0 false 53 0 N).
    + rewrite E. apply Qabs_small; [apply inject_Z_nonneg; lia | lra].
    + reflexivity.
    + unfold fexp, emin. lia.
    + lia.
Qed.

(** A finite datum with an integer value truncates to that integer. *)
Lemma truncate_exact (x : spec_float) (v : Z) :
  is_finite x = true -> (SF2Q x == inject_Z v)%Q -> truncate x = Some v.
Proof.
  intros Hfin Hx. destruct x as [s|s| |s m e]; try discriminate.
  - cbn [SF2Q truncate] in *. f_equal. apply inject_Z_injective. exact Hx.
  - cbn [SF2Q truncate] in *. f_equal.
    destruct (Z.leb_spec 0 e) as [He|He].
    + apply inject_Z_injective. rewrite <- Hx, inject_Z_mult, bpow_Z by lia. reflexivity.
    + assert (Hk : 0 < 2 ^ (- e)) by (apply Z.pow_pos_nonneg; lia).
      assert (E : cond_Zopp s (Zpos m) = v * 2 ^ (- e)).
      { apply inject_Z_injective. rewrite inject_Z_mult, <- bpow_Z by lia.
        rewrite <- Hx, <- Qmult_assoc, <- bpow_add.
        replace (e + - e) with 0 by lia. rewrite bpow_0. ring. }
      rewrite E. apply Z.quot_mul. lia.
Qed.

Lemma fptoui_exact (x : float) (v : Z) :
  is_finite x = true -> (SF2Q x == inject_Z v)%Q -> 0 <= v <= UINT32_MAX ->
  fptoui x = Some v.
Proof.
  intros Hfin Hx Hv. unfold fptoui. rewrite (truncate_exact x v Hfin Hx).
  destruct (Z.leb_spec 0 v); [|lia]. destruct (Z.leb_spec v UINT32_MAX); [|lia].
  reflexivity.
Qed.

(** The powers of two the bounds below use. *)
Lemma bpow_values :
  (bpow (-150) <= bpow (-30))%Q /\ (bpow (-30) == 1 # 1073741824)%Q /\
  (bpow (-25) == 1 # 33554432)%Q /\ (bpow (-24) == 1 # 16777216)%Q /\
  (bpow (-2) == 1 # 4)%Q /\ (bpow (-1) == 1 # 2)%Q /\
  (bpow 22 == 4194304)%Q /\ (bpow 23 == 8388608)%Q /\ (bpow 24 == 16777216)%Q /\
  (bpow 53 == 9007199254740992)%Q /\ (bpow 32 == 4294967296)%Q.
Proof.
  split; [apply bpow_le; lia|]. repeat split; reflexivity.
Qed.

(** [round]: for a positive [float] below [2^24 - 1/2] with an exponent
    of at least -28 the sum with 0.5, the floor and both conversions are
    exact; the result is the integer [floor(x + 1/2)]. *)
Lemma round_spec (m : positive) (e : Z) :
  -28 <= e ->
  (SF2Q (S754_finite false m e) + (1 # 2) < bpow 24)%Q ->
  exists N, 0 <= N < 2 ^ 24 /\
    (inject_Z N <= SF2Q (S754_finite false m e) + (1 # 2) < inject_Z N + 1)%Q /\
    is_finite (round (S754_finite false m e)) = true /\
    (SF2Q (round (S754_finite false m e)) == inject_Z N)%Q.
Proof.
  intros He Hlt.
  destruct bpow_values as (_ & _ & _ & _ & _ & _ & B22 & B23 & B24 & B53 & _).
  assert (B28 : (bpow (-28) == 1 # 268435456)%Q) by reflexivity.
  assert (B25 : (bpow 25 == 33554432)%Q) by reflexivity.
  set (P := S754_finite false m e) in *.
  assert (HP : (0 < SF2Q P)%Q).
  { cbn [P SF2Q cond_Zopp]. pose proof (bpow_pos e). pose proof (inject_Z_pos_gt0 m). nra. }
  destruct (float_to_double_exact false m e 24) as (Hf1 & Hv1); try lia.
  { apply Qabs_small; fold P; lra. }
  fold P in Hf1, Hv1.
  destruct (SF2Q_pos_finite (float_to_double P)) as (md & ed & Ed); [lra|].
  assert (Hhalf : (SF2Q half == 1 # 2)%Q) by reflexivity.
  destruct (SFadd_finite_exact 53 1024 ltac:(lia) false md ed false 4503599627370496 (-53)
              25 (-28) (Zpos m * 2 ^ (e - -28) + 2 ^ 27)) as (Hf2 & Hv2).
  { rewrite <- Ed. fold half. rewrite Hv1, Hhalf. apply Qabs_small; lra. }
  { rewrite <- Ed. fold half. rewrite Hv1, Hhalf.
    rewrite inject_Z_plus, Qmult_plus_distr_l, inject_Z_shift by lia.
    cbn [P SF2Q cond_Zopp]. rewrite B28.
    change (inject_Z (2 ^ 27)) with 134217728%Q. lra. }
  { unfold fexp, emin. lia. }
  { lia. }
  rewrite <- Ed in Hf2, Hv2. fold half in Hf2, Hv2. fold (dadd (float_to_double P) half) in Hf2, Hv2.
  rewrite Hv1, Hhalf in Hv2.
  destruct (SF2Q_pos_finite (dadd (float_to_double P) half)) as (mD & eD & ED); [lra|].
  destruct (floor_spec mD eD) as (N & HN0 & HNr & Hf3 & Hv3).
  { rewrite <- ED, Hv2. lra. }
  rewrite <- ED in *. rewrite Hv2 in HNr.
  assert (HN : N < 2 ^ 24).
  { rewrite Zlt_Qlt. change (inject_Z (2 ^ 24)) with 16777216%Q. lra. }
  destruct (double_to_float_exact _ N Hf3 Hv3) as (Hf4 & Hv4); [lia|].
  exists N. unfold round. repeat split; try assumption; try lia; lra.
Qed.

(** Subtracting 1 from an integer-valued [float] between 1 and [2^24]
    is exact. *)
Lemma fsub_one_exact (R : float) (N : Z) :
  is_finite R = true -> (SF2Q R == inject_Z N)%Q -> 1 <= N < 2 ^ 24 ->
  is_finite (fsub R (int_to_float 1)) = true /\
  (SF2Q (fsub R (int_to_float 1)) == inject_Z (N - 1))%Q.
Proof.
  intros Hfin HR HN.
  destruct (SF2Q_pos_finite R) as (mR & eR & ->).
  { rewrite HR. change 0%Q with (inject_Z 0). rewrite <- Zlt_Qlt. lia. }
  change (int_to_float 1) with (S754_finite false 8388608 (-23)).
  assert (H1 : (SF2Q (S754_finite false 8388608 (-23)) == 1)%Q) by reflexivity.
  assert (HD : (SF2Q (S754_finite false mR eR) - SF2Q (S754_finite false 8388608 (-23)) ==
                inject_Z (N - 1))%Q).
  { rewrite HR, H1. unfold Z.sub. rewrite inject_Z_plus. reflexivity. }
  unfold fsub. rewrite <- HD.
  apply (SFsub_finite_exact 24 128 ltac:(lia) false mR eR false 8388608 (-23) 24 0 (N - 1)).
  - rewrite HD. apply Qabs_small; [apply inject_Z_nonneg; lia|].
    apply inject_Z_lt_bpow; lia.
  - rewrite HD, bpow_0. ring.
  - unfold fexp, emin. lia.
  - lia.
Qed.

(** ** Golden values at 48 MHz *)

(** The constants of the examples. *)
Lemma float_constants :
  SF2Q float_1 == 1 /\ SF2Q float_1000 == 1000 /\
  SF2Q float_359_1024 == 359 # 1024 /\
  SF2Q float_minus_1 == - (1) /\
  float_1 = int_to_float 1 /\ float_1000 = int_to_float 1000.
Proof. repeat split; vm_compute; reflexivity. Qed.

(** C2: on a 48 MHz bus [period(1.0)] rounds [F_BUS * 1.0] to
    48,000,000 cycles, whose predecessor is 47,999,999; but the code
    subtracts 1 in [float], where 47,999,999 does not exist and the
    difference rounds back to 48,000,000: that is the value converted
    and handed to [value(uint32_t)], and stored unless [valueMin]
    exceeds it. *)
Theorem set_period_one_second (vmin : Z) (t : PITimer) (h : Hw) :
  round (fmul (int_to_float 48000000) float_1) = int_to_float 48000000 /\
  fptoui (round (fmul (int_to_float 48000000) float_1)) = Some 48000000 /\
  period_cycles (teensy vmin) float_1 = int_to_float 48000000 /\
  set_period (teensy vmin) float_1 t h = set_value (teensy vmin) 48000000 t h /\
  value (fst (set_period (teensy vmin) float_1 t h)) =
    (if 48000000 <? vmin then vmin else 48000000) /\
  value (fst (set_period (teensy 15) float_1 t h)) <> 47999999.
Proof.
  assert (Hc : period_cycles (teensy vmin) float_1 = int_to_float 48000000)
    by (vm_compute; reflexivity).
  assert (Hs : set_period (teensy vmin) float_1 t h = set_value (teensy vmin) 48000000 t h).
  { unfold set_period. rewrite Hc. reflexivity. }
  split; [vm_compute; reflexivity|].
  split; [vm_compute; reflexivity|].
  split; [exact Hc|]. split; [exact Hs|].
  split; [rewrite Hs, set_value_stored; reflexivity|].
  vm_compute. discriminate.
Qed.

(** C5: on a 48 MHz bus [frequency(1000.0)] stores 47,999, as round(48000) - 1
    is exact in [float]; [frequency(1.0)] rounds [F_BUS / 1.0] to
    48,000,000 cycles, whose predecessor 47,999,999 the [float]
    subtraction cannot produce: 48,000,000 is converted and handed to
    [value(uint32_t)]. *)
Theorem set_frequency_one_hertz (vmin : Z) (t : PITimer) (h : Hw) :
  fptoui (round (fdiv (int_to_float 48000000) float_1)) = Some 48000000 /\
  frequency_cycles (teensy vmin) float_1 = int_to_float 48000000 /\
  set_frequency (teensy vmin) float_1 t h = set_value (teensy vmin) 48000000 t h /\
  value (fst (set_frequency (teensy vmin) float_1 t h)) =
    (if 48000000 <? vmin then vmin else 48000000) /\
  value (fst (set_frequency (teensy 15) float_1 t h)) <> 47999999 /\
  set_frequency (teensy vmin) float_1000 t h = set_value (teensy vmin) 47999 t h /\
  value (fst (set_frequency (teensy 15) float_1000 t h)) = 47999.
Proof.
  assert (Hc : frequency_cycles (teensy vmin) float_1 = int_to_float 48000000)
    by (vm_compute; reflexivity).
  assert (Hs : set_frequency (teensy vmin) float_1 t h = set_value (teensy vmin) 48000000 t h).
  { unfold set_frequency. rewrite Hc. reflexivity. }
  assert (Hk : frequency_cycles (teensy vmin) float_1000 = int_to_float 47999)
    by (vm_compute; reflexivity).
  split; [vm_compute; reflexivity|].
  split; [exact Hc|]. split; [exact Hs|].
  split; [rewrite Hs, set_value_stored; reflexivity|].
  split; [vm_compute; discriminate|].
  split; [unfold set_frequency; rewrite Hk; reflexivity|].
  vm_compute. reflexivity.
Qed.

(** ** Periods that round to zero cycles *)

Lemma fsub_zero_one (s : bool) : fsub (S754_zero s) (int_to_float 1) = float_minus_1.
Proof. destruct s; reflexivity. Qed.

Lemma minus_1_conversions :
  fptoui float_minus_1 = None /\
  aeabi_f2uiz float_minus_1 = 0 /\
  to_uint32 (wrapping_fptoui float_minus_1) = UINT32_MAX.
Proof. repeat split. Qed.

(** C10, as the code has it: when [round(F_BUS * p)] is zero the
    subtraction, a [float] subtraction, gives [-1.0f]; nothing wraps.
    [-1.0f] has no [uint32_t] value in C++, so what is stored is
    [value(uint32_t)] of the word the target's conversion produces: the
    minimum [valueMin] when that word is 0, as with the saturating
    conversion of the ARM run-time ([aeabi_f2uiz]), and the maximum
    [UINT32_MAX - 1] only when it is [UINT32_MAX], as with a conversion
    that wraps. *)
Theorem set_period_rounds_to_zero (T : Target) (p : float) (t : PITimer) (h : Hw) :
  is_zero (round (fmul (int_to_float (F_BUS T)) p)) = true ->
  0 <= valueMin T <= UINT32_MAX - 1 ->
  period_cycles T p = float_minus_1 /\
  fptoui (period_cycles T p) = None /\
  set_period T p t h =
    set_value T (to_uint32 (fptoui_undefined T float_minus_1)) t h /\
  (fptoui_undefined T float_minus_1 = aeabi_f2uiz float_minus_1 ->
   value (fst (set_period T p t h)) = valueMin T) /\
  (fptoui_undefined T float_minus_1 = wrapping_fptoui float_minus_1 ->
   value (fst (set_period T p t h)) = UINT32_MAX - 1).
Proof.
  intros Hz Hmin.
  assert (Hc : period_cycles T p = float_minus_1).
  { unfold period_cycles.
    destruct (round (fmul (int_to_float (F_BUS T)) p)); try discriminate.
    apply fsub_zero_one. }
  assert (Hs : set_period T p t h =
               set_value T (to_uint32 (fptoui_undefined T float_minus_1)) t h).
  { unfold set_period, float_to_uint32. rewrite Hc. reflexivity. }
  repeat split; trivial.
  - rewrite Hc. reflexivity.
  - intros Hu. rewrite Hs, Hu, set_value_stored. cbn.
    destruct (Z.ltb_spec 0 (valueMin T)); lia.
  - intros Hu. rewrite Hs, Hu, set_value_stored. reflexivity.
Qed.

Lemma set_period_rounds_to_zero_witness :
  value (fst (set_period (teensy 15) float_0 (idle 0 48000000) hw0)) = 15.
Proof.
  refine (proj1 (proj2 (proj2 (proj2
            (set_period_rounds_to_zero (teensy 15) float_0 (idle 0 48000000) hw0 _ _)))) _).
  - reflexivity.
  - unfold UINT32_MAX; simpl; lia.
  - reflexivity.
Defined.

(** On the 48 MHz Teensy [period(0.0)] stores the minimum, not
    [UINT32_MAX - 1]. *)
Lemma set_period_zero_stores_minimum :
  is_zero (round (fmul (int_to_float (F_BUS (teensy 15))) float_0)) = true /\
  value (fst (set_period (teensy 15) float_0 (idle 0 48000000) hw0)) = valueMin (teensy 15) /\
  value (fst (set_period (teensy 15) float_0 (idle 0 48000000) hw0)) <> UINT32_MAX - 1.
Proof.
  split; [reflexivity|]. split; [reflexivity|]. vm_compute. discriminate.
Qed.

(** ** The period round trip *)

(** On the 48 MHz Teensy the period [359/1024] s is a binary32 number,
    a whole number of bus cycles (16,828,125) and in range; [period]
    stores 16,828,124 for it and [period()] returns [359/1024 - 2^-25],
    which is 1.43 bus cycles away. *)
Lemma period_round_trip_counterexample :
  representable (teensy 15) float_359_1024 /\
  (inject_Z (F_BUS (teensy 15)) * SF2Q float_359_1024 == 16828125)%Q /\
  value (fst (set_period (teensy 15) float_359_1024 (idle 0 48000000) hw0)) = 16828124 /\
  (SF2Q (period (teensy 15)
           (fst (set_period (teensy 15) float_359_1024 (idle 0 48000000) hw0)))
   == (359 # 1024) - (1 # 33554432))%Q /\
  ~ (Qabs (SF2Q (period (teensy 15)
                   (fst (set_period (teensy 15) float_359_1024 (idle 0 48000000) hw0)))
           - SF2Q float_359_1024)
     <= 1 / inject_Z (F_BUS (teensy 15)))%Q.
Proof.
  split.
  { split; [reflexivity|]. exists 16828124. split; [vm_compute; reflexivity|].
    unfold UINT32_MAX; simpl; lia. }
  split; [vm_compute; reflexivity|].
  split; [vm_compute; reflexivity|].
  split; [vm_compute; reflexivity|].
  vm_compute. intros H. apply H. reflexivity.
Qed.

(** A rounded cycle count: a [float] [m * 2^e] that the arithmetic
    produced for an exact count [x] between 1 and [2^24 - 1].  It is
    within half a cycle of [x], within a quarter below [2^23]; from
    [2^23] cycles on it is an integer and from [2^22] on a multiple of
    one half. *)
Lemma rounded_cycles (m : positive) (e : Z) (x : Q) :
  Zpos m < 2 ^ 24 ->
  (Qabs (inject_Z (Zpos m) * bpow e - x) <= bpow e * (1 # 2))%Q ->
  ((inject_Z (Zpos m) * bpow e == x)%Q \/ e = -149 \/ 2 ^ 23 <= Zpos m) ->
  (-149 < e -> Zpos m = 2 ^ 23 ->
   (inject_Z (Zpos m) * bpow e - x <= bpow e * (1 # 4))%Q) ->
  (1 <= x <= 16777215)%Q ->
  -25 <= e /\
  (Qabs (SF2Q (S754_finite false m e) - x) <= 1 # 2)%Q /\
  ((x < 8388608)%Q -> (Qabs (SF2Q (S754_finite false m e) - x) <= 1 # 4)%Q) /\
  ((8388608 <= x)%Q -> 0 <= e) /\
  ((4194304 <= x)%Q -> -1 <= e).
Proof.
  intros Hm Habs Hcase Hq Hx. cbn [SF2Q cond_Zopp].
  destruct bpow_values as (B150 & B30 & B25 & B24' & B2 & B1 & B22 & B23 & B24 & _).
  change (2 ^ 23) with 8388608 in *. change (2 ^ 24) with 16777216 in *.
  set (P := (inject_Z (Zpos m) * bpow e)%Q) in *.
  pose proof (bpow_pos e) as Hb.
  assert (Hm' : (inject_Z (Zpos m) <= 16777215)%Q).
  { change 16777215%Q with (inject_Z 16777215). rewrite <- Zle_Qle. lia. }
  pose proof (inject_Z_pos_ge1 m) as Hm1.
  apply Qabs_Qle_condition in Habs.
  (* the exponent from below *)
  assert (Hlow : forall k b, e <= k -> (bpow k == b)%Q -> (x <= 16777215 * b + b * (1 # 2))%Q).
  { intros k b Hk Hkb. pose proof (bpow_le e k Hk) as Hle. rewrite Hkb in Hle.
    unfold P in Habs. nra. }
  assert (He25 : -25 <= e).
  { destruct (Z_lt_le_dec e (-25)) as [Hlt|]; [exfalso|lia].
    pose proof (Hlow (-25) _ ltac:(lia) B25). lra. }
  assert (Hem1 : (4194304 <= x)%Q -> -1 <= e).
  { intros Hx22. destruct (Z_lt_le_dec e (-1)) as [Hlt|]; [exfalso|lia].
    pose proof (Hlow (-2) _ ltac:(lia) B2). lra. }
  assert (He0 : (8388608 <= x)%Q -> 0 <= e).
  { intros Hx23. destruct (Z_lt_le_dec e 0) as [Hlt|]; [exfalso|lia].
    pose proof (Hlow (-1) _ ltac:(lia) B1). lra. }
  (* the exponent from above, unless the count is exact *)
  assert (Hnorm : ~ (P == x)%Q -> (8388608 <= inject_Z (Zpos m))%Q).
  { intros Hne. change 8388608%Q with (inject_Z 8388608). rewrite <- Zle_Qle.
    destruct Hcase as [Hex | [Hemin | Hnorm]]; [contradiction | lia | exact Hnorm]. }
  assert (Hnine : Zpos m <> 8388608 -> (8388608 <= inject_Z (Zpos m))%Q ->
                  (8388609 <= inject_Z (Zpos m))%Q).
  { intros Hne H23. change 8388609%Q with (inject_Z 8388609). rewrite <- Zle_Qle.
    change 8388608%Q with (inject_Z 8388608) in H23. rewrite <- Zle_Qle in H23. lia. }
  assert (Hbig : ~ (P == x)%Q -> 0 < e -> False).
  { intros Hne Hpos. specialize (Hnorm Hne).
    pose proof (bpow_le 1 e ltac:(lia)) as Hle1. rewrite bpow_1 in Hle1.
    destruct (Z.eq_dec (Zpos m) 8388608) as [Heq|Hneq].
    - specialize (Hq ltac:(lia) Heq).
      assert (HP : (P == 8388608 * bpow e)%Q) by (unfold P; rewrite Heq; reflexivity).
      nra.
    - specialize (Hnine Hneq Hnorm). unfold P in *. nra. }
  split; [exact He25|]. split; [|split; [|split; assumption]].
  - apply Qabs_Qle_condition.
    destruct (Qeq_dec P x) as [Hex|Hne]; [rewrite Hex; lra|].
    destruct (Z_lt_le_dec 0 e) as [Hpos|Hnp]; [exfalso; apply Hbig; assumption|].
    pose proof (bpow_le e 0 Hnp) as Hle. rewrite bpow_0 in Hle. lra.
  - intros Hx23. apply Qabs_Qle_condition.
    destruct (Qeq_dec P x) as [Hex|Hne]; [rewrite Hex; lra|].
    destruct (Z_lt_le_dec e 0) as [Hneg|Hnn].
    + pose proof (bpow_le e (-1) ltac:(lia)) as Hle. rewrite B1 in Hle. lra.
    + destruct (Z_lt_le_dec 0 e) as [Hpos|Hnp]; [exfalso; apply Hbig; assumption|].
      assert (e = 0) by lia. subst e.
      specialize (Hnorm Hne).
      assert (HP : (P == inject_Z (Zpos m))%Q) by (unfold P; rewrite bpow_0; ring).
      rewrite bpow_0 in *.
      destruct (Z.eq_dec (Zpos m) 8388608) as [Heq|Hneq].
      * specialize (Hq ltac:(lia) Heq). lra.
      * specialize (Hnine Hneq Hnorm). lra.
Qed.

(** The product [F_BUS * newPeriod] when it lies between 1 and
    [2^24 - 1] cycles. *)
Lemma fmul_cycles (mF : positive) (eF : Z) (mp : positive) (ep : Z) :
  (1 <= SF2Q (S754_finite false mF eF) * SF2Q (S754_finite false mp ep) <= 16777215)%Q ->
  exists m e,
    fmul (S754_finite false mF eF) (S754_finite false mp ep) = S754_finite false m e /\
    -25 <= e /\
    (Qabs (SF2Q (S754_finite false m e) -
           SF2Q (S754_finite false mF eF) * SF2Q (S754_finite false mp ep)) <= 1 # 2)%Q /\
    ((SF2Q (S754_finite false mF eF) * SF2Q (S754_finite false mp ep) < 8388608)%Q ->
     (Qabs (SF2Q (S754_finite false m e) -
            SF2Q (S754_finite false mF eF) * SF2Q (S754_finite false mp ep)) <= 1 # 4)%Q) /\
    ((8388608 <= SF2Q (S754_finite false mF eF) * SF2Q (S754_finite false mp ep))%Q ->
     0 <= e) /\
    ((4194304 <= SF2Q (S754_finite false mF eF) * SF2Q (S754_finite false mp ep))%Q ->
     -1 <= e).
Proof.
  cbn [SF2Q cond_Zopp].
  set (x := (inject_Z (Zpos mF) * bpow eF * (inject_Z (Zpos mp) * bpow ep))%Q).
  intros Hx.
  destruct bpow_values as (B150 & B30 & _ & _ & _ & _ & _ & _ & B24 & _).
  destruct (SFmul_pos 24 128 ltac:(lia) mF eF mp ep)
    as (m & e & E & Hm & He & Habs & Hcase & Hq).
  { fold x. change (emin 24 128 - 1) with (-150). lra. }
  { fold x. pose proof (bpow_le 24 (128 - 24) ltac:(lia)). lra. }
  fold x in Habs, Hcase, Hq.
  exists m, e. split; [exact E|].
  apply (rounded_cycles m e x Hm Habs Hcase Hq Hx).
Qed.

(** The same for the quotient [F_BUS / newFrequency]. *)
Lemma fdiv_cycles (mF : positive) (eF : Z) (mh : positive) (eh : Z) (z : Q) :
  (z * SF2Q (S754_finite false mh eh) == SF2Q (S754_finite false mF eF))%Q ->
  (1 <= z <= 16777215)%Q ->
  exists m e,
    fdiv (S754_finite false mF eF) (S754_finite false mh eh) = S754_finite false m e /\
    -25 <= e /\
    (Qabs (SF2Q (S754_finite false m e) - z) <= 1 # 2)%Q /\
    ((z < 8388608)%Q -> (Qabs (SF2Q (S754_finite false m e) - z) <= 1 # 4)%Q) /\
    ((8388608 <= z)%Q -> 0 <= e) /\
    ((4194304 <= z)%Q -> -1 <= e).
Proof.
  cbn [SF2Q cond_Zopp]. intros Hz Hx.
  destruct bpow_values as (B150 & B30 & _ & _ & _ & _ & _ & _ & B24 & _).
  destruct (SFdiv_pos 24 128 ltac:(lia) mF eF mh eh z Hz)
    as (m & e & E & Hm & He & Habs & Hcase & Hq).
  { change (emin 24 128 - 1) with (-150). lra. }
  { pose proof (bpow_le 24 (128 - 24) ltac:(lia)). lra. }
  exists m, e. split; [exact E|].
  apply (rounded_cycles m e z Hm Habs (or_intror Hcase) Hq Hx).
Qed.

(** A [float] cycle count [P] for an exact count [x] between
    [valueMin + 1] and [2^24 - 1], within half a cycle of it (a quarter
    below [2^23], where [P] need not be an integer): [round(P) - 1] is
    computed exactly, converts to [uint32_t] and is stored unclamped; it
    is [N - 1] for the integer [N = floor(P + 1/2)]. *)
Lemma cycles_stored (T : Target) (m : positive) (e : Z) (x : Q) (t : PITimer) (h : Hw) :
  0 <= valueMin T ->
  -25 <= e ->
  (Qabs (SF2Q (S754_finite false m e) - x) <= 1 # 2)%Q ->
  ((x < 8388608)%Q -> (Qabs (SF2Q (S754_finite false m e) - x) <= 1 # 4)%Q) ->
  ((8388608 <= x)%Q -> 0 <= e) ->
  (inject_Z (valueMin T) + 1 <= x <= 16777215)%Q ->
  exists N,
    value (fst (set_value T
                  (float_to_uint32 T (fsub (round (S754_finite false m e)) (int_to_float 1)))
                  t h)) = N - 1 /\
    valueMin T + 1 <= N <= 16777215 /\
    (inject_Z N <= SF2Q (S754_finite false m e) + (1 # 2) < inject_Z N + 1)%Q /\
    (Qabs (inject_Z N - x) <= 3 # 4)%Q /\
    ((8388608 <= x)%Q -> (Qabs (inject_Z N - x) <= 1 # 2)%Q).
Proof.
  intros Hmin He HP Hquart Hint Hx.
  destruct bpow_values as (_ & _ & _ & _ & _ & _ & B22 & B23 & B24 & _).
  assert (Hmin' : (0 <= inject_Z (valueMin T))%Q) by (apply inject_Z_nonneg; lia).
  apply Qabs_Qle_condition in HP.
  set (P := SF2Q (S754_finite false m e)) in *.
  (* from 2^23 cycles on the product is an integer *)
  assert (HK : (8388608 <= x)%Q -> exists K, (P == inject_Z K)%Q).
  { intros Hx23. specialize (Hint Hx23). exists (Zpos m * 2 ^ e).
    unfold P. cbn [SF2Q cond_Zopp]. rewrite inject_Z_mult, bpow_Z by lia. reflexivity. }
  assert (Hlt : (P + (1 # 2) < bpow 24)%Q).
  { destruct (Qlt_le_dec x 8388608) as [Hlo|Hhi].
    - specialize (Hquart Hlo). apply Qabs_Qle_condition in Hquart. lra.
    - destruct (HK Hhi) as (K & EK). rewrite EK in *.
      assert (K <= 16777215); [|assert (inject_Z K <= 16777215)%Q; [|lra]].
      + assert (K < 16777216); [|lia]. rewrite Zlt_Qlt.
        change (inject_Z 16777216) with 16777216%Q. lra.
      + change 16777215%Q with (inject_Z 16777215). rewrite <- Zle_Qle. assumption. }
  destruct (round_spec m e ltac:(lia) Hlt) as (N & HN & HNr & Hf & Hv).
  fold P in HNr.
  assert (Hthree : (- (3 # 4) <= inject_Z N - x <= 3 # 4)%Q /\
                   ((8388608 <= x)%Q -> - (1 # 2) <= inject_Z N - x <= 1 # 2)%Q).
  { destruct (Qlt_le_dec x 8388608) as [Hlo|Hhi].
    - specialize (Hquart Hlo). apply Qabs_Qle_condition in Hquart. split; [lra|]. intros; lra.
    - destruct (HK Hhi) as (K & EK). rewrite EK in *.
      assert (N = K).
      { assert (N <= K).
        { assert (N < K + 1); [|lia]. rewrite Zlt_Qlt, inject_Z_plus.
          change (inject_Z 1) with 1%Q. lra. }
        assert (K < N + 1); [|lia]. rewrite Zlt_Qlt, inject_Z_plus.
        change (inject_Z 1) with 1%Q. lra. }
      subst K. split; [lra|]. intros _. lra. }
  destruct Hthree as (H34 & H12).
  assert (HN1 : valueMin T + 1 <= N).
  { destruct (Qlt_le_dec x 8388608) as [Hlo|Hhi].
    - specialize (Hquart Hlo). apply Qabs_Qle_condition in Hquart.
      assert (valueMin T < N); [|lia]. rewrite Zlt_Qlt. lra.
    - specialize (H12 Hhi).
      assert (valueMin T < N); [|lia]. rewrite Zlt_Qlt. lra. }
  destruct (fsub_one_exact _ N Hf Hv) as (HfV & HvV); [lia|].
  exists N. split; [|split; [lia|]]. 
  - unfold float_to_uint32.
    rewrite (fptoui_exact _ (N - 1) HfV HvV) by (unfold UINT32_MAX; lia).
    rewrite set_value_stored. unfold UINT32_MAX.
    destruct (Z.eqb_spec (N - 1) 4294967295); [lia|].
    destruct (Z.ltb_spec (N - 1) (valueMin T)); [lia | reflexivity].
  - split; [exact HNr|]. split; [apply Qabs_Qle_condition; exact H34|].
    intros Hhi. apply Qabs_Qle_condition. apply H12. exact Hhi.
Qed.

(** Between [valueMin + 1] and [2^24 - 1] cycles [period(float)] stores
    [N - 1] for an integer [N] within three quarters of a cycle of the
    exact product [F_BUS * newPeriod], within half a cycle from [2^23]
    cycles on: the nearest integer to the [float] product, half up. *)
Lemma set_period_stored (T : Target) (p : float) (t : PITimer) (h : Hw) :
  0 < F_BUS T ->
  (SF2Q (int_to_float (F_BUS T)) == inject_Z (F_BUS T))%Q ->
  0 <= valueMin T ->
  (inject_Z (valueMin T) + 1 <= inject_Z (F_BUS T) * SF2Q p <= 16777215)%Q ->
  exists N,
    value (fst (set_period T p t h)) = N - 1 /\
    valueMin T + 1 <= N <= 16777215 /\
    (Qabs (inject_Z N - inject_Z (F_BUS T) * SF2Q p) <= 3 # 4)%Q /\
    ((8388608 <= inject_Z (F_BUS T) * SF2Q p)%Q ->
     (Qabs (inject_Z N - inject_Z (F_BUS T) * SF2Q p) <= 1 # 2)%Q).
Proof.
  intros HF HFf Hmin Hx.
  assert (HF' : (0 < inject_Z (F_BUS T))%Q).
  { change 0%Q with (inject_Z 0). rewrite <- Zlt_Qlt. lia. }
  assert (Hmin' : (0 <= inject_Z (valueMin T))%Q) by (apply inject_Z_nonneg; lia).
  destruct (SF2Q_pos_finite (int_to_float (F_BUS T))) as (mF & eF & EF); [lra|].
  destruct (SF2Q_pos_finite p) as (mp & ep & ->); [nra|].
  rewrite EF in HFf.
  destruct (fmul_cycles mF eF mp ep) as (m & e & EP & He & HP & HPq & He0 & _);
    [rewrite HFf; lra|].
  rewrite HFf in HP, HPq, He0.
  unfold set_period, period_cycles. rewrite EF, EP.
  destruct (cycles_stored T m e _ t h Hmin He HP HPq He0 Hx) as (N & Hv & HN & _ & H34 & H12).
  exists N. repeat split; try assumption; lia.
Qed.

(** Between [valueMin + 1] and [2^24 - 1] cycles [frequency(float)]
    stores [N - 1] for an integer [N] within three quarters of a cycle
    of the exact quotient [F_BUS / newFrequency], within half a cycle
    from [2^23] cycles on. *)
Lemma set_frequency_stored (T : Target) (hz : float) (t : PITimer) (h : Hw) :
  0 < F_BUS T ->
  (SF2Q (int_to_float (F_BUS T)) == inject_Z (F_BUS T))%Q ->
  0 <= valueMin T ->
  (0 < SF2Q hz)%Q ->
  (inject_Z (valueMin T) + 1 <= inject_Z (F_BUS T) / SF2Q hz <= 16777215)%Q ->
  exists N,
    value (fst (set_frequency T hz t h)) = N - 1 /\
    valueMin T + 1 <= N <= 16777215 /\
    (Qabs (inject_Z N - inject_Z (F_BUS T) / SF2Q hz) <= 3 # 4)%Q /\
    ((8388608 <= inject_Z (F_BUS T) / SF2Q hz)%Q ->
     (Qabs (inject_Z N - inject_Z (F_BUS T) / SF2Q hz) <= 1 # 2)%Q).
Proof.
  intros HF HFf Hmin Hhz Hx.
  assert (HF' : (0 < inject_Z (F_BUS T))%Q).
  { change 0%Q with (inject_Z 0). rewrite <- Zlt_Qlt. lia. }
  assert (Hmin' : (0 <= inject_Z (valueMin T))%Q) by (apply inject_Z_nonneg; lia).
  destruct (SF2Q_pos_finite (int_to_float (F_BUS T))) as (mF & eF & EF); [lra|].
  destruct (SF2Q_pos_finite hz) as (mh & eh & ->); [assumption|].
  rewrite EF in HFf.
  set (z := (inject_Z (F_BUS T) / SF2Q (S754_finite false mh eh))%Q) in *.
  assert (Hz : (z * SF2Q (S754_finite false mh eh) == SF2Q (S754_finite false mF eF))%Q).
  { rewrite HFf. unfold z. field. lra. }
  clearbody z.
  destruct (fdiv_cycles mF eF mh eh z Hz) as (m & e & EP & He & HP & HPq & He0 & _); [lra|].
  unfold set_frequency, frequency_cycles. rewrite EF, EP.
  destruct (cycles_stored T m e z t h Hmin He HP HPq He0 Hx) as (N & Hv & HN & _ & H34 & H12).
  exists N. repeat split; try assumption; lia.
Qed.

(** ** The period read back *)

Lemma Zlt_Q_lt (a b : Z) : (inject_Z a < inject_Z b)%Q -> a < b.
Proof. intros H. rewrite Zlt_Qlt. exact H. Qed.

Lemma Zle_Q_le (a b : Z) : (inject_Z a <= inject_Z b)%Q -> a <= b.
Proof. intros H. rewrite Zle_Qle. exact H. Qed.

(** Two numbers [2P] and [2B], both integers, cannot be as follows: [P]
    is a float product within a quarter of [x], [N] is [P] rounded half
    up, [B = x + U], [N] is at least [x + 2U] and [U] is more than a
    third. *)
Lemma half_grid_gap (N K J : Z) (x U P : Q) :
  (2 * P == inject_Z K)%Q ->
  (2 * (x + U) == inject_Z J)%Q ->
  (inject_Z N <= P + (1 # 2) < inject_Z N + 1)%Q ->
  (- (1 # 4) <= P - x <= 1 # 4)%Q ->
  (x + 2 * U <= inject_Z N)%Q ->
  (1 < 3 * U)%Q ->
  False.
Proof.
  intros HK HJ HN HP Hgap HU.
  assert (HK1 : 2 * N - 1 <= K).
  { apply Zle_Q_le. unfold Z.sub. rewrite inject_Z_plus, inject_Z_mult.
    change (inject_Z 2) with 2%Q. change (inject_Z (- (1))) with (- (1))%Q. lra. }
  assert (HK2 : K < 2 * N + 1).
  { apply Zlt_Q_lt. rewrite inject_Z_plus, inject_Z_mult.
    change (inject_Z 2) with 2%Q. change (inject_Z 1) with 1%Q. lra. }
  assert (HJ1 : 2 * N - 1 < J).
  { apply Zlt_Q_lt. unfold Z.sub. rewrite inject_Z_plus, inject_Z_mult.
    change (inject_Z 2) with 2%Q. change (inject_Z (- (1))) with (- (1))%Q.
    destruct (Z.eq_dec K (2 * N)) as [E|E].
    - exfalso. rewrite E, inject_Z_mult in HK. change (inject_Z 2) with 2%Q in HK. lra.
    - assert (E' : K = 2 * N - 1) by lia.
      rewrite E' in HK. unfold Z.sub in HK. rewrite inject_Z_plus, inject_Z_mult in HK.
      change (inject_Z 2) with 2%Q in HK. change (inject_Z (- (1))) with (- (1))%Q in HK.
      lra. }
  assert (HJ2 : J < 2 * N).
  { apply Zlt_Q_lt. rewrite inject_Z_mult. change (inject_Z 2) with 2%Q. lra. }
  lia.
Qed.

(** The quotient read back lies on the grid of the period or on that of
    a neighbouring binade; with the half-unit bound of the division and
    the three-quarter bound of the stored count it is within one cycle
    of the period.  [U] is the unit in the last place of the period and
    [W] that of the quotient, both in cycles. *)
Section Grid.

Variables (mp mG N : Z) (x U W P : Q).
Hypothesis Hmp : 8388608 <= mp < 16777216.
Hypothesis HmG : 8388608 <= mG < 16777216.
Hypothesis HU : (0 < U)%Q.
Hypothesis HW : (0 < W)%Q.
Hypothesis Hx : (x == inject_Z mp * U)%Q.
Hypothesis Hx1 : (1 <= x <= 16777215)%Q.
Hypothesis HN : 1 <= N.
Hypothesis H34 : (- (3 # 4) <= inject_Z N - x <= 3 # 4)%Q.
Hypothesis H12 : (8388608 <= x)%Q -> (- (1 # 2) <= inject_Z N - x <= 1 # 2)%Q.
Hypothesis HG : (- (W * (1 # 2)) <= inject_Z mG * W - inject_Z N <= W * (1 # 2))%Q.
Hypothesis HGq : mG = 8388608 -> (inject_Z mG * W - inject_Z N <= W * (1 # 4))%Q.

Lemma grid_bounds :
  (8388608 <= inject_Z mp <= 16777215)%Q /\ (8388608 <= inject_Z mG <= 16777215)%Q /\
  (1 <= inject_Z N)%Q.
Proof.
  repeat split.
  - change 8388608%Q with (inject_Z 8388608). rewrite <- Zle_Qle. lia.
  - change 16777215%Q with (inject_Z 16777215). rewrite <- Zle_Qle. lia.
  - change 8388608%Q with (inject_Z 8388608). rewrite <- Zle_Qle. lia.
  - change 16777215%Q with (inject_Z 16777215). rewrite <- Zle_Qle. lia.
  - change 1%Q with (inject_Z 1). rewrite <- Zle_Qle. lia.
Qed.

(** Multiples of a unit, compared through their factors. *)
Lemma times_unit (u a b : Q) : (0 < u)%Q -> (a <= b)%Q -> (a * u <= b * u)%Q.
Proof. intros Hu Hab. apply Qmult_le_compat_r; [assumption | apply Qlt_le_weak; assumption]. Qed.

(** Below [2^23] cycles the unit of the period is less than one cycle. *)
Lemma unit_below_1 : (x < 8388608)%Q -> (U < 1)%Q.
Proof.
  intros H. destruct grid_bounds as ((Ha & _) & _ & _).
  pose proof (times_unit U _ _ HU Ha). lra.
Qed.

(** Same binade. *)
Lemma grid_same : (W == U)%Q -> (- (1) <= inject_Z mG * W - x <= 1)%Q.
Proof.
  intros E. rewrite E in *.
  destruct grid_bounds as ((Ha & Ha') & (Hg & Hg') & Hn).
  assert (Hd : (inject_Z (mG - mp) == inject_Z mG - inject_Z mp)%Q).
  { unfold Z.sub. rewrite inject_Z_plus, inject_Z_opp. reflexivity. }
  destruct (Z_lt_le_dec (mG - mp) (-1)) as [Hk|Hk].
  - assert (Hk' : (inject_Z mG - inject_Z mp <= - (2))%Q).
    { rewrite <- Hd. change (- (2))%Q with (inject_Z (-2)). rewrite <- Zle_Qle. lia. }
    pose proof (times_unit U _ _ HU Hk'). rewrite Hx in *. lra.
  - destruct (Z_lt_le_dec 1 (mG - mp)) as [Hk2|Hk2].
    + assert (Hk' : (2 <= inject_Z mG - inject_Z mp)%Q).
      { rewrite <- Hd. change 2%Q with (inject_Z 2). rewrite <- Zle_Qle. lia. }
      pose proof (times_unit U _ _ HU Hk'). rewrite Hx in *. lra.
    + assert (HU1' : (U <= 1)%Q \/ (8388608 <= x)%Q).
      { destruct (Qlt_le_dec x 8388608) as [Hlo|Hhi]; [left|right; assumption].
        apply Qlt_le_weak, unit_below_1. assumption. }
      assert (Hc : mG - mp = -1 \/ mG - mp = 0 \/ mG - mp = 1) by lia.
      destruct Hc as [Hc | [Hc | Hc]]; rewrite Hc in Hd.
      * assert (Hp : ((inject_Z mG - inject_Z mp) * U == - (1) * U)%Q)
          by (rewrite <- Hd; reflexivity).
        destruct HU1' as [Hlo|Hhi]; [|specialize (H12 Hhi)]; rewrite Hx in *; lra.
      * assert (Hp : ((inject_Z mG - inject_Z mp) * U == 0 * U)%Q)
          by (rewrite <- Hd; reflexivity).
        rewrite Hx in *. lra.
      * assert (Hp : ((inject_Z mG - inject_Z mp) * U == 1 * U)%Q)
          by (rewrite <- Hd; reflexivity).
        destruct HU1' as [Hlo|Hhi]; [|specialize (H12 Hhi)]; rewrite Hx in *; lra.
Qed.

(** A binade further away is out of reach. *)
Lemma grid_far_above : (4 * U <= W)%Q -> False.
Proof.
  intros E. rewrite Hx in *.
  destruct grid_bounds as ((Ha & Ha') & (Hg & Hg') & Hn).
  pose proof (times_unit W _ _ HW Hg).
  pose proof (times_unit U _ _ HU Ha').
  lra.
Qed.

Lemma grid_far_below : (4 * W <= U)%Q -> False.
Proof.
  intros E. rewrite Hx in *.
  destruct grid_bounds as ((Ha & Ha') & (Hg & Hg') & Hn).
  pose proof (times_unit W _ _ HW Hg').
  pose proof (times_unit U _ _ HU Ha).
  lra.
Qed.

(** The binade below. *)
Lemma grid_below : (2 * W == U)%Q -> (- (1) <= inject_Z mG * W - x <= 1)%Q.
Proof.
  intros E. rewrite Hx in *. rewrite <- E in *.
  destruct grid_bounds as ((Ha & Ha') & (Hg & Hg') & Hn).
  assert (Hd : (inject_Z (2 * mp - mG) == 2 * inject_Z mp - inject_Z mG)%Q).
  { unfold Z.sub. rewrite inject_Z_plus, inject_Z_opp, inject_Z_mult. reflexivity. }
  pose proof (times_unit W _ _ HW Ha) as HW1.
  destruct (Z_lt_le_dec 1 (2 * mp - mG)) as [Hk|Hk].
  - assert (Hk' : (2 <= 2 * inject_Z mp - inject_Z mG)%Q).
    { rewrite <- Hd. change 2%Q with (inject_Z 2). rewrite <- Zle_Qle. lia. }
    pose proof (times_unit W _ _ HW Hk'). lra.
  - assert (Hc : 2 * mp - mG = 1) by lia. rewrite Hc in Hd.
    assert (Hp : ((2 * inject_Z mp - inject_Z mG) * W == 1 * W)%Q)
      by (rewrite <- Hd; reflexivity).
    lra.
Qed.

(** The binade above.  Here the bounds alone leave room for a quotient
    three units above the period; the product [P] and the binade
    boundary are both multiples of one half, which excludes it. *)
Hypothesis HNr : (inject_Z N <= P + (1 # 2) < inject_Z N + 1)%Q.
Hypothesis HP4 : (x < 8388608)%Q -> (- (1 # 4) <= P - x <= 1 # 4)%Q.
Hypothesis HP2 : (4194304 <= x)%Q -> exists K, (2 * P == inject_Z K)%Q.
Hypothesis HB : (4194304 <= 16777216 * U)%Q -> exists J, (33554432 * U == inject_Z J)%Q.

Lemma grid_above : (W == 2 * U)%Q -> (- (1) <= inject_Z mG * W - x <= 1)%Q.
Proof.
  intros E. rewrite E in *.
  destruct grid_bounds as ((Ha & Ha') & (Hg & Hg') & Hn).
  assert (Hd : (inject_Z (2 * mG - mp) == 2 * inject_Z mG - inject_Z mp)%Q).
  { unfold Z.sub. rewrite inject_Z_plus, inject_Z_opp, inject_Z_mult. reflexivity. }
  assert (HU1 : (8388608 <= x)%Q \/ (U < 1)%Q).
  { destruct (Qlt_le_dec x 8388608) as [Hlo|Hhi]; [right|left; assumption].
    apply unit_below_1. assumption. }
  destruct (Z_lt_le_dec 3 (2 * mG - mp)) as [Hk|Hk].
  - assert (Hk' : (4 <= 2 * inject_Z mG - inject_Z mp)%Q).
    { rewrite <- Hd. change 4%Q with (inject_Z 4). rewrite <- Zle_Qle. lia. }
    pose proof (times_unit U _ _ HU Hk'). rewrite Hx in *. lra.
  - destruct (Z.eq_dec mG 8388608) as [Hq|Hq].
    + specialize (HGq Hq).
      assert (Eg : (inject_Z mG == 8388608)%Q) by (rewrite Hq; reflexivity).
      rewrite Eg in *. rewrite Hx in *.
      destruct HU1 as [Hhi | Hlo].
      * specialize (H12 Hhi).
        assert (Hk' : (1 <= 16777216 - inject_Z mp)%Q) by lra.
        pose proof (times_unit U _ _ HU Hk'). lra.
      * assert (Hc : mp = 16777215 \/ mp = 16777214 \/ mp = 16777213) by lia.
        destruct Hc as [Hc | [Hc | Hc]]; rewrite Hc in *.
        -- change (inject_Z 16777215) with 16777215%Q in *. split; lra.
        -- change (inject_Z 16777214) with 16777214%Q in *. split; lra.
        -- change (inject_Z 16777213) with 16777213%Q in *. split; lra.
    + assert (Hc : mG = 8388609 /\ mp = 16777215) by lia.
      destruct Hc as (Hc1 & Hc2).
      assert (Eg : (inject_Z mG == 8388609)%Q) by (rewrite Hc1; reflexivity).
      assert (Ea : (inject_Z mp == 16777215)%Q) by (rewrite Hc2; reflexivity).
      rewrite Eg, Ea in *.
      assert (Hres : (8388609 * (2 * U) - x == 3 * U)%Q) by (rewrite Hx; ring).
      rewrite Hres.
      split; [lra|].
      destruct (Qlt_le_dec 1 (3 * U)) as [Hbig|]; [exfalso|assumption].
      assert (Hgap : (x + 2 * U <= inject_Z N)%Q) by lra.
      assert (Hx22 : (4194304 <= x)%Q) by lra.
      assert (Hx23 : (x < 8388608)%Q).
      { destruct (Qlt_le_dec x 8388608) as [|Hhi]; [assumption|].
        specialize (H12 Hhi). lra. }
      destruct (HP2 Hx22) as (K & HK).
      destruct HB as (J & HJ); [lra|].
      apply (half_grid_gap N K J x U P); try assumption.
      * rewrite <- HJ, Hx. ring.
      * apply HP4. assumption.
Qed.

End Grid.

(** A bound in cycles, read in seconds. *)
Lemma cycles_to_seconds (d F u : Q) :
  (0 < F)%Q -> (u * F == 1)%Q -> (- (1) <= d * F <= 1)%Q -> (- u <= d <= u)%Q.
Proof.
  intros HF Hu Hd.
  assert (Hu0 : (0 < u)%Q).
  { destruct (Qlt_le_dec 0 u) as [|Hle]; [assumption|exfalso].
    assert (u * F <= 0 * F)%Q by (apply Qmult_le_compat_r; lra). lra. }
  assert (E : (d == d * F * u)%Q).
  { transitivity (d * (u * F))%Q; [rewrite Hu; ring | ring]. }
  assert (H1 : (d * F * u <= 1 * u)%Q) by (apply Qmult_le_compat_r; lra).
  assert (H2 : (- (1) * u <= d * F * u)%Q) by (apply Qmult_le_compat_r; lra).
  lra.
Qed.

(** A quotient of at least one cycle over a bus frequency below [2^32]
    is not a number with an exponent of [-60] or less. *)
Lemma quotient_not_tiny (g n F b : Q) :
  (0 < F < 4294967296)%Q -> (0 < b <= 1 # 1152921504606846976)%Q ->
  (0 < g < 16777216)%Q -> (1 <= n)%Q ->
  (- (F * b * (1 # 2)) <= g * (F * b) - n)%Q -> False.
Proof.
  intros HF Hb Hg Hn H.
  assert (H1 : (F * b <= 4294967296 * b)%Q) by (apply Qmult_le_compat_r; lra).
  assert (H2 : (g * (F * b) <= 16777216 * (F * b))%Q).
  { apply Qmult_le_compat_r; [lra|]. apply Qmult_le_0_compat; lra. }
  lra.
Qed.

(** The units of two binades, compared through their exponents. *)
Lemma units_le (F a b c : Q) : (0 < F)%Q -> (c * a <= b)%Q -> (c * (F * a) <= F * b)%Q.
Proof.
  intros HF H. assert ((c * a) * F <= b * F)%Q by (apply Qmult_le_compat_r; lra). lra.
Qed.

(** C7, within the range where it holds: for a binary32 period between
    [valueMin + 1] and [2^24 - 1] bus cycles (0.35 s at 48 MHz), on a
    target whose [F_BUS] is a binary32 number, [period()] after
    [period(p)] differs from [p] by at most one bus cycle,
    [1 / F_BUS]. *)
Theorem period_round_trip (T : Target) (p : float) (t : PITimer) (h : Hw) :
  0 < F_BUS T < 2 ^ 32 ->
  (SF2Q (int_to_float (F_BUS T)) == inject_Z (F_BUS T))%Q ->
  0 <= valueMin T ->
  valid_binary 24 128 p = true ->
  (inject_Z (valueMin T) + 1 <= inject_Z (F_BUS T) * SF2Q p <= 16777215)%Q ->
  (Qabs (SF2Q (period T (fst (set_period T p t h))) - SF2Q p)
   <= 1 / inject_Z (F_BUS T))%Q.
Proof.
  intros HF HFf Hmin Hvalid Hx.
  destruct bpow_values as (B150 & B30 & B25 & B24' & B2 & B1 & B22 & B23 & B24 & B53 & B32).
  assert (HF' : (0 < inject_Z (F_BUS T))%Q).
  { change 0%Q with (inject_Z 0). rewrite <- Zlt_Qlt. lia. }
  assert (HF1 : (1 <= inject_Z (F_BUS T))%Q).
  { change 1%Q with (inject_Z 1). rewrite <- Zle_Qle. lia. }
  assert (HF32 : (inject_Z (F_BUS T) < 4294967296)%Q).
  { change 4294967296%Q with (inject_Z (2 ^ 32)). rewrite <- Zlt_Qlt. lia. }
  assert (Hmin' : (0 <= inject_Z (valueMin T))%Q) by (apply inject_Z_nonneg; lia).
  destruct (SF2Q_pos_finite (int_to_float (F_BUS T))) as (mF & eF & EF); [lra|].
  destruct (SF2Q_pos_finite p) as (mp & ep & ->); [nra|].
  pose proof (int_to_float_mantissa _ _ _ _ EF) as HmF.
  rewrite EF in HFf.
  (* the period is a normal number *)
  destruct (valid_binary_mantissa _ _ _ Hvalid) as (Hmp24 & Hep & Hpnorm).
  change (2 ^ 24) with 16777216 in *. change (2 ^ 23) with 8388608 in *.
  set (F := inject_Z (F_BUS T)) in *.
  set (U := (F * bpow ep)%Q).
  assert (HU : (0 < U)%Q) by (pose proof (bpow_pos ep); unfold U; nra).
  assert (HxU : (F * SF2Q (S754_finite false mp ep) == inject_Z (Zpos mp) * U)%Q).
  { unfold U. cbn [SF2Q cond_Zopp]. ring. }
  set (x := (F * SF2Q (S754_finite false mp ep))%Q) in *.
  assert (Hmp : 8388608 <= Zpos mp < 16777216).
  { destruct Hpnorm as [->|]; [exfalso|lia].
    assert (Hm' : (inject_Z (Zpos mp) < 16777216)%Q).
    { change 16777216%Q with (inject_Z 16777216). rewrite <- Zlt_Qlt. lia. }
    assert (bpow (-149) <= bpow (-56))%Q by (apply bpow_le; lia).
    assert (bpow (-56) == 1 # 72057594037927936)%Q by reflexivity.
    pose proof (inject_Z_pos_gt0 mp).
    unfold U in *. nra. }
  (* the stored count *)
  destruct (fmul_cycles mF eF mp ep) as (m & e & EP & He & HPhalf & HPq & He0 & He1).
  { rewrite HFf. fold x. lra. }
  rewrite HFf in HPhalf, HPq, He0, He1. fold x in HPhalf, HPq, He0, He1.
  destruct (cycles_stored T m e x t h Hmin He HPhalf HPq He0 Hx)
    as (N & Hval & HN & HNr & H34 & H12).
  assert (Hstored : value (fst (set_period T (S754_finite false mp ep) t h)) = N - 1).
  { unfold set_period, period_cycles. rewrite EF, EP. exact Hval. }
  set (P := SF2Q (S754_finite false m e)) in *.
  assert (HN1 : (1 <= inject_Z N <= 16777215)%Q).
  { split.
    - change 1%Q with (inject_Z 1). rewrite <- Zle_Qle. lia.
    - change 16777215%Q with (inject_Z 16777215). rewrite <- Zle_Qle. lia. }
  (* the quotient read back *)
  unfold period. rewrite Hstored.
  replace (to_uint32 (N - 1 + 1)) with N
    by (symmetry; replace (N - 1 + 1) with N by lia; apply to_uint32_small; unfold UINT32_MAX; lia).
  destruct (int_to_float_exact N ltac:(lia)) as (HfN & HvN).
  destruct (SF2Q_pos_finite (int_to_float N)) as (mN & eN & EN); [lra|].
  rewrite EN in HvN. rewrite EN, EF.
  set (z := (inject_Z N / F)%Q).
  assert (Hz : (z * F == inject_Z N)%Q).
  { unfold z. field. lra. }
  clearbody z.
  assert (Hz0 : (0 < z)%Q) by nra.
  assert (HzN : (z <= inject_Z N)%Q) by nra.
  destruct (SFdiv_pos 24 128 ltac:(lia) mN eN mF eF z)
    as (mG & eG & EG & HmG & HeG & Habs & Hcan & Hquart).
  { cbn [SF2Q cond_Zopp] in HvN, HFf. rewrite HvN, HFf. exact Hz. }
  { change (emin 24 128 - 1) with (-150).
    assert (bpow (-150) <= bpow (-33))%Q by (apply bpow_le; lia).
    assert (bpow (-33) == 1 # 8589934592)%Q by reflexivity.
    nra. }
  { pose proof (bpow_le 24 (128 - 24) ltac:(lia)). lra. }
  unfold fdiv. rewrite EG.
  change (emin 24 128) with (-149) in *.
  change (2 ^ (24 - 1)) with 8388608 in *. change (2 ^ 24) with 16777216 in *.
  set (W := (F * bpow eG)%Q).
  assert (HW : (0 < W)%Q) by (pose proof (bpow_pos eG); unfold W; nra).
  apply Qabs_Qle_condition in Habs.
  assert (HGW : (SF2Q (S754_finite false mG eG) * F == inject_Z (Zpos mG) * W)%Q).
  { unfold W. cbn [SF2Q cond_Zopp]. ring. }
  assert (HG : (- (W * (1 # 2)) <= inject_Z (Zpos mG) * W - inject_Z N <= W * (1 # 2))%Q).
  { rewrite <- HGW, <- Hz. cbn [SF2Q cond_Zopp]. unfold W. pose proof (bpow_pos eG). split; nra. }
  assert (HeG149 : -149 < eG).
  { destruct (Z.eq_dec eG (-149)) as [Hemin|]; [exfalso|lia].
    assert (Hm' : (inject_Z (Zpos mG) < 16777216)%Q).
    { change 16777216%Q with (inject_Z 16777216). rewrite <- Zlt_Qlt. lia. }
    assert (Hb60 : (bpow eG <= bpow (-60))%Q) by (apply bpow_le; lia).
    assert (B60 : (bpow (-60) == 1 # 1152921504606846976)%Q) by reflexivity.
    rewrite B60 in Hb60.
    pose proof (inject_Z_pos_gt0 mG). pose proof (bpow_pos eG).
    apply (quotient_not_tiny (inject_Z (Zpos mG)) (inject_Z N) F (bpow eG));
      try (split; assumption); try lra.
    apply (proj1 HG). }
  assert (HGnorm : 8388608 <= Zpos mG /\ -149 < eG).
  { split; [|assumption]. destruct Hcan as [Hemin|Hn]; [lia | assumption]. }
  clear HeG149.
  destruct HGnorm as (HmG23 & HeG149).
  assert (HGq : Zpos mG = 8388608 ->
                (inject_Z (Zpos mG) * W - inject_Z N <= W * (1 # 4))%Q).
  { intros Hq. specialize (Hquart HeG149 Hq).
    rewrite <- HGW, <- Hz. cbn [SF2Q cond_Zopp]. unfold W. nra. }
  (* both grids hold multiples of one half where it matters *)
  apply Qabs_Qle_condition in HPhalf.
  assert (HP4 : (x < 8388608)%Q -> (- (1 # 4) <= P - x <= 1 # 4)%Q).
  { intros Hlo. apply Qabs_Qle_condition. apply HPq. exact Hlo. }
  assert (HP2 : (4194304 <= x)%Q -> exists K, (2 * P == inject_Z K)%Q).
  { intros Hx22. specialize (He1 Hx22). exists (Zpos m * 2 ^ (e + 1)).
    unfold P. cbn [SF2Q cond_Zopp]. rewrite inject_Z_mult, <- bpow_Z, bpow_succ by lia. ring. }
  assert (HB : (4194304 <= 16777216 * U)%Q -> exists J, (33554432 * U == inject_Z J)%Q).
  { intros HB22.
    assert (HUF : (33554432 * U == inject_Z (Zpos mF) * bpow (eF + ep + 25))%Q).
    { unfold U. rewrite <- HFf. cbn [SF2Q cond_Zopp].
      rewrite !bpow_add. change (bpow 25) with 33554432%Q. ring. }
    destruct (Z_lt_le_dec (eF + ep + 25) 0) as [Hneg|Hnn].
    - exfalso.
      pose proof (bpow_le (eF + ep + 25) (-1) ltac:(lia)) as Hle. rewrite B1 in Hle.
      assert (Hm' : (inject_Z (Zpos mF) < 16777216)%Q).
      { change 16777216%Q with (inject_Z 16777216). rewrite <- Zlt_Qlt. lia. }
      pose proof (bpow_pos (eF + ep + 25)). pose proof (inject_Z_pos_gt0 mF). nra.
    - exists (Zpos mF * 2 ^ (eF + ep + 25)).
      rewrite HUF, inject_Z_mult, <- bpow_Z by lia. reflexivity. }
  apply Qabs_Qle_condition in H34.
  assert (H12' : (8388608 <= x)%Q -> (- (1 # 2) <= inject_Z N - x <= 1 # 2)%Q).
  { intros Hhi. apply Qabs_Qle_condition. apply H12. exact Hhi. }
  assert (Hx1 : (1 <= x <= 16777215)%Q) by lra.
  assert (Hcycles : (- (1) <= inject_Z (Zpos mG) * W - x <= 1)%Q).
  { destruct (Z_lt_le_dec eG (ep - 1)) as [Hd|Hd].
    - exfalso. apply (grid_far_below (Zpos mp) (Zpos mG) N x U W); try assumption; try lia.
      pose proof (bpow_le eG (ep - 2) ltac:(lia)) as Hle.
      replace (ep - 2) with (ep + -2) in Hle by lia. rewrite bpow_add, B2 in Hle.
      unfold W, U. apply units_le; lra.
    - destruct (Z_lt_le_dec (ep + 1) eG) as [Hd'|Hd'].
      + exfalso. apply (grid_far_above (Zpos mp) (Zpos mG) N x U W); try assumption; try lia.
        pose proof (bpow_le (ep + 2) eG ltac:(lia)) as Hle.
        rewrite bpow_add in Hle. change (bpow 2) with 4%Q in Hle.
        unfold W, U. apply units_le; lra.
      + assert (Hc : eG = ep - 1 \/ eG = ep \/ eG = ep + 1) by lia.
        destruct Hc as [Hc | [Hc | Hc]].
        * apply (grid_below (Zpos mp) (Zpos mG) N x U W); try assumption; try lia.
          unfold W, U. rewrite Hc, bpow_pred. ring.
        * apply (grid_same (Zpos mp) (Zpos mG) N x U W); try assumption; try lia.
          unfold W, U. rewrite Hc. reflexivity.
        * apply (grid_above (Zpos mp) (Zpos mG) N x U W P); try assumption; try lia.
          unfold W, U. rewrite Hc, bpow_succ. ring. }
  rewrite <- HGW in Hcycles.
  set (G := SF2Q (S754_finite false mG eG)) in *.
  set (q := SF2Q (S754_finite false mp ep)) in *.
  set (u := (1 / F)%Q).
  assert (Hu : (u * F == 1)%Q) by (unfold u; field; lra).
  clearbody u.
  apply Qabs_Qle_condition.
  apply (cycles_to_seconds (G - q) F u HF' Hu).
  unfold x in Hcycles. fold q in Hcycles. lra.
Qed.

Lemma period_round_trip_witness :
  (Qabs (SF2Q (period (teensy 15)
                 (fst (set_period (teensy 15) float_3_10 (idle 0 48000000) hw0)))
         - SF2Q float_3_10)
   <= 1 / inject_Z (F_BUS (teensy 15)))%Q.
Proof.
  apply (period_round_trip (teensy 15) float_3_10 (idle 0 48000000) hw0).
  - cbn. lia.
  - vm_compute. reflexivity.
  - cbn. lia.
  - reflexivity.
  - vm_compute. split; discriminate.
Defined.

(** ** The setters below 2^24 cycles *)

(** On a target whose [F_BUS] is a binary32 number: for a period
    between [valueMin + 1] and [2^24 - 1] bus cycles [period(float)]
    stores [N - 1] for an integer [N] within three quarters of a cycle
    of [F_BUS * newPeriod], and for a positive frequency whose period
    lies in that range [frequency(float)] stores [N - 1] for an integer
    [N] within three quarters of a cycle of [F_BUS / newFrequency];
    within half a cycle from [2^23] cycles on.  Nothing is clamped and
    the subtraction of 1 is exact. *)
Theorem setters_store_rounded_cycles (T : Target) (t : PITimer) (h : Hw) :
  0 < F_BUS T ->
  (SF2Q (int_to_float (F_BUS T)) == inject_Z (F_BUS T))%Q ->
  0 <= valueMin T ->
  (forall p : float,
      (inject_Z (valueMin T) + 1 <= inject_Z (F_BUS T) * SF2Q p <= 16777215)%Q ->
      exists N,
        value (fst (set_period T p t h)) = N - 1 /\
        valueMin T + 1 <= N <= 16777215 /\
        (Qabs (inject_Z N - inject_Z (F_BUS T) * SF2Q p) <= 3 # 4)%Q /\
        ((8388608 <= inject_Z (F_BUS T) * SF2Q p)%Q ->
         (Qabs (inject_Z N - inject_Z (F_BUS T) * SF2Q p) <= 1 # 2)%Q)) /\
  (forall hz : float,
      (0 < SF2Q hz)%Q ->
      (inject_Z (valueMin T) + 1 <= inject_Z (F_BUS T) / SF2Q hz <= 16777215)%Q ->
      exists N,
        value (fst (set_frequency T hz t h)) = N - 1 /\
        valueMin T + 1 <= N <= 16777215 /\
        (Qabs (inject_Z N - inject_Z (F_BUS T) / SF2Q hz) <= 3 # 4)%Q /\
        ((8388608 <= inject_Z (F_BUS T) / SF2Q hz)%Q ->
         (Qabs (inject_Z N - inject_Z (F_BUS T) / SF2Q hz) <= 1 # 2)%Q)).
Proof.
  intros HF HFf Hmin. split.
  - intros p Hp. apply set_period_stored; assumption.
  - intros hz Hhz Hx. apply set_frequency_stored; assumption.
Qed.

Lemma setters_store_rounded_cycles_witness :
  (exists N, value (fst (set_period (teensy 15) float_1000th (idle 0 48000000) hw0)) = N - 1 /\
             valueMin (teensy 15) + 1 <= N <= 16777215 /\
             (Qabs (inject_Z N - inject_Z (F_BUS (teensy 15)) * SF2Q float_1000th)
              <= 3 # 4)%Q /\
             ((8388608 <= inject_Z (F_BUS (teensy 15)) * SF2Q float_1000th)%Q ->
              (Qabs (inject_Z N - inject_Z (F_BUS (teensy 15)) * SF2Q float_1000th)
               <= 1 # 2)%Q)) /\
  (exists N, value (fst (set_frequency (teensy 15) float_1000 (idle 0 48000000) hw0)) = N - 1 /\
             valueMin (teensy 15) + 1 <= N <= 16777215 /\
             (Qabs (inject_Z N - inject_Z (F_BUS (teensy 15)) / SF2Q float_1000)
              <= 3 # 4)%Q /\
             ((8388608 <= inject_Z (F_BUS (teensy 15)) / SF2Q float_1000)%Q ->
              (Qabs (inject_Z N - inject_Z (F_BUS (teensy 15)) / SF2Q float_1000)
               <= 1 # 2)%Q)).
Proof.
  destruct (setters_store_rounded_cycles (teensy 15) (idle 0 48000000) hw0) as (Hp & Hf).
  - cbn. lia.
  - vm_compute. reflexivity.
  - cbn. lia.
  - split.
    + apply Hp. vm_compute. split; discriminate.
    + apply Hf; [vm_compute; reflexivity | vm_compute; split; discriminate].
Defined.

(** ** The constructor, and objects without a channel *)

Lemma to_uint8_small (z : Z) : 0 <= z <= 255 -> to_uint8 z = z.
Proof. intros H. unfold to_uint8. apply Z.mod_small. change (2 ^ 8) with 256. lia. Qed.

(** Case analysis on the identifier, as the methods branch on it. *)
Ltac by_id t :=
  let E := fresh "E" in
  destruct (Z.eqb_spec (myID t) 0) as [E|?];
  [ try rewrite E in * |
    destruct (Z.eqb_spec (myID t) 1) as [E|?];
    [ try rewrite E in * |
      destruct (Z.eqb_spec (myID t) 2) as [E|?];
      [ try rewrite E in * |
        destruct (Z.eqb_spec (myID t) 3) as [E|?];
        [ try rewrite E in * | ] ] ] ].

(** The constructor, for an identifier from 0 to 3 on a target with
    [valueMin <= F_BUS <= UINT32_MAX - 1]: the object gets the
    identifier and a reload value of [F_BUS] cycles and is not running.
    The hardware sees three stores, in this order: the clock gate
    [SIM_SCGC6] with the PIT bit set and its other bits kept, 0 to the
    module control register, and [F_BUS] to the reload register of the
    channel.  No control register is written and no interrupt vector
    changes: a constructed timer does not count. *)
Theorem constructor_effects (T : Target) (timerID : Z) (h : Hw) :
  0 <= timerID <= 3 ->
  0 <= valueMin T <= F_BUS T ->
  F_BUS T <= UINT32_MAX - 1 ->
  myID (fst (PITimer_new T timerID h)) = timerID /\
  value (fst (PITimer_new T timerID h)) = F_BUS T /\
  running (fst (PITimer_new T timerID h)) = false /\
  bus (snd (PITimer_new T timerID h)) =
    bus h ++ [Store SIM_SCGC6 (Z.lor (reg_val h SIM_SCGC6) (SIM_SCGC6_PIT T));
              Store PIT_MCR 0;
              Store (PIT_LDVAL timerID) (F_BUS T)] /\
  (forall i, Z.testbit (reg_val (snd (PITimer_new T timerID h)) SIM_SCGC6) i =
             Z.testbit (reg_val h SIM_SCGC6) i || Z.testbit (SIM_SCGC6_PIT T) i) /\
  reg_val (snd (PITimer_new T timerID h)) PIT_MCR = 0 /\
  reg_val (snd (PITimer_new T timerID h)) (PIT_LDVAL timerID) = F_BUS T /\
  (forall n, reg_val (snd (PITimer_new T timerID h)) (PIT_TCTRL n) = reg_val h (PIT_TCTRL n)) /\
  (forall i, irq_on (snd (PITimer_new T timerID h)) i = irq_on h i).
Proof.
  intros Hid Hmin Hmax.
  assert (Hv : to_uint32 (F_BUS T) = F_BUS T).
  { apply to_uint32_small. unfold UINT32_MAX in *. lia. }
  assert (Hc : (if F_BUS T =? UINT32_MAX then UINT32_MAX - 1
                else if F_BUS T <? valueMin T then valueMin T else F_BUS T) = F_BUS T).
  { unfold UINT32_MAX in *. destruct (Z.eqb_spec (F_BUS T) 4294967295); [lia|].
    destruct (Z.ltb_spec (F_BUS T) (valueMin T)); lia. }
  unfold PITimer_new, set_value, writeValue, value, running.
  rewrite Hv, Hc. cbn [fst snd myID myValue isRunning with_myValue].
  rewrite (to_uint8_small timerID) by lia.
  assert (Hcase : timerID = 0 \/ timerID = 1 \/ timerID = 2 \/ timerID = 3) by lia.
  destruct Hcase as [-> | [-> | [-> | ->]]]; cbn;
    repeat split; try (rewrite <- !app_assoc; reflexivity);
    intros i; apply Z.lor_spec.
Qed.

Lemma constructor_effects_witness :
  bus (snd (PITimer_new (teensy 15) 1 hw0)) =
  bus hw0 ++ [Store SIM_SCGC6 (Z.lor (reg_val hw0 SIM_SCGC6) (SIM_SCGC6_PIT (teensy 15)));
              Store PIT_MCR 0;
              Store (PIT_LDVAL 1) (F_BUS (teensy 15))].
Proof.
  refine (proj1 (proj2 (proj2 (proj2 (constructor_effects (teensy 15) 1 hw0 _ _ _))))).
  - lia.
  - cbn. lia.
  - unfold UINT32_MAX. cbn. lia.
Defined.

(** An object whose identifier is none of 0 to 3 (the constructor takes
    any [uint8_t]): no method accesses the hardware, the identifier
    stays, [current()] returns 0, and [start] still sets the running
    flag although no channel was started. *)
Theorem unknown_channel_inert (T : Target) (c : method_call) (cb : fnptr) (t : PITimer) (h : Hw) :
  ~ 0 <= myID t <= 3 ->
  snd (method T c t h) = h /\
  myID (fst (method T c t h)) = myID t /\
  current t h = 0 /\
  running (fst (start T cb t h)) = true /\
  snd (start T cb t h) = h.
Proof.
  intros Hid.
  assert (E0 : (myID t =? 0) = false) by (apply Z.eqb_neq; lia).
  assert (E1 : (myID t =? 1) = false) by (apply Z.eqb_neq; lia).
  assert (E2 : (myID t =? 2) = false) by (apply Z.eqb_neq; lia).
  assert (E3 : (myID t =? 3) = false) by (apply Z.eqb_neq; lia).
  repeat split.
  - destruct c; cbn [method]; unfold set_period, set_frequency, set_value, writeValue,
      start, clear, reset, stop;
      cbn [fst snd myID with_myValue with_myISR with_isRunning];
      rewrite E0, E1, E2, E3; reflexivity.
  - destruct c; reflexivity.
  - unfold current. rewrite E0, E1, E2, E3. reflexivity.
  - unfold start. cbn [fst snd myID with_myValue with_myISR with_isRunning].
    rewrite E0, E1, E2, E3. reflexivity.
Qed.

Lemma unknown_channel_inert_witness :
  snd (method (teensy 15) (Call_value 1000) (idle 7 48000000) hw0) = hw0.
Proof.
  refine (proj1 (unknown_channel_inert (teensy 15) (Call_value 1000) 4096 (idle 7 48000000) hw0 _)).
  cbn. lia.
Defined.

(** ** Every method keeps to its channel *)

Lemma reg_neq_eqb (r r' : reg) : r <> r' -> reg_eqb r r' = false.
Proof.
  intros H. destruct r, r'; try reflexivity; cbn; try congruence;
    apply Z.eqb_neq; congruence.
Qed.

Lemma store_other (r r' : reg) (v : Z) (h : Hw) :
  r' <> r -> reg_val (store r v h) r' = reg_val h r'.
Proof. intros H. unfold store. cbn [reg_val]. rewrite (reg_neq_eqb r' r H). reflexivity. Qed.

Lemma store_same (r : reg) (v : Z) (h : Hw) :
  (forall n, r <> PIT_TFLG n) -> reg_val (store r v h) r = v.
Proof.
  intros H. unfold store. cbn [reg_val].
  assert (E : reg_eqb r r = true) by (destruct r; cbn; try reflexivity; apply Z.eqb_refl).
  rewrite E. destruct r; try reflexivity. exfalso. apply (H n). reflexivity.
Qed.

(** What a method leaves alone: the registers of the other channels,
    the registers that belong to no channel, and the vectors of the
    other channels. *)
Lemma method_frame (T : Target) (c : method_call) (t : PITimer) (h : Hw) :
  myID (fst (method T c t h)) = myID t /\
  (forall r, r <> PIT_LDVAL (myID t) -> r <> PIT_TCTRL (myID t) -> r <> PIT_TFLG (myID t) ->
             reg_val (snd (method T c t h)) r = reg_val h r) /\
  (forall i, i <> IRQ_PIT_CH T (myID t) -> irq_on (snd (method T c t h)) i = irq_on h i).
Proof.
  split; [destruct c; reflexivity|].
  split.
  - intros r HL HC HF.
    destruct c; cbn [method]; unfold set_period, set_frequency, set_value, writeValue,
      start, clear, reset, stop;
      cbn [fst snd myID with_myValue with_myISR with_isRunning];
      by_id t; cbn [nvic_enable nvic_disable reg_val];
      rewrite ?store_other by assumption; reflexivity.
  - intros i Hi.
    destruct c; cbn [method]; unfold set_period, set_frequency, set_value, writeValue,
      start, clear, reset, stop;
      cbn [fst snd myID with_myValue with_myISR with_isRunning];
      by_id t; cbn [nvic_enable nvic_disable store irq_on];
      try reflexivity;
      match goal with
      | |- context [i =? ?q] => destruct (Z.eqb_spec i q) as [Ei|_]; [contradiction | reflexivity]
      end.
Qed.


(** ** [reset] on a stopped timer *)

(** [reset()] does not look at the running flag.  For an identifier from
    0 to 3, [start] leaves 3 in the control register with the vector
    enabled and [stop] leaves 0 with the vector disabled; a [reset()]
    after the [stop] leaves 3 in the control register again, timer and
    interrupt request enabled, while the object still says it is not
    running and the vector stays disabled. *)
Theorem reset_after_stop (T : Target) (cb : fnptr) (t : PITimer) (h : Hw) :
  0 <= myID t <= 3 ->
  reg_val (snd (start T cb t h)) (PIT_TCTRL (myID t)) = 3 /\
  irq_on (snd (start T cb t h)) (IRQ_PIT_CH T (myID t)) = true /\
  reg_val (snd (stop T t h)) (PIT_TCTRL (myID t)) = 0 /\
  irq_on (snd (stop T t h)) (IRQ_PIT_CH T (myID t)) = false /\
  running (fst (reset (fst (stop T t h)) (snd (stop T t h)))) = false /\
  reg_val (snd (reset (fst (stop T t h)) (snd (stop T t h)))) (PIT_TCTRL (myID t)) = 3 /\
  irq_on (snd (reset (fst (stop T t h)) (snd (stop T t h)))) (IRQ_PIT_CH T (myID t)) = false.
Proof.
  intros Hid. unfold start, stop, reset, running.
  cbn [fst snd myID isRunning with_myISR with_isRunning].
  by_id t; [| | | | lia];
    cbn [nvic_enable nvic_disable store reg_val irq_on reg_eqb];
    rewrite ?Z.eqb_refl; repeat split.
Qed.

Lemma reset_after_stop_witness :
  reg_val (snd (reset (fst (stop (teensy 15) (idle 1 48000000) hw0))
                      (snd (stop (teensy 15) (idle 1 48000000) hw0)))) (PIT_TCTRL 1) = 3.
Proof.
  refine (proj1 (proj2 (proj2 (proj2 (proj2 (proj2
    (reset_after_stop (teensy 15) 4096 (idle 1 48000000) hw0 _))))))).
  cbn. lia.
Defined.

(** ** Objects and hardware in step *)

(** The reload register after a method that sets the value. *)
Lemma set_value_reload_eq (T : Target) (v : Z) (t : PITimer) (h : Hw) :
  0 <= myID t <= 3 ->
  reg_val (snd (set_value T v t h)) (PIT_LDVAL (myID t)) =
  value (fst (set_value T v t h)).
Proof.
  intros Hid. unfold set_value, writeValue, value. cbn [fst snd myID myValue with_myValue].
  by_id t; [| | | | lia]; cbn [store reg_val reg_eqb]; rewrite Z.eqb_refl; reflexivity.
Qed.

(** One call on an object in step with its channel leaves them in
    step. *)
Lemma method_in_step (T : Target) (c : method_call) (t : PITimer) (h : Hw) :
  0 <= valueMin T <= UINT32_MAX - 1 ->
  0 <= myID t <= 3 ->
  value_ok T t ->
  reg_val h (PIT_LDVAL (myID t)) = value t ->
  irq_on h (IRQ_PIT_CH T (myID t)) = running t ->
  value_ok T (fst (method T c t h)) /\
  reg_val (snd (method T c t h)) (PIT_LDVAL (myID t)) = value (fst (method T c t h)) /\
  irq_on (snd (method T c t h)) (IRQ_PIT_CH T (myID t)) = running (fst (method T c t h)).
Proof.
  intros Hmin Hid Hok Hreg Hirq.
  assert (Hset : forall v, 0 <= v <= UINT32_MAX ->
            value_ok T (fst (set_value T v t h)) /\
            reg_val (snd (set_value T v t h)) (PIT_LDVAL (myID t)) =
              value (fst (set_value T v t h)) /\
            irq_on (snd (set_value T v t h)) (IRQ_PIT_CH T (myID t)) =
              running (fst (set_value T v t h))).
  { intros v Hv. split; [apply set_value_ok; assumption|].
    split; [apply set_value_reload_eq; assumption|].
    unfold set_value, writeValue, running in *.
    cbn [fst snd myID isRunning with_myValue].
    by_id t; cbn [store irq_on]; exact Hirq. }
  destruct c; cbn [method].
  - apply Hset, to_uint32_range.
  - apply Hset, float_to_uint32_range.
  - apply Hset, float_to_uint32_range.
  - unfold start, running, value_ok, value in *.
    cbn [fst snd myID myValue isRunning with_myISR with_isRunning].
    by_id t; [| | | | lia];
      cbn [nvic_enable store reg_val irq_on reg_eqb]; rewrite Z.eqb_refl; auto.
  - unfold clear, running, value_ok, value in *. cbn [fst snd].
    by_id t; [| | | | lia]; cbn [store reg_val irq_on reg_eqb]; auto.
  - unfold reset, running, value_ok, value in *. cbn [fst snd].
    by_id t; [| | | | lia]; cbn [store reg_val irq_on reg_eqb]; auto.
  - unfold stop, running, value_ok, value in *.
    cbn [fst snd myID myValue isRunning with_isRunning].
    by_id t; [| | | | lia];
      cbn [nvic_disable store reg_val irq_on reg_eqb]; rewrite Z.eqb_refl; auto.
Qed.

(** Sequences of calls on the three objects. *)

Lemma timer_of_index (n : Z) (s : System) : timer_of (index n) s = timer_of n s.
Proof.
  unfold timer_of, index.
  destruct (n =? 0); [reflexivity|]. destruct (n =? 1); reflexivity.
Qed.

Lemma index_range (n : Z) : 0 <= index n <= 2.
Proof. unfold index. destruct (n =? 0); [lia|]. destruct (n =? 1); lia. Qed.

Lemma index_small (n : Z) : 0 <= n <= 2 -> index n = n.
Proof.
  intros H. unfold index.
  destruct (Z.eqb_spec n 0); [lia|]. destruct (Z.eqb_spec n 1); lia.
Qed.

Lemma hw_invoke (T : Target) (k : Z) (c : method_call) (s : System) :
  hw (invoke T k c s) = snd (method T c (timer_of k s) (hw s)).
Proof.
  unfold invoke. destruct (method T c (timer_of k s) (hw s)) as [t h].
  destruct (k =? 0); [reflexivity|]. destruct (k =? 1); reflexivity.
Qed.

Lemma timer_of_invoke (T : Target) (n k : Z) (c : method_call) (s : System) :
  timer_of n (invoke T k c s) =
  if index k =? index n then fst (method T c (timer_of k s) (hw s)) else timer_of n s.
Proof.
  unfold invoke. destruct (method T c (timer_of k s) (hw s)) as [t h].
  unfold timer_of, index.
  destruct (k =? 0); destruct (n =? 0); try reflexivity;
    destruct (k =? 1); destruct (n =? 1); reflexivity.
Qed.

Lemma ids_ok_timer_of (s : System) (n : Z) : ids_ok s -> myID (timer_of n s) = index n.
Proof.
  intros (I0 & I1 & I2). unfold timer_of, index.
  destruct (n =? 0); [assumption|]. destruct (n =? 1); assumption.
Qed.

Lemma ids_ok_of_timers (s : System) : (forall n, myID (timer_of n s) = index n) -> ids_ok s.
Proof.
  intros H. repeat split; [apply (H 0) | apply (H 1) | apply (H 2)].
Qed.

Section Programs.

Variable T : Target.
Hypothesis Hmin : 0 <= valueMin T <= UINT32_MAX - 1.
Hypothesis Hirq01 : IRQ_PIT_CH T 0 <> IRQ_PIT_CH T 1.
Hypothesis Hirq02 : IRQ_PIT_CH T 0 <> IRQ_PIT_CH T 2.
Hypothesis Hirq12 : IRQ_PIT_CH T 1 <> IRQ_PIT_CH T 2.

Lemma irq_distinct (a b : Z) :
  0 <= a <= 2 -> 0 <= b <= 2 -> a <> b -> IRQ_PIT_CH T a <> IRQ_PIT_CH T b.
Proof.
  intros Ha Hb Hab.
  assert (Ca : a = 0 \/ a = 1 \/ a = 2) by lia.
  assert (Cb : b = 0 \/ b = 1 \/ b = 2) by lia.
  destruct Ca as [-> | [-> | ->]]; destruct Cb as [-> | [-> | ->]];
    try lia; auto.
Qed.

Lemma boot_in_sync (h : Hw) :
  (forall n, 0 <= n <= 2 -> irq_on h (IRQ_PIT_CH T n) = false) ->
  in_sync T (boot T h).
Proof.
  intros Hoff. split; [repeat split|].
  intros n Hn.
  assert (Hok : forall id hh, value_ok T (fst (PITimer_new T id hh))).
  { intros id hh. unfold PITimer_new. apply set_value_ok; [assumption | apply to_uint32_range]. }
  assert (Cn : n = 0 \/ n = 1 \/ n = 2) by lia.
  destruct Cn as [-> | [-> | ->]]; (split; [|split]).
  - apply (Hok 0 h).
  - reflexivity.
  - cbn. apply Hoff. lia.
  - apply (Hok 1 (snd (PITimer_new T 0 h))).
  - reflexivity.
  - cbn. apply Hoff. lia.
  - apply (Hok 2 (snd (PITimer_new T 1 (snd (PITimer_new T 0 h))))).
  - reflexivity.
  - cbn. apply Hoff. lia.
Qed.

Lemma invoke_in_sync (k : Z) (c : method_call) (s : System) :
  in_sync T s -> in_sync T (invoke T k c s).
Proof.
  intros (Hids & Hall).
  pose proof (method_frame T c (timer_of k s) (hw s)) as (Hid & Hregs & Hirqs).
  pose proof (ids_ok_timer_of s k Hids) as Hk.
  pose proof (index_range k) as Hkr.
  rewrite Hk in *.
  destruct (Hall (index k) Hkr) as (Hok & Hld & Hrun).
  rewrite timer_of_index in Hok, Hld, Hrun.
  pose proof (method_in_step T c (timer_of k s) (hw s) Hmin ltac:(rewrite Hk; lia) Hok) as Hstep.
  rewrite Hk in Hstep. destruct (Hstep Hld Hrun) as (Hok' & Hld' & Hrun').
  split.
  - apply ids_ok_of_timers. intros n. rewrite timer_of_invoke.
    destruct (Z.eqb_spec (index k) (index n)) as [E|E].
    + rewrite Hid. congruence.
    + apply ids_ok_timer_of. assumption.
  - intros n Hn. rewrite hw_invoke, timer_of_invoke, (index_small n Hn).
    destruct (Z.eqb_spec (index k) n) as [E|E].
    + subst n. auto.
    + destruct (Hall n Hn) as (Hokn & Hldn & Hrunn).
      split; [assumption|]. split.
      * rewrite Hregs; [assumption | congruence | congruence | congruence].
      * rewrite Hirqs; [assumption|]. apply irq_distinct; lia.
Qed.

Lemma run_in_sync (prog : list (Z * method_call)) (s : System) :
  in_sync T s -> in_sync T (run T prog s).
Proof.
  revert s. induction prog as [|[k c] rest IH]; intros s Hs; [exact Hs|].
  cbn [run]. apply IH. apply invoke_in_sync. exact Hs.
Qed.

End Programs.

Lemma method_running (T : Target) (c : method_call) (t : PITimer) (h : Hw) :
  match c with
  | Call_start cb =>
      running (fst (method T c t h)) = true /\ myISR (fst (method T c t h)) = cb
  | Call_stop =>
      running (fst (method T c t h)) = false /\ myISR (fst (method T c t h)) = myISR t
  | _ =>
      running (fst (method T c t h)) = running t /\ myISR (fst (method T c t h)) = myISR t
  end.
Proof. destruct c; split; reflexivity. Qed.

(** The running flag and the callback after a program are those of its
    last [start] or [stop] on the object. *)
Lemma run_armed (T : Target) (prog : list (Z * method_call)) (s : System)
    (before : option fnptr) (n : Z) :
  match before with
  | Some cb => running (timer_of n s) = true /\ myISR (timer_of n s) = cb
  | None => running (timer_of n s) = false
  end ->
  match armed n prog before with
  | Some cb => running (timer_of n (run T prog s)) = true /\
               myISR (timer_of n (run T prog s)) = cb
  | None => running (timer_of n (run T prog s)) = false
  end.
Proof.
  revert s before. induction prog as [|[k c] rest IH]; intros s before Hb; [exact Hb|].
  cbn [run armed]. apply IH. rewrite timer_of_invoke.
  destruct (Z.eqb_spec (index k) (index n)) as [E|E]; [|exact Hb].
  assert (Et : timer_of k s = timer_of n s).
  { rewrite <- (timer_of_index k), <- (timer_of_index n), E. reflexivity. }
  pose proof (method_running T c (timer_of k s) (hw s)) as Hm. rewrite Et in *.
  destruct c; destruct Hm as (Hr & Hf); try (split; assumption); try assumption;
    destruct before as [cb|]; try (rewrite Hr, Hf; exact Hb); rewrite Hr; exact Hb.
Qed.

Lemma pit_isr_calls (code : fnptr -> option (System -> System)) (n : Z) (s : System) :
  pit_isr code n s =
  match code (myISR (timer_of n s)) with
  | Some body => Some (body (clear_n n s))
  | None => None
  end.
Proof.
  unfold pit_isr, clear_n, timer_of, pit0_isr, pit1_isr, pit2_isr, call,
    clear0, clear1, clear2, clear.
  destruct (n =? 0); [reflexivity|]. destruct (n =? 1); reflexivity.
Qed.

(** Objects and hardware stay in step.  On a target whose three interrupt
    vectors are distinct and whose [valueMin] is a reload value, after
    the three constructors (the vectors being disabled before) and any
    sequence of public method calls on [PITimer0], [PITimer1] and
    [PITimer2], with any arguments: every object has its identifier,
    its reload value lies between [valueMin] and [UINT32_MAX - 1], the
    reload register of its channel holds that value, and the interrupt
    vector of its channel is enabled exactly when [running()] is true. *)
Theorem program_keeps_in_sync (T : Target) (prog : list (Z * method_call)) (h : Hw) :
  0 <= valueMin T <= UINT32_MAX - 1 ->
  IRQ_PIT_CH T 0 <> IRQ_PIT_CH T 1 ->
  IRQ_PIT_CH T 0 <> IRQ_PIT_CH T 2 ->
  IRQ_PIT_CH T 1 <> IRQ_PIT_CH T 2 ->
  (forall n, 0 <= n <= 2 -> irq_on h (IRQ_PIT_CH T n) = false) ->
  ids_ok (run T prog (boot T h)) /\
  forall n, 0 <= n <= 2 ->
    valueMin T <= value (timer_of n (run T prog (boot T h))) <= UINT32_MAX - 1 /\
    reg_val (hw (run T prog (boot T h))) (PIT_LDVAL n) =
      value (timer_of n (run T prog (boot T h))) /\
    irq_on (hw (run T prog (boot T h))) (IRQ_PIT_CH T n) =
      running (timer_of n (run T prog (boot T h))).
Proof.
  intros Hmin H01 H02 H12 Hoff.
  apply (run_in_sync T Hmin H01 H02 H12 prog (boot T h)).
  apply boot_in_sync; assumption.
Qed.

Lemma program_keeps_in_sync_witness :
  ids_ok (run (teensy 15) program1 (boot (teensy 15) hw0)).
Proof.
  refine (proj1 (program_keeps_in_sync (teensy 15) program1 hw0 _ _ _ _ _)).
  - unfold UINT32_MAX. cbn. lia.
  - cbn. lia.
  - cbn. lia.
  - cbn. lia.
  - intros n Hn. reflexivity.
Defined.

(** Under the same assumptions, after the constructors and any sequence
    of method calls: the interrupt vector of a channel is enabled exactly
    when the last [start] or [stop] on its object is a [start], and its
    ISR then clears the flag and calls the callback given to that
    [start]; with no [start], or a [stop] after the last one, the vector
    is disabled. *)
Theorem enabled_vector_runs_last_start (T : Target)
    (code : fnptr -> option (System -> System))
    (prog : list (Z * method_call)) (h : Hw) (n : Z) :
  0 <= valueMin T <= UINT32_MAX - 1 ->
  IRQ_PIT_CH T 0 <> IRQ_PIT_CH T 1 ->
  IRQ_PIT_CH T 0 <> IRQ_PIT_CH T 2 ->
  IRQ_PIT_CH T 1 <> IRQ_PIT_CH T 2 ->
  (forall n, 0 <= n <= 2 -> irq_on h (IRQ_PIT_CH T n) = false) ->
  0 <= n <= 2 ->
  match armed n prog None with
  | Some cb =>
      irq_on (hw (run T prog (boot T h))) (IRQ_PIT_CH T n) = true /\
      pit_isr code n (run T prog (boot T h)) =
        match code cb with
        | Some body => Some (body (clear_n n (run T prog (boot T h))))
        | None => None
        end
  | None => irq_on (hw (run T prog (boot T h))) (IRQ_PIT_CH T n) = false
  end.
Proof.
  intros Hmin H01 H02 H12 Hoff Hn.
  pose proof (run_in_sync T Hmin H01 H02 H12 prog (boot T h)
                (boot_in_sync T Hmin h Hoff)) as (_ & Hall).
  destruct (Hall n Hn) as (_ & _ & Hirq).
  pose proof (run_armed T prog (boot T h) None n) as Ha.
  cbv beta iota in Ha.
  assert (Hb : running (timer_of n (boot T h)) = false).
  { unfold timer_of. destruct (n =? 0); [reflexivity|]. destruct (n =? 1); reflexivity. }
  specialize (Ha Hb).
  destruct (armed n prog None) as [cb|].
  - destruct Ha as (Hr & Hf). split; [congruence|].
    rewrite pit_isr_calls, Hf. reflexivity.
  - congruence.
Qed.

Lemma enabled_vector_runs_last_start_witness :
  irq_on (hw (run (teensy 15) program1 (boot (teensy 15) hw0))) (IRQ_PIT_CH (teensy 15) 2)
  = true /\
  pit_isr code1 2 (run (teensy 15) program1 (boot (teensy 15) hw0)) =
    match code1 4096 with
    | Some body => Some (body (clear_n 2 (run (teensy 15) program1 (boot (teensy 15) hw0))))
    | None => None
    end.
Proof.
  refine (enabled_vector_runs_last_start (teensy 15) code1 program1 hw0 2 _ _ _ _ _ _).
  - unfold UINT32_MAX. cbn. lia.
  - cbn. lia.
  - cbn. lia.
  - cbn. lia.
  - intros n Hn. reflexivity.
  - lia.
Defined.

(** ** Relative accuracy *)

(** A normalised binary32 number within half a unit in the last place
    of [y] is within [2^-24] of it, relative to itself. *)
Lemma half_ulp_relative (m : positive) (e : Z) (y : Q) :
  2 ^ 23 <= Zpos m ->
  (Qabs (inject_Z (Zpos m) * bpow e - y) <= bpow e * (1 # 2))%Q ->
  (Qabs (inject_Z (Zpos m) * bpow e - y) <= inject_Z (Zpos m) * bpow e * (1 # 16777216))%Q.
Proof.
  intros Hm Habs.
  assert (Hm' : (8388608 <= inject_Z (Zpos m))%Q).
  { change 8388608%Q with (inject_Z (2 ^ 23)). rewrite <- Zle_Qle. exact Hm. }
  pose proof (bpow_pos e) as Hb.
  pose proof (times_unit (bpow e) _ _ Hb Hm') as Hp.
  eapply Qle_trans; [exact Habs|]. lra.
Qed.

(** The conversion of a positive 32-bit integer: a normalised binary32
    number within half a unit in the last place of the integer. *)
Lemma int_to_float_spec (a : Z) :
  0 < a < 2 ^ 32 ->
  exists m e,
    int_to_float a = S754_finite false m e /\
    2 ^ 23 <= Zpos m < 2 ^ 24 /\
    (Qabs (inject_Z (Zpos m) * bpow e - inject_Z a) <= bpow e * (1 # 2))%Q.
Proof.
  intros Ha. destruct a as [|p|p]; try lia.
  unfold int_to_float, binary_normalize.
  destruct (binary_round_spec 24 128 ltac:(lia) false p 0)
    as (m & e & E & Hm & He & Habs & _ & Hcan & Hz).
  rewrite bpow_0, Qmult_1_r in Habs, Hz.
  assert (Hp : (1 <= inject_Z (Zpos p) < 4294967296)%Q).
  { split.
    - apply inject_Z_pos_ge1.
    - change 4294967296%Q with (inject_Z (2 ^ 32)). rewrite <- Zlt_Qlt. lia. }
  assert (B104 : (bpow 32 <= bpow (128 - 24))%Q) by (apply bpow_le; lia).
  assert (B32 : (bpow 32 == 4294967296)%Q) by reflexivity.
  destruct (finish_value 24 128 false m e (inject_Z (Zpos p)) (proj1 Hm) Habs ltac:(lra))
    as (_ & _ & Hfin).
  assert (Bm : (bpow (emin 24 128 - 1) <= bpow (-1))%Q) by (apply bpow_le; unfold emin; lia).
  rewrite bpow_m1 in Bm.
  assert (Hmpos : 0 < m).
  { destruct (Z.eq_dec m 0) as [Hm0|]; [|lia]. specialize (Hz Hm0). lra. }
  destruct (Hfin Hmpos) as (q & -> & Eq).
  exists q, e. rewrite E, Eq. split; [reflexivity|].
  split; [|exact Habs].
  split; [|lia].
  destruct Hcan as [->|]; [exfalso|assumption].
  apply Qabs_Qle_condition in Habs.
  assert (Hq : (inject_Z (Zpos q) < 16777216)%Q).
  { change 16777216%Q with (inject_Z (2 ^ 24)). rewrite <- Zlt_Qlt. lia. }
  assert (Bmin : (bpow (emin 24 128) <= bpow (-25))%Q) by (apply bpow_le; unfold emin; lia).
  assert (B25 : (bpow (-25) == 1 # 33554432)%Q) by reflexivity.
  pose proof (bpow_pos (emin 24 128)) as Hb.
  pose proof (times_unit (bpow (emin 24 128)) _ _ Hb (Qlt_le_weak _ _ Hq)). lra.
Qed.

(** The quotient of two positive finite data, when it is neither tiny
    nor huge: a normalised binary32 number within [2^-24] of the exact
    quotient [z], relative to itself. *)
Lemma fdiv_relative (mx : positive) (ex : Z) (my : positive) (ey : Z) (z : Q) :
  (z * SF2Q (S754_finite false my ey) == SF2Q (S754_finite false mx ex))%Q ->
  (bpow (-100) <= z <= bpow 100)%Q ->
  exists m e,
    fdiv (S754_finite false mx ex) (S754_finite false my ey) = S754_finite false m e /\
    2 ^ 23 <= Zpos m < 2 ^ 24 /\
    (Qabs (SF2Q (S754_finite false m e) - z)
     <= SF2Q (S754_finite false m e) * (1 # 16777216))%Q.
Proof.
  cbn [SF2Q cond_Zopp]. intros Hz Hr.
  assert (Blo : (bpow (emin 24 128 - 1) < bpow (-100))%Q) by (apply bpow_lt; unfold emin; lia).
  assert (Bhi : (bpow 100 < bpow (128 - 24))%Q) by (apply bpow_lt; lia).
  destruct (SFdiv_pos 24 128 ltac:(lia) mx ex my ey z Hz ltac:(lra) ltac:(lra))
    as (m & e & E & Hm & He & Habs & Hcan & _).
  exists m, e. split; [exact E|].
  assert (Hnorm : 2 ^ 23 <= Zpos m).
  { destruct Hcan as [->|]; [exfalso|assumption].
    apply Qabs_Qle_condition in Habs.
    assert (Hq : (inject_Z (Zpos m) <= 16777216)%Q).
    { change 16777216%Q with (inject_Z (2 ^ 24)). rewrite <- Zle_Qle. lia. }
    pose proof (bpow_pos (emin 24 128)) as Hb.
    pose proof (times_unit (bpow (emin 24 128)) _ _ Hb Hq) as Hp.
    assert (B1 : (16777216 * bpow (emin 24 128) == bpow (-125))%Q).
    { change 16777216%Q with (bpow 24). rewrite <- bpow_add. reflexivity. }
    assert (B2 : (bpow (emin 24 128) * (1 # 2) <= bpow (-125))%Q).
    { rewrite <- bpow_pred. apply bpow_le. unfold emin. lia. }
    assert (B3 : (bpow (-125) + bpow (-125) <= bpow (-100))%Q).
    { assert (E2 : (bpow (-125) + bpow (-125) == bpow (-125 + 1))%Q) by (rewrite bpow_succ; ring).
      rewrite E2. apply bpow_le. lia. }
    assert (B4 : (bpow (-125 + 1) < bpow (-100))%Q) by (apply bpow_lt; lia).
    rewrite bpow_succ in B4. lra. }
  split; [lia|]. apply half_ulp_relative; assumption.
Qed.

(** Scaling a two-sided bound by a positive factor. *)
Lemma scale_bound (d c k : Q) :
  (0 <= k)%Q -> (- c <= d <= c)%Q -> (- (c * k) <= d * k <= c * k)%Q.
Proof.
  intros Hk (H1 & H2).
  pose proof (Qmult_le_compat_r _ _ k H2 Hk).
  pose proof (Qmult_le_compat_r _ _ k H1 Hk). lra.
Qed.

(** The [float] quotient of two positive 32-bit integers, each converted
    to [float] first: finite, and within [2^-22] of the exact quotient,
    relative to it. *)
Lemma fdiv_int_accuracy (a b : Z) :
  0 < a < 2 ^ 32 -> 0 < b < 2 ^ 32 ->
  is_finite (fdiv (int_to_float a) (int_to_float b)) = true /\
  (Qabs (SF2Q (fdiv (int_to_float a) (int_to_float b)) * inject_Z b - inject_Z a)
   <= inject_Z a * (1 # 4194304))%Q.
Proof.
  intros Ha Hb.
  destruct (int_to_float_spec a Ha) as (ma & ea & Ea & Hma & Haa).
  destruct (int_to_float_spec b Hb) as (mb & eb & Eb & Hmb & Hab).
  apply half_ulp_relative in Haa; [|lia]. apply half_ulp_relative in Hab; [|lia].
  rewrite Ea, Eb.
  set (va := (inject_Z (Zpos ma) * bpow ea)%Q) in *.
  set (vb := (inject_Z (Zpos mb) * bpow eb)%Q) in *.
  assert (Hqa : (1 <= inject_Z a < 4294967296)%Q).
  { split; [change 1%Q with (inject_Z 1); rewrite <- Zle_Qle; lia|].
    change 4294967296%Q with (inject_Z (2 ^ 32)). rewrite <- Zlt_Qlt. lia. }
  assert (Hqb : (1 <= inject_Z b < 4294967296)%Q).
  { split; [change 1%Q with (inject_Z 1); rewrite <- Zle_Qle; lia|].
    change 4294967296%Q with (inject_Z (2 ^ 32)). rewrite <- Zlt_Qlt. lia. }
  apply Qabs_Qle_condition in Haa. apply Qabs_Qle_condition in Hab.
  assert (Hva : (1 # 2 <= va <= 8589934592)%Q) by lra.
  assert (Hvb : (1 # 2 <= vb <= 8589934592)%Q) by lra.
  set (z := (va / vb)%Q).
  assert (Hz : (z * vb == va)%Q) by (unfold z; field; lra).
  clearbody z.
  assert (Hzr : (1 # 17179869184 <= z <= 17179869184)%Q).
  { split.
    - destruct (Qlt_le_dec z (1 # 17179869184)) as [Hlt|]; [exfalso|assumption].
      assert (z * vb <= (1 # 17179869184) * vb)%Q by (apply Qmult_le_compat_r; lra). lra.
    - destruct (Qlt_le_dec 17179869184 z) as [Hlt|]; [exfalso|assumption].
      assert (17179869184 * vb <= z * vb)%Q by (apply Qmult_le_compat_r; lra). lra. }
  destruct (fdiv_relative ma ea mb eb z) as (m & e & E & Hm & Hrel).
  { cbn [SF2Q cond_Zopp]. exact Hz. }
  { assert (bpow (-100) <= bpow (-34))%Q by (apply bpow_le; lia).
    assert (bpow 34 <= bpow 100)%Q by (apply bpow_le; lia).
    assert (bpow (-34) == 1 # 17179869184)%Q by reflexivity.
    assert (bpow 34 == 17179869184)%Q by reflexivity. lra. }
  rewrite E. split; [reflexivity|].
  set (G := SF2Q (S754_finite false m e)) in *.
  apply Qabs_Qle_condition in Hrel.
  assert (HG : (0 <= G)%Q) by lra.
  (* in terms of the products G * vb and G * b *)
  pose proof (scale_bound _ _ vb ltac:(lra) Hrel) as H1.
  pose proof (scale_bound _ _ G HG Hab) as H2.
  assert (E1 : ((G - z) * vb == G * vb - va)%Q) by (rewrite <- Hz; ring).
  assert (E2 : ((vb - inject_Z b) * G == G * vb - G * inject_Z b)%Q) by ring.
  assert (E3 : (vb * (1 # 16777216) * G == G * (1 # 16777216) * vb)%Q) by ring.
  rewrite E1 in H1. rewrite E2, E3 in H2.
  apply Qabs_Qle_condition. lra.
Qed.

(** A relative bound on a product, read as one on the quotient. *)
Lemma quotient_bound (G a b r : Q) :
  (0 < b)%Q ->
  (Qabs (G * b - a) <= a * r)%Q ->
  (Qabs (G - a / b) <= a / b * r)%Q.
Proof.
  intros Hb H. apply Qabs_Qle_condition in H. apply Qabs_Qle_condition.
  set (q := (a / b)%Q).
  assert (Hq : (q * b == a)%Q) by (unfold q; field; lra).
  clearbody q. rewrite <- Hq in H.
  split.
  - apply (Qmult_le_r _ _ b Hb). lra.
  - apply (Qmult_le_r _ _ b Hb). lra.
Qed.

(** The read views.  For an object whose reload value is in range, on a
    target with [0 < F_BUS < 2^32]: [period()] is a finite number within
    [2^-22], relatively, of [(value + 1) / F_BUS], [frequency()] is
    within [2^-22] of [F_BUS / (value + 1)], and [remains()] is within
    [2^-22] of [current() / F_BUS], and is [+0] when the counter reads
    0.  No view is ever infinite or NaN. *)
Theorem views_accuracy (T : Target) (t : PITimer) (h : Hw) :
  0 < F_BUS T < 2 ^ 32 ->
  0 <= valueMin T ->
  value_ok T t ->
  0 <= current t h < 2 ^ 32 ->
  (is_finite (period T t) = true /\
   (Qabs (SF2Q (period T t) - inject_Z (value t + 1) / inject_Z (F_BUS T))
    <= inject_Z (value t + 1) / inject_Z (F_BUS T) * (1 # 4194304))%Q) /\
  (is_finite (frequency T t) = true /\
   (Qabs (SF2Q (frequency T t) - inject_Z (F_BUS T) / inject_Z (value t + 1))
    <= inject_Z (F_BUS T) / inject_Z (value t + 1) * (1 # 4194304))%Q) /\
  (is_finite (remains T t h) = true /\
   (Qabs (SF2Q (remains T t h) - inject_Z (current t h) / inject_Z (F_BUS T))
    <= inject_Z (current t h) / inject_Z (F_BUS T) * (1 # 4194304))%Q) /\
  (current t h = 0 -> remains T t h = S754_zero false).
Proof.
  intros HF Hmin Hok Hcur.
  pose proof (value_ok_no_overflow T t Hmin Hok) as Hw.
  assert (Hv : 0 < value t + 1 < 2 ^ 32).
  { unfold value_ok, value, UINT32_MAX in *. lia. }
  assert (HFq : (0 < inject_Z (F_BUS T))%Q).
  { change 0%Q with (inject_Z 0). rewrite <- Zlt_Qlt. lia. }
  assert (Hvq : (0 < inject_Z (value t + 1))%Q).
  { change 0%Q with (inject_Z 0). rewrite <- Zlt_Qlt. lia. }
  assert (Hzero : current t h = 0 -> remains T t h = S754_zero false).
  { intros E. unfold remains. rewrite E.
    destruct (int_to_float_spec (F_BUS T) HF) as (m & e & -> & _). reflexivity. }
  split; [|split; [|split; [|exact Hzero]]].
  - unfold period. rewrite Hw.
    destruct (fdiv_int_accuracy (value t + 1) (F_BUS T) Hv HF) as (Hfin & Hacc).
    split; [exact Hfin|]. apply quotient_bound; assumption.
  - unfold frequency. rewrite Hw.
    destruct (fdiv_int_accuracy (F_BUS T) (value t + 1) HF Hv) as (Hfin & Hacc).
    split; [exact Hfin|]. apply quotient_bound; assumption.
  - destruct (Z.eq_dec (current t h) 0) as [E|E].
    + rewrite (Hzero E), E. split; [reflexivity|].
      cbn [SF2Q]. change (inject_Z 0) with 0%Q.
      assert (E0 : (0 / inject_Z (F_BUS T) == 0)%Q) by (field; lra).
      rewrite E0. cbn. discriminate.
    + unfold remains.
      destruct (fdiv_int_accuracy (current t h) (F_BUS T) ltac:(lia) HF) as (Hfin & Hacc).
      split; [exact Hfin|]. apply quotient_bound; assumption.
Qed.

Lemma views_accuracy_witness :
  is_finite (period (teensy 15) (idle 0 47999)) = true /\
  (Qabs (SF2Q (period (teensy 15) (idle 0 47999)) - inject_Z (47999 + 1) / inject_Z 48000000)
   <= inject_Z (47999 + 1) / inject_Z 48000000 * (1 # 4194304))%Q.
Proof.
  refine (proj1 (views_accuracy (teensy 15) (idle 0 47999) hw0 _ _ _ _)).
  - cbn. lia.
  - cbn. lia.
  - unfold value_ok, UINT32_MAX. cbn. lia.
  - cbn. lia.
Defined.

(** The frequency round trip.  On a target whose [F_BUS] is a binary32
    number, for a positive frequency [hz] whose period lies between
    [valueMin + 1] and [2^24 - 1] bus cycles: after [frequency(hz)],
    [frequency()] is finite and differs from [hz] by at most
    [hz * (3 / (4 * N) + 2^-23)], where [N = value() + 1] is the number
    of cycles stored. *)
Theorem frequency_round_trip (T : Target) (hz : float) (t : PITimer) (h : Hw) :
  0 < F_BUS T < 2 ^ 32 ->
  (SF2Q (int_to_float (F_BUS T)) == inject_Z (F_BUS T))%Q ->
  0 <= valueMin T ->
  (0 < SF2Q hz)%Q ->
  (inject_Z (valueMin T) + 1 <= inject_Z (F_BUS T) / SF2Q hz <= 16777215)%Q ->
  is_finite (frequency T (fst (set_frequency T hz t h))) = true /\
  (Qabs (SF2Q (frequency T (fst (set_frequency T hz t h))) - SF2Q hz)
   <= SF2Q hz * (3 / (4 * inject_Z (value (fst (set_frequency T hz t h)) + 1))
                 + (1 # 8388608)))%Q.
Proof.
  intros HF HFf Hmin Hhz Hx.
  destruct (set_frequency_stored T hz t h ltac:(lia) HFf Hmin Hhz Hx)
    as (N & Hval & HN & Hdist & _).
  assert (HF' : (1 <= inject_Z (F_BUS T) < 4294967296)%Q).
  { split; [change 1%Q with (inject_Z 1); rewrite <- Zle_Qle; lia|].
    change 4294967296%Q with (inject_Z (2 ^ 32)). rewrite <- Zlt_Qlt. lia. }
  assert (HNq : (1 <= inject_Z N <= 16777215)%Q).
  { split; [change 1%Q with (inject_Z 1); rewrite <- Zle_Qle; lia|].
    change 16777215%Q with (inject_Z 16777215). rewrite <- Zle_Qle. lia. }
  unfold frequency. rewrite Hval.
  replace (N - 1 + 1) with N by lia.
  rewrite (to_uint32_small N) by (unfold UINT32_MAX; lia).
  destruct (int_to_float_exact N ltac:(lia)) as (HfN & HvN).
  destruct (SF2Q_pos_finite (int_to_float N)) as (mN & eN & EN); [lra|].
  destruct (SF2Q_pos_finite (int_to_float (F_BUS T))) as (mF & eF & EF); [lra|].
  rewrite EN in HvN. rewrite EF in HFf. rewrite EN, EF.
  set (F := inject_Z (F_BUS T)) in *. set (n := inject_Z N) in *.
  set (x := (F / SF2Q hz)%Q) in *.
  assert (Hxh : (x * SF2Q hz == F)%Q) by (unfold x; field; lra).
  clearbody x. set (f := SF2Q hz) in *.
  set (z := (F / n)%Q).
  assert (Hz : (z * n == F)%Q) by (unfold z; field; lra).
  clearbody z.
  assert (Hzr : (1 # 16777216 <= z <= 4294967296)%Q).
  { split.
    - destruct (Qlt_le_dec z (1 # 16777216)) as [Hlt|]; [exfalso|assumption].
      assert (z * n <= (1 # 16777216) * n)%Q by (apply Qmult_le_compat_r; lra). lra.
    - destruct (Qlt_le_dec 4294967296 z) as [Hlt|]; [exfalso|assumption].
      assert (4294967296 * n <= z * n)%Q by (apply Qmult_le_compat_r; lra). lra. }
  destruct (fdiv_relative mF eF mN eN z) as (m & e & E & Hm & Hrel).
  { rewrite HvN, HFf. exact Hz. }
  { assert (bpow (-100) <= bpow (-24))%Q by (apply bpow_le; lia).
    assert (bpow 32 <= bpow 100)%Q by (apply bpow_le; lia).
    assert (bpow (-24) == 1 # 16777216)%Q by reflexivity.
    assert (bpow 32 == 4294967296)%Q by reflexivity. lra. }
  rewrite E. split; [reflexivity|].
  set (G := SF2Q (S754_finite false m e)) in *.
  apply Qabs_Qle_condition in Hrel. apply Qabs_Qle_condition in Hdist.
  (* in terms of the products G * n and f * n *)
  pose proof (scale_bound _ _ n ltac:(lra) Hrel) as H1.
  assert (Hdist' : (- (3 # 4) <= x - n <= 3 # 4)%Q) by lra.
  pose proof (scale_bound _ _ f ltac:(lra) Hdist') as H2.
  assert (E1 : ((G - z) * n == G * n - F)%Q) by (rewrite <- Hz; ring).
  assert (E2 : ((x - n) * f == F - f * n)%Q) by (rewrite <- Hxh; ring).
  rewrite E1 in H1. rewrite E2 in H2.
  assert (E3 : (G * (1 # 16777216) * n == (1 # 16777216) * (G * n))%Q) by ring.
  rewrite E3 in H1.
  assert (H3 : (1 * f <= n * f)%Q) by (apply Qmult_le_compat_r; lra).
  set (k := (3 / (4 * n))%Q).
  assert (Hk : (k * n == 3 # 4)%Q) by (unfold k; field; lra).
  clearbody k.
  assert (E4 : (f * (k + (1 # 8388608)) * n == f * (k * n) + (1 # 8388608) * (f * n))%Q) by ring.
  rewrite Hk in E4.
  assert (Hn0 : (0 < n)%Q) by lra.
  apply Qabs_Qle_condition. split.
  - apply (Qmult_le_r _ _ n Hn0).
    assert (E5 : (- (f * (k + (1 # 8388608))) * n == - (f * (k + (1 # 8388608)) * n))%Q) by ring.
    rewrite E5, E4. lra.
  - apply (Qmult_le_r _ _ n Hn0). rewrite E4. lra.
Qed.

Lemma frequency_round_trip_witness :
  is_finite (frequency (teensy 15)
               (fst (set_frequency (teensy 15) float_1000 (idle 0 48000000) hw0))) = true /\
  (Qabs (SF2Q (frequency (teensy 15)
                 (fst (set_frequency (teensy 15) float_1000 (idle 0 48000000) hw0)))
         - SF2Q float_1000)
   <= SF2Q float_1000 *
      (3 / (4 * inject_Z (value (fst (set_frequency (teensy 15) float_1000
                                         (idle 0 48000000) hw0)) + 1))
       + (1 # 8388608)))%Q.
Proof.
  apply (frequency_round_trip (teensy 15) float_1000 (idle 0 48000000) hw0).
  - cbn. lia.
  - vm_compute. reflexivity.
  - cbn. lia.
  - vm_compute. reflexivity.
  - vm_compute. split; discriminate.
Defined.

(** ** Writing a view back *)

(** A rounded number below [2^k]: a binary32 result [m * 2^e] for an
    exact value [x] below [2^k] is within [2^(k-25)] of it, half a unit
    in the last place of the binade below [2^k]. *)
Lemma rounded_below (m : positive) (e k : Z) (x : Q) :
  Zpos m < 2 ^ 24 ->
  (Qabs (inject_Z (Zpos m) * bpow e - x) <= bpow e * (1 # 2))%Q ->
  ((inject_Z (Zpos m) * bpow e == x)%Q \/ e = -149 \/ 2 ^ 23 <= Zpos m) ->
  (-149 < e -> Zpos m = 2 ^ 23 ->
   (inject_Z (Zpos m) * bpow e - x <= bpow e * (1 # 4))%Q) ->
  -124 <= k ->
  (x < bpow k)%Q ->
  (Qabs (inject_Z (Zpos m) * bpow e - x) <= bpow (k - 25))%Q.
Proof.
  intros Hm Habs Hcase Hq Hk Hx.
  change (2 ^ 23) with 8388608 in *. change (2 ^ 24) with 16777216 in *.
  set (P := (inject_Z (Zpos m) * bpow e)%Q) in *.
  pose proof (bpow_pos e) as Hu. pose proof (bpow_pos (k - 25)) as Hk25.
  assert (Hhalf : (bpow e * (1 # 2) == bpow (e - 1))%Q) by (rewrite bpow_pred; reflexivity).
  destruct (Z_le_gt_dec e (k - 24)) as [Hlow|Hhigh].
  { (* the unit is small enough *)
    eapply Qle_trans; [exact Habs|]. rewrite Hhalf. apply bpow_le. lia. }
  destruct Hcase as [Hex | [Hemin | Hnorm]].
  - rewrite Hex. setoid_replace (x - x)%Q with 0%Q by ring. cbn. lra.
  - lia.
  - apply Qabs_Qle_condition in Habs.
    assert (Hm23 : (8388608 <= inject_Z (Zpos m))%Q).
    { change 8388608%Q with (inject_Z 8388608). rewrite <- Zle_Qle. lia. }
    pose proof (times_unit (bpow e) _ _ Hu Hm23) as HP. fold P in HP.
    assert (Hk23 : (bpow k <= bpow (e + 23))%Q) by (apply bpow_le; lia).
    rewrite bpow_add in Hk23. change (bpow 23) with 8388608%Q in Hk23.
    destruct (Z.eq_dec (Zpos m) 8388608) as [Heq|Hneq].
    + specialize (Hq ltac:(lia) Heq). fold P in Hq.
      destruct (Z.eq_dec e (k - 23)) as [Ee|Ne].
      * assert (Eq4 : (bpow e * (1 # 4) == bpow (k - 25))%Q).
        { replace (k - 25) with (e - 1 - 1) by lia. rewrite !bpow_pred. ring. }
        apply Qabs_Qle_condition. lra.
      * exfalso.
        assert (Hk22 : (bpow k <= bpow (e + 22))%Q) by (apply bpow_le; lia).
        rewrite bpow_add in Hk22. change (bpow 22) with 4194304%Q in Hk22.
        lra.
    + exfalso.
      assert (Hm9 : (8388609 <= inject_Z (Zpos m))%Q).
      { change 8388609%Q with (inject_Z 8388609). rewrite <- Zle_Qle. lia. }
      pose proof (times_unit (bpow e) _ _ Hu Hm9) as HP9. fold P in HP9. lra.
Qed.

(** A [float] cycle count [P] less than half a cycle away from an
    integer [N] between [valueMin + 1] and [2^24 - 1]: [round(P) - 1]
    is [N - 1], converted and stored unclamped. *)
Lemma cycles_stored_near (T : Target) (m : positive) (e N : Z) (t : PITimer) (h : Hw) :
  0 <= valueMin T ->
  -28 <= e ->
  valueMin T + 1 <= N <= 16777215 ->
  (inject_Z N - (1 # 2) <= SF2Q (S754_finite false m e) < inject_Z N + (1 # 2))%Q ->
  value (fst (set_value T
                (float_to_uint32 T (fsub (round (S754_finite false m e)) (int_to_float 1)))
                t h)) = N - 1.
Proof.
  intros Hmin He HN HP.
  destruct bpow_values as (_ & _ & _ & _ & _ & _ & _ & _ & B24 & _).
  assert (HNq : (inject_Z N <= 16777215)%Q).
  { change 16777215%Q with (inject_Z 16777215). rewrite <- Zle_Qle. lia. }
  destruct (round_spec m e He) as (N' & HN' & HNr & Hf & Hv); [lra|].
  assert (N' = N).
  { assert (N' < N + 1).
    { rewrite Zlt_Qlt, inject_Z_plus. change (inject_Z 1) with 1%Q. lra. }
    assert (N < N' + 1); [|lia].
    rewrite Zlt_Qlt, inject_Z_plus. change (inject_Z 1) with 1%Q. lra. }
  subst N'.
  destruct (fsub_one_exact _ N Hf Hv) as (HfV & HvV); [lia|].
  unfold float_to_uint32.
  rewrite (fptoui_exact _ (N - 1) HfV HvV) by (unfold UINT32_MAX; lia).
  rewrite set_value_stored. unfold UINT32_MAX.
  destruct (Z.eqb_spec (N - 1) 4294967295); [lia|].
  destruct (Z.ltb_spec (N - 1) (valueMin T)); [lia | reflexivity].
Qed.

(** The exponent of a binary32 number of at least one quarter. *)
Lemma exponent_from_below (m : positive) (e : Z) :
  Zpos m < 2 ^ 24 -> (1 # 4 <= inject_Z (Zpos m) * bpow e)%Q -> -28 <= e.
Proof.
  intros Hm HP.
  destruct (Z_lt_le_dec e (-28)) as [Hlt|]; [exfalso|assumption].
  assert (Hq : (inject_Z (Zpos m) <= 16777216)%Q).
  { change 16777216%Q with (inject_Z (2 ^ 24)). rewrite <- Zle_Qle. lia. }
  pose proof (bpow_pos e) as Hu.
  pose proof (times_unit (bpow e) _ _ Hu Hq) as Hp.
  assert (Hle : (bpow e <= bpow (-28))%Q) by (apply bpow_le; lia).
  assert (B28 : (bpow (-28) == 1 # 268435456)%Q) by reflexivity.
  lra.
Qed.

(** Writing a view back changes nothing.  On a target whose [F_BUS] is a
    binary32 number, for an object whose reload value [v] satisfies
    [valueMin <= v] and [v + 1 <= 2^22 - 1]: [period(period())] and
    [frequency(frequency())] store [v] again. *)
Theorem views_write_back (T : Target) (t : PITimer) (h : Hw) :
  0 < F_BUS T < 2 ^ 32 ->
  (SF2Q (int_to_float (F_BUS T)) == inject_Z (F_BUS T))%Q ->
  0 <= valueMin T <= value t ->
  value t + 1 <= 4194303 ->
  value (fst (set_period T (period T t) t h)) = value t /\
  value (fst (set_frequency T (frequency T t) t h)) = value t.
Proof.
  intros HF HFf Hmin Hmax.
  set (N := value t + 1).
  assert (HN : valueMin T + 1 <= N <= 4194303) by (unfold N; lia).
  assert (HF' : (1 <= inject_Z (F_BUS T) < 4294967296)%Q).
  { split; [change 1%Q with (inject_Z 1); rewrite <- Zle_Qle; lia|].
    change 4294967296%Q with (inject_Z (2 ^ 32)). rewrite <- Zlt_Qlt. lia. }
  assert (HNq : (1 <= inject_Z N <= 4194303)%Q).
  { split; [change 1%Q with (inject_Z 1); rewrite <- Zle_Qle; lia|].
    change 4194303%Q with (inject_Z 4194303). rewrite <- Zle_Qle. lia. }
  assert (Hw : to_uint32 (value t + 1) = N).
  { apply to_uint32_small. unfold UINT32_MAX, N. lia. }
  destruct (int_to_float_exact N ltac:(lia)) as (HfN & HvN).
  destruct (SF2Q_pos_finite (int_to_float N)) as (mN & eN & EN); [lra|].
  destruct (SF2Q_pos_finite (int_to_float (F_BUS T))) as (mF & eF & EF); [lra|].
  rewrite EN in HvN. rewrite EF in HFf.
  assert (B22 : (bpow 22 == 4194304)%Q) by reflexivity.
  assert (B3 : (bpow (22 - 25) == 1 # 8)%Q) by reflexivity.
  assert (Blo : (bpow (emin 24 128 - 1) <= bpow (-2))%Q) by (apply bpow_le; unfold emin; lia).
  assert (B2 : (bpow (-2) == 1 # 4)%Q) by reflexivity.
  assert (Bhi : (bpow 22 <= bpow (128 - 24))%Q) by (apply bpow_le; lia).
  set (F := inject_Z (F_BUS T)) in *. set (n := inject_Z N) in *.
  replace (value t) with (N - 1) by (unfold N; lia).
  split.
  - (* the period *)
    unfold period, set_period, period_cycles. rewrite Hw, EN, EF.
    set (z := (n / F)%Q).
    assert (Hz : (z * F == n)%Q) by (unfold z; field; lra).
    clearbody z.
    assert (Hzr : (1 # 4294967296 <= z <= 4194303)%Q).
    { split.
      - destruct (Qlt_le_dec z (1 # 4294967296)) as [Hlt|]; [exfalso|assumption].
        assert (z * F <= (1 # 4294967296) * F)%Q by (apply Qmult_le_compat_r; lra). lra.
      - destruct (Qlt_le_dec 4194303 z) as [Hlt|]; [exfalso|assumption].
        assert (z * 1 <= z * F)%Q.
        { rewrite !(Qmult_comm z). apply Qmult_le_compat_r; lra. }
        lra. }
    destruct (fdiv_relative mN eN mF eF z) as (mG & eG & EG & HmG & Hrel).
    { rewrite HvN, HFf. exact Hz. }
    { assert (bpow (-100) <= bpow (-32))%Q by (apply bpow_le; lia).
      assert (bpow 22 <= bpow 100)%Q by (apply bpow_le; lia).
      assert (bpow (-32) == 1 # 4294967296)%Q by reflexivity. lra. }
    rewrite EG.
    set (G := SF2Q (S754_finite false mG eG)) in *.
    apply Qabs_Qle_condition in Hrel.
    pose proof (scale_bound _ _ F ltac:(lra) Hrel) as H1.
    assert (E1 : ((G - z) * F == F * G - n)%Q) by (rewrite <- Hz; ring).
    assert (E2 : (G * (1 # 16777216) * F == (1 # 16777216) * (F * G))%Q) by ring.
    rewrite E1, E2 in H1.
    set (x := (F * G)%Q) in *.
    assert (Hx : (1 # 2 <= x < 4194304)%Q) by lra.
    assert (Hprod : (inject_Z (Zpos mF) * bpow eF * (inject_Z (Zpos mG) * bpow eG) == x)%Q).
    { cbn [SF2Q cond_Zopp] in HFf. rewrite HFf. reflexivity. }
    destruct (SFmul_pos 24 128 ltac:(lia) mF eF mG eG)
      as (m & e & E & Hm & He & Habs & Hcase & Hq).
    { rewrite Hprod. lra. }
    { rewrite Hprod. lra. }
    rewrite Hprod in Habs, Hcase, Hq.
    pose proof (rounded_below m e 22 x Hm Habs Hcase Hq ltac:(lia) ltac:(lra)) as Hnear.
    rewrite B3 in Hnear. apply Qabs_Qle_condition in Hnear.
    unfold fmul. rewrite E.
    apply cycles_stored_near; [lia | | lia |].
    + apply (exponent_from_below m e Hm). lra.
    + cbn [SF2Q cond_Zopp]. fold n. lra.
  - (* the frequency *)
    unfold frequency, set_frequency, frequency_cycles. rewrite Hw, EN, EF.
    set (z := (F / n)%Q).
    assert (Hz : (z * n == F)%Q) by (unfold z; field; lra).
    clearbody z.
    assert (Hzr : (1 # 4194304 <= z <= 4294967296)%Q).
    { split.
      - destruct (Qlt_le_dec z (1 # 4194304)) as [Hlt|]; [exfalso|assumption].
        assert (z * n <= (1 # 4194304) * n)%Q by (apply Qmult_le_compat_r; lra). lra.
      - destruct (Qlt_le_dec 4294967296 z) as [Hlt|]; [exfalso|assumption].
        assert (z * 1 <= z * n)%Q.
        { rewrite !(Qmult_comm z). apply Qmult_le_compat_r; lra. }
        lra. }
    destruct (fdiv_relative mF eF mN eN z) as (mG & eG & EG & HmG & Hrel).
    { rewrite HvN, HFf. exact Hz. }
    { assert (bpow (-100) <= bpow (-22))%Q by (apply bpow_le; lia).
      assert (bpow 32 <= bpow 100)%Q by (apply bpow_le; lia).
      assert (bpow (-22) == 1 # 4194304)%Q by reflexivity.
      assert (bpow 32 == 4294967296)%Q by reflexivity. lra. }
    rewrite EG.
    set (G := SF2Q (S754_finite false mG eG)) in *.
    apply Qabs_Qle_condition in Hrel.
    assert (HG0 : (0 < G)%Q) by lra.
    (* the exact quotient the setter rounds *)
    set (x := (F / G)%Q).
    assert (Hx : (x * G == F)%Q) by (unfold x; field; lra).
    clearbody x.
    pose proof (scale_bound _ _ n ltac:(lra) Hrel) as H1.
    assert (E1 : ((G - z) * n == n * G - x * G)%Q) by (rewrite Hx, <- Hz; ring).
    assert (E2 : (G * (1 # 16777216) * n == (n * (1 # 16777216)) * G)%Q) by ring.
    rewrite E1, E2 in H1.
    assert (Hxn : (- (n * (1 # 16777216)) <= n - x <= n * (1 # 16777216))%Q).
    { split.
      - apply (Qmult_le_r _ _ G HG0). lra.
      - apply (Qmult_le_r _ _ G HG0). lra. }
    destruct (SFdiv_pos 24 128 ltac:(lia) mF eF mG eG x)
      as (m & e & E & Hm & He & Habs & Hcase & Hq).
    { cbn [SF2Q cond_Zopp] in HFf. rewrite HFf. exact Hx. }
    { lra. }
    { lra. }
    pose proof (rounded_below m e 22 x Hm Habs (or_intror Hcase) Hq ltac:(lia) ltac:(lra))
      as Hnear.
    rewrite B3 in Hnear. apply Qabs_Qle_condition in Hnear.
    unfold fdiv. rewrite E.
    apply cycles_stored_near; [lia | | lia |].
    + apply (exponent_from_below m e Hm). lra.
    + cbn [SF2Q cond_Zopp]. fold n. lra.
Qed.

Lemma views_write_back_witness :
  value (fst (set_period (teensy 15) (period (teensy 15) (idle 0 47999)) (idle 0 47999) hw0))
  = 47999.
Proof.
  refine (proj1 (views_write_back (teensy 15) (idle 0 47999) hw0 _ _ _ _)).
  - cbn. lia.
  - vm_compute. reflexivity.
  - cbn. lia.
  - cbn. lia.
Defined.

(** ** Signs *)

Section Signs.

Variables prec emax : Z.
Hypothesis prec_pos : 0 < prec.

Lemma finish_signbit (s : bool) (m e : Z) :
  0 <= m -> signbit (finish prec emax s m e) = s.
Proof.
  intros Hm. destruct m as [|p|p]; try lia; cbn [finish signbit]; [reflexivity|].
  destruct (e <=? emax - prec); reflexivity.
Qed.

Lemma binary_round_signbit (s : bool) (m : positive) (e : Z) :
  signbit (binary_round prec emax s m e) = s.
Proof.
  destruct (binary_round_spec prec emax prec_pos s m e) as (m' & e' & -> & Hm & _).
  apply finish_signbit. lia.
Qed.

(** A negative integer normalises to a negative datum. *)
Lemma binary_normalize_neg (m e : Z) (szero : bool) :
  m < 0 -> signbit (binary_normalize prec emax m e szero) = true.
Proof.
  intros Hm. destruct m as [|p|p]; try lia. cbn [binary_normalize].
  apply binary_round_signbit.
Qed.

(** The product of two finite data has the sign of the factors. *)
Lemma SFmul_signbit (sx : bool) (mx : positive) (ex : Z) (sy : bool) (my : positive) (ey : Z) :
  signbit (SFmul prec emax (S754_finite sx mx ex) (S754_finite sy my ey)) = xorb sx sy.
Proof.
  cbn [SFmul].
  destruct (binary_round_aux_spec prec emax prec_pos (xorb sx sy) (Zpos (mx * my)) (ex + ey)
              loc_Exact (inject_Z (Zpos (mx * my))))
    as (m & e & -> & Hm & _); [lia | cbn; reflexivity |].
  apply finish_signbit. lia.
Qed.

(** So has the quotient. *)
Lemma SFdiv_signbit (sx : bool) (mx : positive) (ex : Z) (sy : bool) (my : positive) (ey : Z) :
  signbit (SFdiv prec emax (S754_finite sx mx ex) (S754_finite sy my ey)) = xorb sx sy.
Proof.
  cbn [SFdiv]. unfold SFdiv_core_binary.
  set (e' := Z.min (fexp prec emax (Zdigits2 (Zpos mx) + ex - (Zdigits2 (Zpos my) + ey)))
                   (ex - ey)) in *.
  set (s := ex - ey - e') in *.
  assert (Hs : 0 <= s) by lia.
  rewrite (shift_match (Zpos mx) s Hs).
  pose proof (Z_div_mod (Zpos mx * 2 ^ s) (Zpos my) ltac:(lia)) as Hdm.
  destruct (Z.div_eucl (Zpos mx * 2 ^ s) (Zpos my)) as [q r].
  destruct Hdm as (Hqr & Hr).
  assert (Hq : 0 <= q).
  { assert (0 < 2 ^ s) by (apply Z.pow_pos_nonneg; lia). nia. }
  set (y0 := ((inject_Z q * inject_Z (Zpos my) + inject_Z r) / inject_Z (Zpos my))%Q).
  assert (Hloc : rec_loc (shr_record_of_loc q (new_location (Zpos my) r)) y0).
  { apply new_location_loc; [lia | lia |].
    pose proof (inject_Z_pos_gt0 my). unfold y0. field. lra. }
  destruct (binary_round_aux_spec prec emax prec_pos (xorb sx sy) q e'
              (new_location (Zpos my) r) y0 Hq Hloc)
    as (m & e & -> & Hm & _).
  apply finish_signbit. lia.
Qed.

End Signs.

(** ** [round] and the subtraction of 1 on numbers that are not positive *)

Lemma floor_signbit (x : double) : signbit x = true -> signbit (floor x) = true.
Proof.
  destruct x as [s|s| |s m e]; cbn [signbit floor]; try congruence.
  intros ->. destruct (0 <=? e); [reflexivity|].
  apply binary_normalize_neg; [lia|].
  apply Z.shiftr_neg. cbn. lia.
Qed.

Lemma double_to_float_signbit (x : double) :
  signbit x = true -> signbit (double_to_float x) = true.
Proof.
  destruct x as [s|s| |s m e]; cbn [signbit double_to_float]; try congruence.
  intros ->. apply binary_normalize_neg; [lia|]. cbn. lia.
Qed.

Lemma float_to_double_signbit (x : float) :
  signbit x = true -> signbit (float_to_double x) = true.
Proof.
  destruct x as [s|s| |s m e]; cbn [signbit float_to_double]; try congruence.
  intros ->. apply binary_normalize_neg; [lia|]. cbn. lia.
Qed.

(** The floor of a rounded number that lies between 0 and one half is
    zero. *)
Lemma floor_small (m e : Z) (y : Q) :
  0 <= m ->
  (Qabs (inject_Z m * bpow e - y) <= bpow e * (1 # 2))%Q ->
  (0 < y < 1 # 2)%Q ->
  is_zero (floor (finish 53 1024 false m e)) = true.
Proof.
  intros Hm Habs Hy. destruct m as [|q|q]; try lia; [reflexivity|].
  apply Qabs_Qle_condition in Habs.
  pose proof (bpow_pos e) as Hu. pose proof (inject_Z_pos_ge1 q) as Hq1.
  pose proof (times_unit (bpow e) _ _ Hu Hq1) as Hp.
  assert (He : e < 0).
  { destruct (Z_lt_le_dec e 0) as [|Hge]; [assumption|exfalso].
    pose proof (bpow_le 0 e Hge) as Hle. rewrite bpow_0 in Hle. lra. }
  cbn [finish]. destruct (Z.leb_spec e (1024 - 53)) as [_|]; [|lia].
  cbn [floor]. destruct (Z.leb_spec 0 e) as [|_]; [lia|].
  cbn [cond_Zopp]. rewrite Z.shiftr_div_pow2 by lia.
  assert (Hle : (bpow e <= bpow (-1))%Q) by (apply bpow_le; lia).
  rewrite bpow_m1 in Hle.
  assert (Hk : 0 < 2 ^ (- e)) by (apply Z.pow_pos_nonneg; lia).
  assert (Hb : (bpow e * inject_Z (2 ^ (- e)) == 1)%Q).
  { rewrite <- bpow_Z by lia. rewrite <- bpow_add.
    replace (e + - e) with 0 by lia. reflexivity. }
  assert (Hsmall : Zpos q < 2 ^ (- e)).
  { apply Zlt_Q_lt.
    assert (Hk' : (0 < inject_Z (2 ^ (- e)))%Q).
    { change 0%Q with (inject_Z 0). rewrite <- Zlt_Qlt. exact Hk. }
    destruct (Qlt_le_dec (inject_Z (Zpos q)) (inject_Z (2 ^ (- e)))) as [|Hge]; [assumption|].
    exfalso.
    pose proof (times_unit (bpow e) _ _ Hu Hge) as Hp2.
    rewrite (Qmult_comm (inject_Z (2 ^ (- e)))), Hb in Hp2. lra. }
  rewrite Z.div_small by lia. reflexivity.
Qed.

(** [round] of a number that is negative or zero is negative or zero. *)
Lemma round_nonpositive (x : float) :
  signbit x = true \/ is_zero x = true ->
  signbit (round x) = true \/ is_zero (round x) = true.
Proof.
  intros Hx.
  assert (Hzero : forall s, is_zero (round (S754_zero s)) = true) by (intros [|]; reflexivity).
  assert (Htail : forall d : double,
             signbit d = true ->
             signbit (double_to_float (floor (dadd d half))) = true \/
             is_zero (double_to_float (floor (dadd d half))) = true).
  { intros d Hd. destruct d as [s|s| |s m e]; cbn [signbit] in Hd; try discriminate; subst s.
    - right. reflexivity.
    - left. reflexivity.
    - unfold dadd, half. cbn [SFadd].
      set (ez := Z.min e (-53)).
      set (a := cond_Zopp true (Zpos (fst (shl_align m e ez)))).
      set (b := cond_Zopp false (Zpos (fst (shl_align 4503599627370496 (-53) ez)))).
      assert (Ha : (inject_Z a * bpow ez == SF2Q (S754_finite true m e))%Q)
        by (apply aligned_value; lia).
      assert (Hb : (inject_Z b * bpow ez == SF2Q half)%Q)
        by (apply aligned_value; lia).
      assert (Hhalf : (SF2Q half == 1 # 2)%Q) by reflexivity.
      assert (Hneg : (SF2Q (S754_finite true m e) < 0)%Q).
      { cbn [SF2Q cond_Zopp]. pose proof (bpow_pos e). pose proof (inject_Z_pos_gt0 m).
        assert (E : (inject_Z (- Zpos m) == - inject_Z (Zpos m))%Q)
          by (rewrite inject_Z_opp; reflexivity).
        rewrite E. nra. }
      assert (Hsum : (inject_Z (a + b) * bpow ez < 1 # 2)%Q).
      { rewrite inject_Z_plus, Qmult_plus_distr_l, Ha, Hb, Hhalf. lra. }
      destruct (a + b) as [|p|p] eqn:Esum.
      + right. reflexivity.
      + right. cbn [binary_normalize].
        destruct (binary_round_spec 53 1024 ltac:(lia) false p ez)
          as (m2 & e2 & -> & Hm2 & _ & Habs & _).
        assert (Hz : is_zero (floor (finish 53 1024 false m2 e2)) = true).
        { apply (floor_small m2 e2 (inject_Z (Zpos p) * bpow ez)); [lia | exact Habs |].
          split; [|exact Hsum].
          pose proof (bpow_pos ez). pose proof (inject_Z_pos_gt0 p). nra. }
        destruct (floor (finish 53 1024 false m2 e2)); try discriminate. reflexivity.
      + left. apply double_to_float_signbit, floor_signbit.
        apply binary_normalize_neg; [lia|]. lia. }
  destruct Hx as [Hs|Hz].
  - destruct x as [s|s| |s m e]; cbn [signbit] in Hs; try discriminate; subst s.
    + right. apply Hzero.
    + left. reflexivity.
    + unfold round. apply Htail. apply float_to_double_signbit. reflexivity.
  - destruct x as [s|s| |s m e]; try discriminate. right. apply Hzero.
Qed.

(** Subtracting 1 from a number that is negative or zero gives a
    negative number. *)
Lemma fsub_one_negative (x : float) :
  signbit x = true \/ is_zero x = true ->
  signbit (fsub x (int_to_float 1)) = true.
Proof.
  intros Hx.
  assert (Hzero : forall s, signbit (fsub (S754_zero s) (int_to_float 1)) = true).
  { intros s. rewrite fsub_zero_one. reflexivity. }
  destruct x as [s|s| |s m e]; try (apply Hzero).
  - destruct Hx as [Hs|Hz]; [|discriminate]. cbn [signbit] in Hs. subst s. reflexivity.
  - destruct Hx; discriminate.
  - destruct Hx as [Hs|Hz]; [|discriminate]. cbn [signbit] in Hs. subst s.
    change (int_to_float 1) with (S754_finite false 8388608 (-23)).
    unfold fsub. cbn [SFsub].
    apply binary_normalize_neg; [lia|]. cbn [cond_Zopp]. lia.
Qed.

Lemma aeabi_f2uiz_negative (x : float) : signbit x = true -> aeabi_f2uiz x = 0.
Proof.
  destruct x as [s|s| |s m e]; cbn [signbit]; intros Hs; try discriminate; subst; reflexivity.
Qed.

(** ** Arguments outside the range of periods *)

(** On a target whose conversion is the run-time routine of the ARM
    ABI, the conversion is that routine for every argument. *)
Lemma float_to_uint32_aeabi (T : Target) (x : float) :
  (forall y, fptoui_undefined T y = aeabi_f2uiz y) ->
  float_to_uint32 T x = aeabi_f2uiz x.
Proof.
  intros Hu. unfold float_to_uint32. destruct (fptoui x) as [z|] eqn:E.
  - symmetry. apply aeabi_f2uiz_defined. exact E.
  - rewrite Hu. apply to_uint32_small. apply aeabi_f2uiz_range.
Qed.

Lemma set_value_zero (T : Target) (t : PITimer) (h : Hw) :
  0 <= valueMin T -> value (fst (set_value T 0 t h)) = valueMin T.
Proof.
  intros Hmin. rewrite set_value_stored. cbn.
  destruct (Z.ltb_spec 0 (valueMin T)); lia.
Qed.

(** Arguments that are no period and no frequency, on a target whose
    conversion from [float] is the saturating routine of the ARM ABI.
    [period(float)] stores [valueMin] for a NaN, for every negative
    argument (minus infinity and [-0] included) and for [+0], and
    [UINT32_MAX - 1] for plus infinity.  [frequency(float)] stores
    [valueMin] for a NaN, for every negative argument and for plus
    infinity, and [UINT32_MAX - 1] for [+0]: there is no division
    error. *)
Theorem setters_special_arguments (T : Target) (t : PITimer) (h : Hw) :
  0 < F_BUS T < 2 ^ 32 ->
  0 <= valueMin T ->
  (forall x, fptoui_undefined T x = aeabi_f2uiz x) ->
  (forall p, is_nan p = true \/ signbit p = true \/ is_zero p = true ->
             value (fst (set_period T p t h)) = valueMin T) /\
  value (fst (set_period T (S754_infinity false) t h)) = UINT32_MAX - 1 /\
  (forall hz, is_nan hz = true \/ signbit hz = true \/ hz = S754_infinity false ->
              value (fst (set_frequency T hz t h)) = valueMin T) /\
  value (fst (set_frequency T (S754_zero false) t h)) = UINT32_MAX - 1.
Proof.
  intros HF Hmin Hu.
  destruct (int_to_float_spec (F_BUS T) HF) as (mF & eF & EF & _).
  assert (Hstore : forall x, signbit x = true \/ is_zero x = true ->
            value (fst (set_value T (float_to_uint32 T (fsub (round x) (int_to_float 1))) t h))
            = valueMin T).
  { intros x Hx. rewrite (float_to_uint32_aeabi T _ Hu).
    rewrite aeabi_f2uiz_negative; [apply set_value_zero; assumption|].
    apply fsub_one_negative, round_nonpositive. exact Hx. }
  assert (Hnan : value (fst (set_value T (float_to_uint32 T
                   (fsub (round S754_nan) (int_to_float 1))) t h)) = valueMin T).
  { rewrite (float_to_uint32_aeabi T _ Hu). apply set_value_zero. assumption. }
  assert (Hinf : value (fst (set_value T (float_to_uint32 T
                   (fsub (round (S754_infinity false)) (int_to_float 1))) t h))
                 = UINT32_MAX - 1).
  { rewrite (float_to_uint32_aeabi T _ Hu). reflexivity. }
  unfold set_period, set_frequency, period_cycles, frequency_cycles. rewrite EF.
  split; [|split; [exact Hinf|split; [|exact Hinf]]].
  - intros p [Hp | Hp].
    + destruct p; try discriminate. exact Hnan.
    + apply Hstore. destruct p as [s|s| |s m e].
      * right. reflexivity.
      * destruct Hp as [Hs|Hz]; [|discriminate]. cbn [signbit] in Hs. subst s. left. reflexivity.
      * destruct Hp; discriminate.
      * destruct Hp as [Hs|Hz]; [|discriminate]. cbn [signbit] in Hs. subst s. left.
        unfold fmul. rewrite (SFmul_signbit 24 128 ltac:(lia)). reflexivity.
  - intros hz [Hp | [Hp | Hp]].
    + destruct hz; try discriminate. exact Hnan.
    + apply Hstore. destruct hz as [s|s| |s m e]; cbn [signbit] in Hp; try discriminate; subst s.
      * left. reflexivity.
      * right. reflexivity.
      * left. unfold fdiv. rewrite (SFdiv_signbit 24 128 ltac:(lia)). reflexivity.
    + subst hz. apply Hstore. right. reflexivity.
Qed.

Lemma setters_special_arguments_witness :
  value (fst (set_frequency (teensy 15) (S754_zero false) (idle 0 48000000) hw0))
  = UINT32_MAX - 1.
Proof.
  refine (proj2 (proj2 (proj2
    (setters_special_arguments (teensy 15) (idle 0 48000000) hw0 _ _ _)))).
  - cbn. lia.
  - cbn. lia.
  - reflexivity.
Defined.

(** ** Numbers too large for a reload value *)

Section Huge.

Variables prec emax : Z.
Hypothesis prec_pos : 0 < prec.
Hypothesis emax_big : 64 <= emax.

(** Rounding a number not more than a quarter unit below [2^32] gives
    at least [2^32]. *)
Lemma rounded_huge (m e : Z) (y : Q) :
  0 < m < 2 ^ prec ->
  (Qabs (inject_Z m * bpow e - y) <= bpow e * (1 # 2))%Q ->
  ((inject_Z m * bpow e == y /\ bpow 32 <= y)%Q \/
   e = emin prec emax \/ 2 ^ (prec - 1) <= m) ->
  (bpow 32 - bpow (32 - prec - 2) <= y)%Q ->
  (bpow 32 <= inject_Z m * bpow e)%Q.
Proof.
  intros Hm Habs Hcase Hy.
  assert (Hprec : (bpow (32 - prec - 2) * 4 == bpow (32 - prec))%Q).
  { replace (32 - prec) with (32 - prec - 2 + 2) at 2 by lia. rewrite bpow_add.
    change (bpow 2) with 4%Q. reflexivity. }
  pose proof (bpow_pos (32 - prec - 2)) as Hq0.
  assert (Hy0 : (bpow 31 <= y)%Q).
  { assert (Hle : (bpow (32 - prec) <= bpow 31)%Q) by (apply bpow_le; lia).
    assert (E : (bpow 32 == 2 * bpow 31)%Q) by (rewrite <- bpow_succ; reflexivity).
    lra. }
  destruct (Qlt_le_dec (inject_Z m * bpow e) (bpow 32)) as [Hlt|]; [exfalso|assumption].
  apply Qabs_Qle_condition in Habs.
  pose proof (bpow_pos e) as Hu.
  destruct Hcase as [(Hex & Hbig) | [Hemin | Hnorm]].
  - lra.
  - subst e.
    assert (Hp : (inject_Z m <= inject_Z (2 ^ prec))%Q) by (rewrite <- Zle_Qle; lia).
    rewrite <- bpow_Z in Hp by lia.
    pose proof (times_unit _ _ _ Hu Hp) as Hp2. rewrite <- bpow_add in Hp2.
    assert (Hle : (bpow (prec + emin prec emax) <= bpow 30)%Q).
    { apply bpow_le. unfold emin. lia. }
    assert (Hle2 : (bpow (emin prec emax) <= bpow 30)%Q).
    { apply bpow_le. unfold emin. lia. }
    assert (E : (bpow 31 == 2 * bpow 30)%Q) by (rewrite <- bpow_succ; reflexivity).
    lra.
  - assert (Hn : (bpow (prec - 1) <= inject_Z m)%Q).
    { rewrite bpow_Z by lia. rewrite <- Zle_Qle. exact Hnorm. }
    pose proof (times_unit _ _ _ Hu Hn) as Hn2. rewrite <- bpow_add in Hn2.
    assert (He : e <= 32 - prec).
    { assert (prec - 1 + e < 32); [|lia]. apply bpow_lt_inv. lra. }
    assert (Hp : (inject_Z m <= inject_Z (2 ^ prec - 1))%Q) by (rewrite <- Zle_Qle; lia).
    unfold Z.sub in Hp. rewrite inject_Z_plus, <- bpow_Z in Hp by lia.
    change (inject_Z (- (1))) with (- (1))%Q in Hp.
    pose proof (times_unit _ _ _ Hu Hp) as Hp2.
    assert (E : ((bpow prec + - (1)) * bpow e == bpow (prec + e) - bpow e)%Q)
      by (rewrite bpow_add; ring).
    rewrite E in Hp2.
    destruct (Z.eq_dec e (32 - prec)) as [Ee|Ne].
    + subst e. replace (prec + (32 - prec)) with 32 in Hp2 by lia. lra.
    + assert (Hle : (bpow (prec + e) <= bpow 31)%Q) by (apply bpow_le; lia).
      assert (E31 : (bpow 32 == 2 * bpow 31)%Q) by (rewrite <- bpow_succ; reflexivity).
      assert (Hle2 : (bpow e <= bpow (32 - prec))%Q) by (apply bpow_le; lia).
      assert (Hle3 : (bpow (32 - prec) <= bpow 31)%Q) by (apply bpow_le; lia).
      lra.
Qed.

Lemma finish_huge (m e : Z) (y : Q) :
  0 <= m < 2 ^ prec ->
  (Qabs (inject_Z m * bpow e - y) <= bpow e * (1 # 2))%Q ->
  ((inject_Z m * bpow e == y /\ bpow 32 <= y)%Q \/
   e = emin prec emax \/ 2 ^ (prec - 1) <= m) ->
  (m = 0 -> (y <= bpow (emin prec emax - 1))%Q) ->
  (bpow 32 - bpow (32 - prec - 2) <= y)%Q ->
  huge (finish prec emax false m e).
Proof.
  intros Hm Habs Hcase Hz Hy.
  destruct (Z.eq_dec m 0) as [Hm0|Hm0].
  { exfalso. specialize (Hz Hm0).
    assert (Hmin : (bpow (emin prec emax - 1) < bpow 31)%Q).
    { apply bpow_lt. unfold emin. lia. }
    assert (Hle : (bpow (32 - prec - 2) <= bpow 31)%Q) by (apply bpow_le; lia).
    assert (E : (bpow 32 == 2 * bpow 31)%Q) by (rewrite <- bpow_succ; reflexivity).
    lra. }
  pose proof (rounded_huge m e y ltac:(lia) Habs Hcase Hy) as Hbig.
  destruct m as [|p|p]; try lia.
  cbn [finish]. destruct (e <=? emax - prec); [exact Hbig | exact I].
Qed.

Lemma binary_round_huge (p : positive) (e : Z) :
  (bpow 32 - bpow (32 - prec - 2) <= inject_Z (Zpos p) * bpow e)%Q ->
  huge (binary_round prec emax false p e).
Proof.
  intros Hy.
  destruct (binary_round_spec prec emax prec_pos false p e)
    as (m & e' & -> & Hm & _ & Habs & _ & Hcan & Hz).
  apply (finish_huge m e' _ Hm Habs (or_intror Hcan) Hz Hy).
Qed.

(** A product of positive finite data that is at least [2^32]. *)
Lemma SFmul_huge (mx : positive) (ex : Z) (my : positive) (ey : Z) :
  (bpow 32 <= (inject_Z (Zpos mx) * bpow ex) * (inject_Z (Zpos my) * bpow ey))%Q ->
  huge (SFmul prec emax (S754_finite false mx ex) (S754_finite false my ey)).
Proof.
  intros Hbig. cbn [SFmul xorb].
  assert (Hv : (inject_Z (Zpos (mx * my)) * bpow (ex + ey) ==
                (inject_Z (Zpos mx) * bpow ex) * (inject_Z (Zpos my) * bpow ey))%Q).
  { rewrite Pos2Z.inj_mul, inject_Z_mult, bpow_add. ring. }
  destruct (binary_round_aux_spec prec emax prec_pos false (Zpos (mx * my)) (ex + ey)
              loc_Exact (inject_Z (Zpos (mx * my))))
    as (m & e & -> & Hm & He & Habs & Hex & Hcan & Hz & _); [lia | cbn; reflexivity |].
  pose proof (bpow_pos (32 - prec - 2)) as Hq0.
  apply (finish_huge m e (inject_Z (Zpos (mx * my)) * bpow (ex + ey))); try assumption.
  - destruct (Z_le_gt_dec (ex + ey) (fexp prec emax (Zdigits2 (Zpos (mx * my)) + (ex + ey))))
      as [Hshift|Hnoshift].
    + right. apply Hcan. assumption.
    + left. split; [|rewrite Hv; assumption].
      apply Hex. exists (Zpos (mx * my)).
      replace (Z.max _ _) with (ex + ey) by lia. reflexivity.
  - intros Hm0. apply Hz; [assumption | lia].
  - rewrite Hv. lra.
Qed.

(** A quotient of positive finite data that is at least [2^32]. *)
Lemma SFdiv_huge (mx : positive) (ex : Z) (my : positive) (ey : Z) (z : Q) :
  (z * (inject_Z (Zpos my) * bpow ey) == inject_Z (Zpos mx) * bpow ex)%Q ->
  (bpow 32 <= z)%Q ->
  huge (SFdiv prec emax (S754_finite false mx ex) (S754_finite false my ey)).
Proof.
  intros Hz Hbig. cbn [SFdiv xorb]. unfold SFdiv_core_binary.
  pose proof (div_core_shift prec emax prec_pos (Zpos mx) ex (Zpos my) ey ltac:(lia) ltac:(lia))
    as Hshift.
  cbv zeta in Hshift.
  set (e' := Z.min (fexp prec emax (Zdigits2 (Zpos mx) + ex - (Zdigits2 (Zpos my) + ey)))
                   (ex - ey)) in *.
  set (s := ex - ey - e') in *.
  assert (Hs : 0 <= s) by lia.
  rewrite (shift_match (Zpos mx) s Hs).
  pose proof (Z_div_mod (Zpos mx * 2 ^ s) (Zpos my) ltac:(lia)) as Hdm.
  unfold Z.div in Hshift.
  destruct (Z.div_eucl (Zpos mx * 2 ^ s) (Zpos my)) as [q r]. cbn [fst] in Hshift.
  destruct Hdm as (Hqr & Hr).
  assert (Hq : 0 <= q).
  { assert (0 < 2 ^ s) by (apply Z.pow_pos_nonneg; lia). nia. }
  set (y0 := (z * bpow (- e'))%Q).
  assert (Hy0 : (y0 * bpow e' == z)%Q).
  { unfold y0. rewrite <- Qmult_assoc, <- bpow_add. replace (- e' + e') with 0 by lia.
    rewrite bpow_0. ring. }
  assert (Hloc : rec_loc (shr_record_of_loc q (new_location (Zpos my) r)) y0).
  { apply new_location_loc; [lia | lia |].
    rewrite <- inject_Z_mult, <- inject_Z_plus.
    replace (q * Zpos my + r) with (Zpos mx * 2 ^ s) by lia.
    rewrite inject_Z_mult, <- bpow_Z by lia.
    unfold y0, s.
    assert (Hb : (bpow (ex - ey - e') * bpow ey == bpow ex * bpow (- e'))%Q).
    { rewrite <- !bpow_add. replace (ex - ey - e' + ey) with (ex + - e') by lia. reflexivity. }
    pose proof (bpow_pos ey) as Hpy.
    apply (Qmult_inj_r _ _ (bpow ey)); [lra|].
    transitivity (z * (inject_Z (Zpos my) * bpow ey) * bpow (- e'))%Q; [ring|].
    rewrite Hz. transitivity (inject_Z (Zpos mx) * (bpow (ex - ey - e') * bpow ey))%Q; [|ring].
    rewrite Hb. ring. }
  destruct (binary_round_aux_spec prec emax prec_pos false q e'
              (new_location (Zpos my) r) y0 Hq Hloc)
    as (m & e & -> & Hm & He & Habs & _ & Hcan & Hzero & _).
  rewrite Hy0 in Habs, Hzero.
  pose proof (bpow_pos (32 - prec - 2)) as Hq0.
  apply (finish_huge m e z); try assumption.
  - right. apply Hcan. assumption.
  - intros Hm0. apply Hzero; [assumption | right; assumption].
  - lra.
Qed.

End Huge.

(** Each step of the conversion keeps a huge cycle count huge. *)

Lemma float_to_double_huge (x : float) : huge x -> huge (float_to_double x).
Proof.
  destruct x as [s|[|]| |[|] m e]; cbn [huge]; try contradiction; [trivial|].
  intros H. cbn [float_to_double cond_Zopp binary_normalize].
  apply binary_round_huge; try lia.
  pose proof (bpow_pos (32 - 53 - 2)). lra.
Qed.

Lemma double_to_float_huge (x : double) : huge x -> huge (double_to_float x).
Proof.
  destruct x as [s|[|]| |[|] m e]; cbn [huge]; try contradiction; [trivial|].
  intros H. cbn [double_to_float cond_Zopp binary_normalize].
  apply binary_round_huge; try lia.
  pose proof (bpow_pos (32 - 24 - 2)). lra.
Qed.

Lemma dadd_half_huge (x : double) : huge x -> huge (dadd x half).
Proof.
  destruct x as [s|[|]| |[|] m e]; cbn [huge]; try contradiction; [trivial|].
  intros H. unfold dadd, half. cbn [SFadd].
  set (ez := Z.min e (-53)).
  pose proof (aligned_value false m e ez ltac:(lia)) as Ha.
  pose proof (aligned_value false 4503599627370496 (-53) ez ltac:(lia)) as Hb.
  cbn [cond_Zopp] in *.
  set (a := fst (shl_align m e ez)) in *.
  set (b := fst (shl_align 4503599627370496 (-53) ez)) in *.
  change (Zpos a + Zpos b) with (Zpos (a + b)). cbn [binary_normalize].
  apply binary_round_huge; try lia.
  rewrite Pos2Z.inj_add, inject_Z_plus, Qmult_plus_distr_l, Ha, Hb.
  cbn [SF2Q cond_Zopp].
  pose proof (bpow_pos (32 - 53 - 2)). pose proof (bpow_pos (-53)).
  pose proof (inject_Z_pos_gt0 4503599627370496). nra.
Qed.

Lemma floor_huge (x : double) : huge x -> huge (floor x).
Proof.
  destruct x as [s|[|]| |[|] m e]; cbn [huge]; try contradiction; [trivial|].
  intros H. cbn [floor]. destruct (Z.leb_spec 0 e) as [He|He]; [exact H|].
  cbn [cond_Zopp]. rewrite Z.shiftr_div_pow2 by lia.
  set (k := - e).
  assert (Hk : 0 < 2 ^ k) by (apply Z.pow_pos_nonneg; lia).
  assert (Hb : (bpow e * inject_Z (2 ^ k) == 1)%Q).
  { rewrite <- bpow_Z by lia. rewrite <- bpow_add.
    replace (e + k) with 0 by lia. reflexivity. }
  assert (Hm : 2 ^ 32 * 2 ^ k <= Zpos m).
  { apply Zle_Q_le. rewrite inject_Z_mult, <- (bpow_Z 32) by lia.
    assert (Hk' : (0 <= inject_Z (2 ^ k))%Q) by (apply inject_Z_nonneg; lia).
    pose proof (Qmult_le_compat_r _ _ _ H Hk') as Hp.
    assert (E : (inject_Z (Zpos m) * bpow e * inject_Z (2 ^ k) == inject_Z (Zpos m))%Q).
    { rewrite <- Qmult_assoc, Hb. ring. }
    rewrite E in Hp. exact Hp. }
  assert (HN : 2 ^ 32 <= Zpos m / 2 ^ k) by (apply Z.div_le_lower_bound; lia).
  destruct (Zpos m / 2 ^ k) as [|N|N] eqn:EN; try lia.
  cbn [binary_normalize]. apply binary_round_huge; try lia.
  rewrite bpow_0, Qmult_1_r.
  assert (HNq : (inject_Z (2 ^ 32) <= inject_Z (Zpos N))%Q) by (rewrite <- Zle_Qle; lia).
  rewrite <- bpow_Z in HNq by lia.
  pose proof (bpow_pos (32 - 53 - 2)). lra.
Qed.

Lemma round_huge (x : float) : huge x -> huge (round x).
Proof.
  intros H. unfold round.
  apply double_to_float_huge, floor_huge, dadd_half_huge, float_to_double_huge, H.
Qed.

Lemma fsub_one_huge (x : float) : huge x -> huge (fsub x (int_to_float 1)).
Proof.
  destruct x as [s|[|]| |[|] m e]; cbn [huge]; try contradiction; [trivial|].
  intros H. change (int_to_float 1) with (S754_finite false 8388608 (-23)).
  unfold fsub. cbn [SFsub].
  set (ez := Z.min e (-23)).
  pose proof (aligned_value false m e ez ltac:(lia)) as Ha.
  pose proof (aligned_value false 8388608 (-23) ez ltac:(lia)) as Hb.
  cbn [cond_Zopp] in *.
  set (a := Zpos (fst (shl_align m e ez))) in *.
  set (b := Zpos (fst (shl_align 8388608 (-23) ez))) in *.
  assert (H1 : (SF2Q (S754_finite false 8388608 (-23)) == 1)%Q) by reflexivity.
  assert (B32 : (bpow 32 == 4294967296)%Q) by reflexivity.
  assert (B6 : (bpow (32 - 24 - 2) == 64)%Q) by reflexivity.
  assert (Hd : (inject_Z (a - b) * bpow ez == inject_Z (Zpos m) * bpow e - 1)%Q).
  { unfold Z.sub. rewrite inject_Z_plus, inject_Z_opp, Qmult_plus_distr_l.
    setoid_replace (- inject_Z b * bpow ez)%Q with (- (inject_Z b * bpow ez))%Q by ring.
    rewrite Ha, Hb, H1. cbn [SF2Q cond_Zopp]. ring. }
  pose proof (bpow_pos ez) as Hu.
  destruct (a - b) as [|p|p] eqn:Ep.
  - exfalso. change (inject_Z 0) with 0%Q in Hd. lra.
  - cbn [binary_normalize]. apply binary_round_huge; try lia. rewrite Hd, B6. lra.
  - exfalso.
    assert (E : (inject_Z (Zneg p) == - inject_Z (Zpos p))%Q)
      by (rewrite <- inject_Z_opp; reflexivity).
    pose proof (inject_Z_pos_gt0 p). rewrite E in Hd. nra.
Qed.

Lemma aeabi_f2uiz_huge (x : float) : huge x -> aeabi_f2uiz x = UINT32_MAX.
Proof.
  destruct x as [s|[|]| |[|] m e]; cbn [huge]; try contradiction; [reflexivity|].
  intros H. cbn [aeabi_f2uiz truncate cond_Zopp].
  assert (Hz : 2 ^ 32 <= (if 0 <=? e then Zpos m * 2 ^ e else Z.quot (Zpos m) (2 ^ (- e)))).
  { destruct (Z.leb_spec 0 e) as [He|He].
    - apply Zle_Q_le. rewrite inject_Z_mult, <- !bpow_Z by lia. exact H.
    - set (k := - e).
      assert (Hk : 0 < 2 ^ k) by (apply Z.pow_pos_nonneg; lia).
      assert (Hb : (bpow e * inject_Z (2 ^ k) == 1)%Q).
      { rewrite <- bpow_Z by lia. rewrite <- bpow_add.
        replace (e + k) with 0 by lia. reflexivity. }
      assert (Hm : 2 ^ 32 * 2 ^ k <= Zpos m).
      { apply Zle_Q_le. rewrite inject_Z_mult, <- (bpow_Z 32) by lia.
        assert (Hk' : (0 <= inject_Z (2 ^ k))%Q) by (apply inject_Z_nonneg; lia).
        pose proof (Qmult_le_compat_r _ _ _ H Hk') as Hp.
        assert (E : (inject_Z (Zpos m) * bpow e * inject_Z (2 ^ k) == inject_Z (Zpos m))%Q).
        { rewrite <- Qmult_assoc, Hb. ring. }
        rewrite E in Hp. exact Hp. }
      rewrite Z.quot_div_nonneg by lia.
      apply Z.div_le_lower_bound; lia. }
  unfold UINT32_MAX in *. change (2 ^ 32) with 4294967296 in Hz. lia.
Qed.

(** ** Periods of [2^32] bus cycles and more *)

(** A period too long, or a frequency too low, for the counter, on a
    target whose [F_BUS] is a binary32 number and whose conversion from
    [float] is the saturating routine of the ARM ABI: for every finite
    period of [2^32] bus cycles or more [period(float)] stores
    [UINT32_MAX - 1], and for every positive finite frequency of at most
    [F_BUS / 2^32] so does [frequency(float)].  The value does not wrap
    around. *)
Theorem setters_saturate (T : Target) (t : PITimer) (h : Hw) :
  0 < F_BUS T < 2 ^ 32 ->
  (SF2Q (int_to_float (F_BUS T)) == inject_Z (F_BUS T))%Q ->
  (forall x, fptoui_undefined T x = aeabi_f2uiz x) ->
  (forall p, is_finite p = true ->
             (bpow 32 <= inject_Z (F_BUS T) * SF2Q p)%Q ->
             value (fst (set_period T p t h)) = UINT32_MAX - 1) /\
  (forall hz, is_finite hz = true -> (0 < SF2Q hz)%Q ->
              (bpow 32 * SF2Q hz <= inject_Z (F_BUS T))%Q ->
              value (fst (set_frequency T hz t h)) = UINT32_MAX - 1).
Proof.
  intros HF Hexact Hu.
  destruct (int_to_float_spec (F_BUS T) HF) as (mF & eF & EF & _).
  rewrite EF in Hexact. cbn [SF2Q cond_Zopp] in Hexact.
  assert (Hstore : forall x, huge x ->
            value (fst (set_value T (float_to_uint32 T (fsub (round x) (int_to_float 1))) t h))
            = UINT32_MAX - 1).
  { intros x Hx. rewrite (float_to_uint32_aeabi T _ Hu).
    rewrite aeabi_f2uiz_huge by (apply fsub_one_huge, round_huge; exact Hx).
    rewrite set_value_stored. reflexivity. }
  assert (B32 : (0 < bpow 32)%Q) by apply bpow_pos.
  assert (HFq : (0 < inject_Z (F_BUS T))%Q).
  { change 0%Q with (inject_Z 0). rewrite <- Zlt_Qlt. lia. }
  unfold set_period, set_frequency, period_cycles, frequency_cycles. rewrite EF.
  split.
  - intros p Hfin Hbig. apply Hstore.
    destruct p as [s|s| |s m e]; try discriminate.
    + exfalso. cbn [SF2Q] in Hbig. lra.
    + destruct s.
      * exfalso. cbn [SF2Q cond_Zopp] in Hbig.
        pose proof (bpow_pos e). pose proof (inject_Z_pos_gt0 m).
        assert (E : (inject_Z (Zneg m) == - inject_Z (Zpos m))%Q)
          by (rewrite <- inject_Z_opp; reflexivity).
        assert (Hy : (0 < inject_Z (Zpos m) * bpow e)%Q) by (apply Qmult_lt_0_compat; assumption).
        rewrite E in Hbig.
        set (y := (inject_Z (Zpos m) * bpow e)%Q) in *.
        assert (E2 : (inject_Z (F_BUS T) * (- inject_Z (Zpos m) * bpow e)
                      == - (inject_Z (F_BUS T) * y))%Q) by (unfold y; ring).
        rewrite E2 in Hbig.
        pose proof (Qmult_lt_0_compat _ _ HFq Hy). lra.
      * unfold fmul. apply (SFmul_huge 24 128 ltac:(lia) ltac:(lia)).
        rewrite Hexact. exact Hbig.
  - intros hz Hfin Hpos Hbig. apply Hstore.
    destruct hz as [s|s| |s m e]; try discriminate.
    destruct s.
    + exfalso. cbn [SF2Q cond_Zopp] in Hpos.
      pose proof (bpow_pos e). pose proof (inject_Z_pos_gt0 m).
      assert (E : (inject_Z (Zneg m) == - inject_Z (Zpos m))%Q)
        by (rewrite <- inject_Z_opp; reflexivity).
      rewrite E in Hpos.
      assert (Hy : (0 < inject_Z (Zpos m) * bpow e)%Q) by (apply Qmult_lt_0_compat; assumption).
      lra.
    + cbn [SF2Q cond_Zopp] in Hpos, Hbig.
      set (y := (inject_Z (Zpos m) * bpow e)%Q) in *.
      set (z := (inject_Z (F_BUS T) / y)%Q).
      assert (Hz : (z * y == inject_Z (F_BUS T))%Q).
      { unfold z. field. lra. }
      clearbody z.
      unfold fdiv. apply (SFdiv_huge 24 128 ltac:(lia) ltac:(lia) mF eF m e z).
      * rewrite Hexact. exact Hz.
      * apply (Qmult_le_r _ _ y Hpos). rewrite Hz. exact Hbig.
Qed.

Lemma setters_saturate_witness :
  value (fst (set_period (teensy 15) (S754_finite false 13107200 (-17)) (idle 0 47999) hw0))
  = UINT32_MAX - 1.
Proof.
  refine (proj1 (setters_saturate (teensy 15) (idle 0 47999) hw0 _ _ _) _ _ _).
  - cbn. lia.
  - vm_compute. reflexivity.
  - reflexivity.
  - reflexivity.
  - vm_compute. discriminate.
Defined.
